(** * Islamic History Chatbot: citation, retrieval, start-up and failure handling

    A shallow embedding of [app.py], [src/chatbot.py], [src/utils.py] and
    [src/vectorstore.py], followed by the properties of the retrieval
    pipeline that the design document states about them.

    Python values are modelled as the code has them: a [str] is a sequence
    of Unicode code points, a [dict] is a finite map, [set(...)] is a
    finite set, exceptions are values of a result type, and the code that
    reads or writes the process state (environment, Streamlit caches, the
    index directory, the messages shown to the user) is written in a small
    state-and-exception monad. *)

From Stdlib Require Import ZArith QArith Qminmax Lia Ascii.
From stdpp Require Import base list gmap sets strings pretty sorting relations.

Local Open Scope list_scope.

(** ** Python values *)

Module Py.

(** A Python 3 [str] is a sequence of code points; [len] counts them and
    [<] compares them code point by code point. *)
Abbreviation str := (list N).

(** An ASCII literal of the source text as a [str]. *)
Definition lit (s : string) : str :=
  N_of_ascii <$> String.list_ascii_of_string s.
Arguments lit s%_string.

(** [str.isspace] for one character: the code points CPython's
    [_PyUnicode_IsWhitespace] accepts. *)
Definition isspace (c : N) : bool :=
  ((9 <=? c) && (c <=? 13) || (28 <=? c) && (c <=? 32)
   || (c =? 133) || (c =? 160) || (c =? 5760)
   || (8192 <=? c) && (c <=? 8202)
   || (c =? 8232) || (c =? 8233) || (c =? 8239) || (c =? 8287)
   || (c =? 12288))%N.

Fixpoint lstrip (s : str) : str :=
  match s with
  | c :: s' => if isspace c then lstrip s' else s
  | [] => []
  end.

Definition rstrip (s : str) : str := reverse (lstrip (reverse s)).

(** [s.strip()] *)
Definition strip (s : str) : str := rstrip (lstrip s).

(** [sep.join(parts)] *)
Fixpoint join (sep : str) (parts : list str) : str :=
  match parts with
  | [] => []
  | [p] => p
  | p :: rest => p ++ sep ++ join sep rest
  end.

(** [a <= b] on [str]: lexicographic on code points, a proper prefix
    first. *)
Fixpoint str_leb (a b : str) : bool :=
  match a, b with
  | [], _ => true
  | _ :: _, [] => false
  | x :: a', y :: b' =>
      if (x <? y)%N then true
      else if (x =? y)%N then str_leb a' b' else false
  end.

Definition str_le (a b : str) : Prop := str_leb a b = true.

Definition str_lt (a b : str) : Prop := str_le a b ∧ a ≠ b.

#[global] Instance str_le_dec : RelDecision str_le.
Proof. intros a b. unfold str_le. apply _. Defined.

(** [sorted(xs)] for a list of [str]. *)
Definition sorted (xs : list str) : list str := merge_sort str_le xs.

(** The values that occur as page metadata and as citation sources:
    [None], an [int] (what the PDF loader stores) or a [str]. *)
Inductive value :=
  | VNone
  | VInt (z : Z)
  | VStr (s : str).

#[global] Instance value_eq_dec : EqDecision value.
Proof. solve_decision. Defined.

(** [str(v)] *)
Definition str_of (v : value) : str :=
  match v with
  | VNone => lit "None"
  | VInt z => lit (pretty z)
  | VStr s => s
  end.

(** [list(dict.fromkeys(xs))]: the keys of a dict in insertion order;
    assigning to a key that is already present keeps its position. *)
Definition dict_setdefault_key {A} `{EqDecision A} (keys : list A) (k : A) : list A :=
  if decide (k ∈ keys) then keys else keys ++ [k].

Definition dict_fromkeys {A} `{EqDecision A} (xs : list A) : list A :=
  foldl dict_setdefault_key [] xs.

(** The elements that did not occur earlier in the list, in list order:
    what "deduplicate while preserving first-occurrence order" asks for. *)
Definition first_occurrences {A} `{EqDecision A} (xs : list A) : list A :=
  (λ ix, ix.2) <$> filter (λ ix, ix.2 ∉ take ix.1 xs) (imap (λ i x, (i, x)) xs).

(** Exceptions, as far as the code looks at them: the class name and
    [str(e)].  Only instances of [Exception] are modelled, which is what
    the libraries called here raise and what [except Exception] handles. *)
Record exn := Exn { exn_class : string; exn_str : str }.
Arguments Exn exn_class%_string exn_str.

Inductive result (A : Type) :=
  | Ok (a : A)
  | Raise (e : exn).
Arguments Ok {A} a.
Arguments Raise {A} e.

(** [s.split()]: the maximal runs of characters that are not whitespace,
    from left to right; [cur] is the run being read. *)
Fixpoint split_runs (cur s : str) : list str :=
  match s with
  | [] => match cur with [] => [] | _ :: _ => [cur] end
  | c :: rest =>
      if isspace c then
        match cur with
        | [] => split_runs [] rest
        | _ :: _ => cur :: split_runs [] rest
        end
      else split_runs (cur ++ [c]) rest
  end.

Definition str_split (s : str) : list str := split_runs [] s.

(** A word: a non-empty run of characters that are not whitespace. *)
Definition is_word (w : str) : Prop := w ≠ [] ∧ Forall (λ c, isspace c = false) w.

(** [s.replace(old, new)] for a non-empty [old]: the occurrences of
    [old] are found from left to right and do not overlap; [skip] counts
    the characters of the occurrence just replaced that are still to be
    passed over. *)
Fixpoint replace_from (old new : str) (skip : nat) (s : str) : str :=
  match s with
  | [] => []
  | c :: rest =>
      match skip with
      | S n => replace_from old new n rest
      | 0 =>
          if decide (old `prefix_of` s)
          then new ++ replace_from old new (length old - 1) rest
          else c :: replace_from old new 0 rest
      end
  end.

(** [s.replace(old, new)]; the empty [old] matches before every
    character and at the end. *)
Definition str_replace (old new s : str) : str :=
  match old with
  | [] => new ++ concat ((λ c, c :: new) <$> s)
  | _ :: _ => replace_from old new 0 s
  end.

(** [sub in s] *)
Fixpoint str_contains (sub s : str) : bool :=
  bool_decide (sub `prefix_of` s)
  || match s with
     | [] => false
     | _ :: rest => str_contains sub rest
     end.

End Py.
Import Py.

(** ** The process state and the effects of the code *)

(** What the vector index stores per chunk is an embedding, produced by the
    embedding service and compared by the index; the code never looks
    inside one.  [similarity] is the relevance score the index computes
    between two embeddings. *)
Class EmbeddingSpace (Vec : Type) := similarity : Vec → Vec → Q.

(** A langchain [Document]: text and a metadata dict. *)
Record Document := { page_content : str; metadata : gmap str value }.

(** A prompt template of langchain: literal text and named placeholders. *)
Inductive Segment :=
  | Text (t : str)
  | Var (name : string).
Arguments Var name%_string.

Inductive Level := info | success | warning | error.

(** A message shown by [st.info], [st.success], [st.warning] or [st.error]. *)
Record Shown := { level : Level; text : str }.

Section world.
Context {Vec : Type}.

(** [OpenAIEmbeddings(openai_api_key=...)] *)
Record OpenAIEmbeddings := { embeddings_api_key : str }.

(** The FAISS vector store: the embeddings client it embeds queries
    with, and the chunks in index order, each with its embedding. *)
Record VectorStore := {
  embedding_function : OpenAIEmbeddings;
  entries : list (Document * Vec)
}.

(** The directory [data/faiss_index] when it exists: either the entries
    of an index that [FAISS.load_local] can read back, or something it
    fails on. *)
Inductive IndexDir :=
  | Persisted (saved : list (Document * Vec))
  | Unloadable (e : exn).

(** The retriever of [create_qa_chain]: the store and the search
    arguments. *)
Record Retriever := {
  vectorstore : VectorStore;
  search_type : string;
  k : nat;
  fetch_k : nat;
  lambda_mult : Q
}.

(** [ChatOpenAI(...)] *)
Record ChatOpenAI := {
  model : string;
  temperature : Z;
  openai_api_key : str;
  request_timeout : Z
}.

(** What [create_retrieval_chain(retriever, create_stuff_documents_chain(llm, prompt))]
    is built from. *)
Record RetrievalChain := {
  retriever : Retriever;
  llm : ChatOpenAI;
  prompt : list Segment
}.

Record World := {
  (** [os.environ] *)
  environ : gmap str str;
  (** the variables that the [.env] file defines *)
  dotenv_file : gmap str str;
  (** [st.secrets] *)
  secrets : gmap str str;
  (** what [st.secrets[key]] raises for a key that is not there:
      Streamlit's [KeyError] with its own text, or its error for a
      secrets file that does not exist *)
  secrets_error : str → exn;
  (** the directories that exist, as far as the code creates them *)
  directories : gset str;
  (** the PDF files that [PyPDFLoader] can read, with their pages *)
  pdf_files : gmap str (list Document);
  (** [data/faiss_index] *)
  faiss_index : option IndexDir;
  (** the formatted size of the index files, when they can be listed *)
  index_size_mb : option str;
  (** what writing the index files runs into, when it fails: the
      exception, and what is left of [data/faiss_index] (nothing, the
      files of before, or some of the new files) *)
  index_write_failure : option (exn * option IndexDir);
  (** the embedding service, given the client and a text *)
  embed : OpenAIEmbeddings → str → result Vec;
  (** the chat-completion service, given the model settings and the
      filled-in prompt *)
  complete : ChatOpenAI → str → result str;
  (** the messages shown so far, oldest first *)
  shown : list Shown;
  (** the store behind [@st.cache_resource] of
      [load_or_create_vectorstore], by argument *)
  vectorstore_cache : gmap str VectorStore;
  (** the store behind [@st.cache_resource] of [initialize_chatbot] *)
  chatbot_cache : option RetrievalChain
}.

(** A computation reads and changes the process state and returns or
    raises.  State changes made before a [raise] stay. *)
Definition M (A : Type) : Type := World → result A * World.

Definition ret {A} (a : A) : M A := λ w, (Ok a, w).

Definition bind {A B} (m : M A) (f : A → M B) : M B := λ w,
  match m w with
  | (Ok a, w') => f a w'
  | (Raise e, w') => (Raise e, w')
  end.

Definition raise {A} (e : exn) : M A := λ w, (Raise e, w).

(** [try: body  except Exception as e: handler(e)] *)
Definition try_except {A} (body : M A) (handler : exn → M A) : M A := λ w,
  match body w with
  | (Ok a, w') => (Ok a, w')
  | (Raise e, w') => handler e w'
  end.

Definition gets {A} (f : World → A) : M A := λ w, (Ok (f w), w).

Definition modify (f : World → World) : M unit := λ w, (Ok tt, f w).

(** A call into a library that returns or raises without changing the
    state. *)
Definition lift {A} (r : World → result A) : M A := λ w, (r w, w).

(** Modelled from the spec: Streamlit's [@st.cache_resource] decorator,
    a library that is not part of the repository.  Following the design
    document (section 5: the shared resource is "initialized once per
    process lifetime", repeated requests "return the already-built
    instance rather than rebuilding") and the docstrings of the decorated
    functions ("Uses Streamlit caching to avoid reinitializing on every
    interaction"): a call whose arguments have an entry in the store
    returns the stored object and does not run the function; otherwise
    the function runs, and the object it returns is stored.  A call that
    raises stores nothing.  (Whether Streamlit shows the messages of the
    first run again on a later call is display only and is left out.) *)
Definition cache_resource {A} (lookup : World → option A)
    (store : A → World → World) (body : M A) : M A := λ w,
  match lookup w with
  | Some a => (Ok a, w)
  | None =>
      match body w with
      | (Ok a, w') => (Ok a, store a w')
      | (Raise e, w') => (Raise e, w')
      end
  end.

(** A computation that leaves both stores as they are. *)
Definition keeps_caches {A} (m : M A) : Prop :=
  ∀ w, vectorstore_cache (m w).2 = vectorstore_cache w
       ∧ chatbot_cache (m w).2 = chatbot_cache w.

Definition st_show (l : Level) (t : str) : M unit :=
  modify (λ w, {|
    environ := environ w; dotenv_file := dotenv_file w; secrets := secrets w;
    directories := directories w; pdf_files := pdf_files w;
    faiss_index := faiss_index w; index_size_mb := index_size_mb w;
    secrets_error := secrets_error w;
    index_write_failure := index_write_failure w;
    embed := embed w; complete := complete w;
    shown := shown w ++ [{| level := l; text := t |}];
    vectorstore_cache := vectorstore_cache w; chatbot_cache := chatbot_cache w |}).

(** [load_dotenv()]: the variables of the [.env] file enter
    [os.environ], those already set keep their value. *)
Definition load_dotenv : M unit :=
  modify (λ w, {|
    environ := environ w ∪ dotenv_file w;
    dotenv_file := dotenv_file w; secrets := secrets w;
    directories := directories w; pdf_files := pdf_files w;
    faiss_index := faiss_index w; index_size_mb := index_size_mb w;
    secrets_error := secrets_error w;
    index_write_failure := index_write_failure w;
    embed := embed w; complete := complete w; shown := shown w;
    vectorstore_cache := vectorstore_cache w; chatbot_cache := chatbot_cache w |}).

(** [os.getenv(var)] *)
Definition os_getenv (var : str) : M (option str) :=
  gets (λ w, environ w !! var).

(** [st.secrets[key]]: the secret, or the error that Streamlit raises
    when it has none of that name. *)
Definition st_secrets (key : str) : M str :=
  lift (λ w, match secrets w !! key with
             | Some v => Ok v
             | None => Raise (secrets_error w key)
             end).

(** [os.makedirs(path, exist_ok=True)] *)
Definition os_makedirs (path : str) : M unit :=
  modify (λ w, {|
    environ := environ w; dotenv_file := dotenv_file w; secrets := secrets w;
    directories := {[ path ]} ∪ directories w; pdf_files := pdf_files w;
    faiss_index := faiss_index w; index_size_mb := index_size_mb w;
    secrets_error := secrets_error w;
    index_write_failure := index_write_failure w;
    embed := embed w; complete := complete w; shown := shown w;
    vectorstore_cache := vectorstore_cache w; chatbot_cache := chatbot_cache w |}).

(** [os.path.exists("data/faiss_index")] *)
Definition index_path_exists : M bool :=
  gets (λ w, bool_decide (is_Some (faiss_index w))).

(** [PyPDFLoader(pdf_path).load()]: the pages of the file; a path that
    is no file is refused by the loader with a [ValueError]. *)
Definition PyPDFLoader_load (pdf_path : str) : M (list Document) :=
  lift (λ w, match pdf_files w !! pdf_path with
             | Some pages => Ok pages
             | None => Raise (Exn "ValueError"
                                (lit "File path " ++ pdf_path
                                 ++ lit " is not a valid file or url"))
             end).

(** [FAISS.load_local(index_path, embeddings, ...)] *)
Definition FAISS_load_local (embeddings : OpenAIEmbeddings) : M VectorStore :=
  lift (λ w, match faiss_index w with
             | Some (Persisted saved) =>
                 Ok {| embedding_function := embeddings; entries := saved |}
             | Some (Unloadable e) => Raise e
             | None => Raise (Exn "RuntimeError" (lit "data/faiss_index"))
             end).

(** The embeddings of a list of texts, in order; the first failure of
    the service is raised. *)
Fixpoint embed_documents (f : str → result Vec) (texts : list str)
    : result (list Vec) :=
  match texts with
  | [] => Ok []
  | t :: rest =>
      match f t with
      | Raise e => Raise e
      | Ok v =>
          match embed_documents f rest with
          | Raise e => Raise e
          | Ok vs => Ok (v :: vs)
          end
      end
  end.

(** [FAISS.from_documents(chunks, embeddings)]: every chunk is embedded
    and stored with its embedding.  The index is sized by the first
    embedding, so with no chunk at all the call ends in an [IndexError]. *)
Definition FAISS_from_documents (chunks : list Document)
    (embeddings : OpenAIEmbeddings) : M VectorStore :=
  lift (λ w, match embed_documents (embed w embeddings) (page_content <$> chunks) with
             | Ok [] => Raise (Exn "IndexError" (lit "list index out of range"))
             | Ok vs => Ok {| embedding_function := embeddings;
                              entries := zip chunks vs |}
             | Raise e => Raise e
             end).

(** The state with [dir] as the content of [data/faiss_index]. *)
Definition with_faiss_index (dir : option IndexDir) (w : World) : World :=
  {| environ := environ w; dotenv_file := dotenv_file w; secrets := secrets w;
     directories := directories w; pdf_files := pdf_files w;
     faiss_index := dir; index_size_mb := index_size_mb w;
     secrets_error := secrets_error w;
     index_write_failure := index_write_failure w;
     embed := embed w; complete := complete w; shown := shown w;
     vectorstore_cache := vectorstore_cache w; chatbot_cache := chatbot_cache w |}.

(** [vectorstore.save_local("data/faiss_index")]: the directory is made
    and the files of the index are written one after the other.  When
    all of this works, the directory holds the entries of the store; when
    a step fails, its exception is raised and the directory is left with
    what was written until then. *)
Definition save_local (v : VectorStore) : M unit := λ w,
  match index_write_failure w with
  | None => (Ok tt, with_faiss_index (Some (Persisted (entries v))) w)
  | Some (e, remains) => (Raise e, with_faiss_index remains w)
  end.

Definition store_vectorstore (pdf_path : str) (v : VectorStore) (w : World) : World :=
  {| environ := environ w; dotenv_file := dotenv_file w; secrets := secrets w;
     directories := directories w; pdf_files := pdf_files w;
     faiss_index := faiss_index w; index_size_mb := index_size_mb w;
     secrets_error := secrets_error w;
     index_write_failure := index_write_failure w;
     embed := embed w; complete := complete w; shown := shown w;
     vectorstore_cache := <[pdf_path := v]> (vectorstore_cache w);
     chatbot_cache := chatbot_cache w |}.

Definition store_chatbot (c : RetrievalChain) (w : World) : World :=
  {| environ := environ w; dotenv_file := dotenv_file w; secrets := secrets w;
     directories := directories w; pdf_files := pdf_files w;
     faiss_index := faiss_index w; index_size_mb := index_size_mb w;
     secrets_error := secrets_error w;
     index_write_failure := index_write_failure w;
     embed := embed w; complete := complete w; shown := shown w;
     vectorstore_cache := vectorstore_cache w;
     chatbot_cache := Some c |}.

End world.

Arguments OpenAIEmbeddings : clear implicits.
Arguments VectorStore : clear implicits.
Arguments IndexDir : clear implicits.
Arguments Retriever : clear implicits.
Arguments RetrievalChain : clear implicits.
Arguments World : clear implicits.
Arguments M : clear implicits.

#[global] Instance M_ret {Vec} : MRet (M Vec) := @ret Vec.
#[global] Instance M_bind {Vec} : MBind (M Vec) := λ A B f m, bind m f.

(** ** src/utils.py *)

Module Utils.

(** The entry that stands for a page number that is not known. *)
Definition unknown : value := VStr (lit "unknown").

(** [sorted(list(set(str(s) for s in sources if s != "unknown")))] *)
Definition unique_sources (sources : list value) : list str :=
  sorted (elements (list_to_set (C:=gset str)
    (str_of <$> filter (λ s, s ≠ VStr (lit "unknown")) sources))).

Definition format_sources (sources : list value) : str :=
  match sources with
  | [] => lit "**Sources:** No specific pages referenced"
  | _ =>
    let unique_sources := unique_sources sources in
    match unique_sources with
    | [] => lit "**Sources:** Page numbers not available"
    | _ =>
      if decide (length unique_sources = 1) then
        lit "**Source:** Page " ++ default [] (unique_sources !! 0)
      else if decide (length unique_sources ≤ 5) then
        lit "**Sources:** Pages " ++ join (lit ", ") unique_sources
      else
        lit "**Sources:** Pages " ++ join (lit ", ") (take 5 unique_sources)
          ++ lit " and " ++ str_of (VInt (Z.of_nat (length unique_sources) - 5))
          ++ lit " more"
    end
  end.

Definition load_sample_questions : list str :=
  [ lit "Major events in Prophet Muhammad's life before Hijra in chronological order?";
    lit "Tell me about the Prophet's birth and early childhood";
    lit "What happened during the first revelation in the Cave of Hira?";
    lit "Who was Khadijah and what role did she play in the Prophet's life?";
    lit "Describe the persecution of early Muslims in Mecca";
    lit "What was the Year of Sorrow (Am al-Huzn)?";
    lit "Tell me about the Prophet's journey to Ta'if";
    lit "What was the Night Journey (Isra and Mi'raj)?";
    lit "Who was Abu Bakr and how did he support the Prophet?";
    lit "Describe the Pledge of Aqaba";
    lit "What led to the decision to migrate to Medina?";
    lit "How did the Prophet's character earn him the title 'Al-Amin'?";
    lit "Tell me about the Prophet's relationship with his uncle Abu Talib";
    lit "What was the boycott of Banu Hashim?";
    lit "Describe the reconstruction of the Ka'aba" ].

(** [bool(v)] for the result of [os.getenv]: [None] and the empty
    string are false. *)
Definition truthy (v : option str) : bool :=
  match v with
  | None | Some [] => false
  | Some (_ :: _) => true
  end.

Section effects.
Context {Vec : Type}.

(** The loop [for var in required_vars: if not os.getenv(var):
    missing_vars.append(var)]. *)
Fixpoint collect_missing (required_vars missing_vars : list str) : M Vec (list str) :=
  match required_vars with
  | [] => mret missing_vars
  | var :: rest =>
      v ← os_getenv var;
      if negb (truthy v) then collect_missing rest (missing_vars ++ [var])
      else collect_missing rest missing_vars
  end.

Definition validate_environment : M Vec unit :=
  load_dotenv;;
  let required_vars := [lit "OPENAI_API_KEY"] in
  missing_vars ← collect_missing required_vars [];
  match missing_vars with
  | _ :: _ =>
      raise (Exn "ValueError"
        (lit "Missing required environment variables: "
         ++ join (lit ", ") missing_vars ++ lit ". "
         ++ lit "Please set them in your .env file or Streamlit secrets."))
  | [] => mret tt
  end.

(** The credential is there for the validation: after [load_dotenv],
    [os.getenv("OPENAI_API_KEY")] is a non-empty string. *)
Definition credential_present (w : World Vec) : Prop :=
  truthy ((environ w ∪ dotenv_file w) !! lit "OPENAI_API_KEY") = true.

End effects.

(** *** Chat history helpers *)

(** A chat message as these functions read it: the values of the dict
    under ["role"] and ["content"]. *)
Record ChatMessage := { msg_role : str; msg_content : str }.

(** What [st.sidebar.markdown] and [st.sidebar.metric] put into the
    sidebar. *)
Inductive SidebarElement :=
  | sidebar_markdown (body : str)
  | sidebar_metric (label : str) (value : nat).

(** The elements that [display_chat_stats] adds to the sidebar, in
    order. *)
Definition display_chat_stats (messages : list ChatMessage) : list SidebarElement :=
  match messages with
  | [] => []
  | _ :: _ =>
      let user_messages := filter (λ msg, msg_role msg = lit "user") messages in
      let assistant_messages :=
        filter (λ msg, msg_role msg = lit "assistant") messages in
      [ sidebar_markdown (lit "### " ++ [128202%N] ++ lit " Chat Stats");
        sidebar_metric (lit "Questions Asked") (length user_messages);
        sidebar_metric (lit "Responses Given") (length assistant_messages) ]
  end.

(** The text that one pass of the loop of [export_chat_history] adds. *)
Definition export_section (message : ChatMessage) : str :=
  let role := if decide (msg_role message = lit "assistant")
              then [129302%N] ++ lit " Assistant"
              else [128100%N] ++ lit " User" in
  lit "## " ++ role ++ [10; 10]%N ++ msg_content message
    ++ [10; 10]%N ++ lit "---" ++ [10; 10]%N.

Definition export_chat_history (messages : list ChatMessage) : str :=
  match messages with
  | [] => lit "No chat history available."
  | _ :: _ =>
      foldl (λ export_text message, export_text ++ export_section message)
            (lit "# Islamic History Chatbot - Chat History" ++ [10; 10]%N)
            messages
  end.

(** *** Question suggestions *)

(** The dict [suggestions_map], in the order of its keys. *)
Definition suggestions_map : list (str * list str) :=
  [ (lit "birth",
     [ lit "Tell me about the Year of the Elephant";
       lit "Who was Abdul Muttalib?";
       lit "Describe the Prophet's early childhood" ]);
    (lit "khadijah",
     [ lit "How did the Prophet become a merchant?";
       lit "What was Khadijah's role in early Islam?";
       lit "Tell me about the Prophet's marriage" ]);
    (lit "revelation",
     [ lit "What was the Prophet's reaction to first revelation?";
       lit "Who was Waraqah ibn Nawfal?";
       lit "How did early Muslims respond to the message?" ]);
    (lit "persecution",
     [ lit "Tell me about the migration to Abyssinia";
       lit "What was the boycott of Banu Hashim?";
       lit "How did the Prophet deal with opposition?" ]) ].

(** The loop [for keyword, suggestions in suggestions_map.items()]. *)
Fixpoint first_suggestions (items : list (str * list str)) (current_lower : str)
    : list str :=
  match items with
  | [] => []
  | (keyword, suggestions) :: rest =>
      if str_contains keyword current_lower then take 3 suggestions
      else first_suggestions rest current_lower
  end.

Section suggestions.
(** [str.lower]: the case mapping of the interpreter's Unicode tables,
    taken as given. *)
Variable lower : str → str.

Definition get_question_suggestions (current_question : str) : list str :=
  let current_lower := lower current_question in
  first_suggestions suggestions_map current_lower.

End suggestions.

(** *** Text clean-up *)

Definition clean_text (text : str) : str :=
  let text := join (lit " ") (str_split text) in
  let text := str_replace (lit "..") (lit ".")
                (str_replace (lit ". ") (lit ". ") text) in
  strip text.

End Utils.

(** ** src/vectorstore.py *)

Module Vectorstore.

(** *** The text splitter *)

(** The arguments of [RecursiveCharacterTextSplitter(...)]. *)
Record RecursiveCharacterTextSplitter := {
  chunk_size : nat;
  chunk_overlap : nat;
  separators : list str
}.

(** The kinds of boundary that the design document ranks, highest
    priority first. *)
Inductive Boundary :=
  | paragraph_break
  | line_break
  | sentence_end
  | clause_end
  | whitespace
  | any_character.

Definition priority (b : Boundary) : nat :=
  match b with
  | paragraph_break => 0
  | line_break => 1
  | sentence_end => 2
  | clause_end => 3
  | whitespace => 4
  | any_character => 5
  end.

(** The boundary that a separator string marks: two newlines end a
    paragraph, one ends a line, [. ], [! ] and [? ] end a sentence, [, ]
    ends a clause, a blank is whitespace, and the empty separator cuts
    between any two characters. *)
Definition boundary_of (sep : str) : option Boundary :=
  if decide (sep = [10; 10]%N) then Some paragraph_break
  else if decide (sep = [10]%N) then Some line_break
  else if decide (sep = lit ". " ∨ sep = lit "! " ∨ sep = lit "? ") then Some sentence_end
  else if decide (sep = lit ", ") then Some clause_end
  else if decide (sep = lit " ") then Some whitespace
  else if decide (sep = []) then Some any_character
  else None.

(** [sep] occurs somewhere in [text]. *)
Definition occurs_in (sep text : str) : Prop := ∃ l1 l2, text = l1 ++ sep ++ l2.

Section split.
Variable splitter : RecursiveCharacterTextSplitter.

(** Modelled from the spec: cutting a text at a separator.  The
    splitter class belongs to the langchain library, whose code is not
    part of the repository.  The text is cut after every occurrence of
    [sep], found from left to right, so that the pieces put together
    give the text back; the empty separator cuts after every character
    ("arbitrary character"). *)
Fixpoint split_after (sep cur text : str) : list str :=
  match text with
  | [] => match cur with [] => [] | _ :: _ => [cur] end
  | c :: rest =>
      let cur' := cur ++ [c] in
      if decide (sep `suffix_of` cur') then cur' :: split_after sep [] rest
      else split_after sep cur' rest
  end.

(** The length of the text that a window of pieces makes up. *)
Definition total (window : list str) : nat := length (concat window).

(** Modelled from the spec: the pieces of the chunk just closed that
    open the next one ("adjacent chunks overlap by a configured
    amount"): pieces are left out from the front until what is kept is
    no longer than [chunk_overlap] and leaves room for the next
    piece. *)
Fixpoint keep_overlap (window : list str) (next : nat) : list str :=
  match window with
  | [] => []
  | _ :: rest =>
      if decide (chunk_overlap splitter < total window
                 ∨ chunk_size splitter < total window + next)
      then keep_overlap rest next
      else window
  end.

(** Modelled from the spec: packing consecutive pieces into chunks
    ("each chunk's length is at most a configured maximum").  A piece
    joins the chunk being built while the chunk stays within
    [chunk_size]; otherwise the chunk is closed and the next one
    starts with the overlap kept from it. *)
Fixpoint merge_splits (window pieces : list str) : list str :=
  match pieces with
  | [] => match window with [] => [] | _ :: _ => [concat window] end
  | p :: rest =>
      if decide (total window + length p ≤ chunk_size splitter)
      then merge_splits (window ++ [p]) rest
      else
        match window with
        | [] => merge_splits [p] rest
        | _ :: _ =>
            concat window :: merge_splits (keep_overlap window (length p) ++ [p]) rest
        end
  end.

(** Modelled from the spec: what is done with the pieces cut at one
    separator ("falling back down the list only when a higher-priority
    boundary is unavailable within the size budget").  Pieces within the
    budget are collected and packed into chunks; a piece over the budget
    is handed to [lower], the splitting with the separators that follow,
    after the pieces collected before it are packed. *)
Fixpoint split_pieces (lower : str → list str) (pieces good : list str) : list str :=
  match pieces with
  | [] => merge_splits [] good
  | p :: ps =>
      if decide (length p ≤ chunk_size splitter)
      then split_pieces lower ps (good ++ [p])
      else merge_splits [] good ++ lower p ++ split_pieces lower ps []
  end.

(** Modelled from the spec: recursive splitting ("splitting prefers
    natural boundaries in priority order [...].  [...] if a single
    unbroken span exceeds the maximum with no acceptable boundary, it is
    still split at the maximum length").  The text is cut at the first
    separator of the list and the pieces are handled as above, with the
    rest of the list for the pieces over the budget.  When no separator
    is left the text is cut between characters, which packs it into
    chunks of the maximum length. *)
Fixpoint split_text_with (seps : list str) (text : str) : list str :=
  match seps with
  | [] => merge_splits [] (split_after [] [] text)
  | sep :: lower =>
      split_pieces (split_text_with lower) (split_after sep [] text) []
  end.

Definition split_text (text : str) : list str :=
  split_text_with (separators splitter) text.

(** Modelled from the spec: [split_documents]; every chunk carries the
    metadata (so the page number) of the page it is cut from. *)
Definition split_documents (docs : list Document) : list Document :=
  doc ← docs;
  (λ t, {| page_content := t; metadata := metadata doc |}) <$> split_text (page_content doc).

(** Modelled from the spec: a chunk that is cut out of a text by
    priority ("splitting prefers natural boundaries in priority order
    [...] falling back down the list only when a higher-priority boundary
    is unavailable within the size budget").  With the separators still
    to try, highest priority first: the chunk is made of whole pieces of
    the text cut at the first separator, so that it begins and ends where
    a piece does; or it lies within one such piece that is over the
    budget, and is cut out of that piece by the separators that follow.
    With no separator left a chunk is any stretch of the text. *)
Inductive cut_by_priority : list str → str → str → Prop :=
  | cut_at_separator sep lower text before window after :
      split_after sep [] text = before ++ window ++ after →
      window ≠ [] →
      cut_by_priority (sep :: lower) text (concat window)
  | cut_within_piece sep lower text piece chunk :
      piece ∈ split_after sep [] text →
      chunk_size splitter < length piece →
      cut_by_priority lower piece chunk →
      cut_by_priority (sep :: lower) text chunk
  | cut_between_characters text before chunk after :
      text = before ++ chunk ++ after →
      cut_by_priority [] text chunk.

(** Modelled from the spec: chunks that overlap ("adjacent chunks
    overlap by a configured amount").  A chunk is given as the text it
    repeats from the end of the chunk before it, which is at most
    [chunk_overlap] long, and the text that is new in it, which is not
    empty. *)
Fixpoint overlapping (previous : str) (parts : list (str * str)) : Prop :=
  match parts with
  | [] => True
  | part :: rest =>
      part.1 `suffix_of` previous
      ∧ length part.1 ≤ chunk_overlap splitter
      ∧ part.2 ≠ []
      ∧ overlapping (part.1 ++ part.2) rest
  end.

End split.

(** *** Building and loading the index *)

Section effects.
Context {Vec : Type}.

(** The name of the secret and of the environment variable. *)
Definition api_key_name : str := lit "OPENAI_API_KEY".

(** [OpenAIEmbeddings(openai_api_key=st.secrets["OPENAI_API_KEY"])] *)
Definition new_embeddings : M Vec OpenAIEmbeddings :=
  key ← st_secrets api_key_name;
  mret {| embeddings_api_key := key |}.

(** The inner [try] of [build_vectorstore] that reports the size of
    the index files; its bare [except: pass] hides any failure. *)
Definition report_index_size : M Vec unit :=
  size ← gets index_size_mb;
  match size with
  | Some mb => st_show info ([128202%N] ++ lit " Index size: " ++ mb ++ lit " MB")
  | None => mret tt
  end.

(** The [text_splitter] of [build_vectorstore]. *)
Definition text_splitter : RecursiveCharacterTextSplitter :=
  {| chunk_size := 1000;
     chunk_overlap := 200;
     separators := [ [10; 10]%N; [10]%N; lit ". "; lit "! "; lit "? ";
                     lit ", "; lit " "; [] ] |}.

Definition build_vectorstore (pdf_path : str) : M Vec (VectorStore Vec) :=
  try_except
    (os_makedirs (lit "data");;
     load_dotenv;;
     st_show info ([128214%N] ++ lit " Loading PDF document...");;
     docs ← PyPDFLoader_load pdf_path;
     st_show success ([9989%N] ++ lit " Loaded "
                      ++ str_of (VInt (Z.of_nat (length docs)))
                      ++ lit " pages from PDF");;
     st_show info ([9986; 65039]%N ++ lit " Splitting document into chunks...");;
     let chunks := split_documents text_splitter docs in
     st_show success ([9989%N] ++ lit " Created "
                      ++ str_of (VInt (Z.of_nat (length chunks)))
                      ++ lit " text chunks");;
     st_show info ([129504%N] ++ lit " Creating embeddings...");;
     embeddings ← new_embeddings;
     st_show info ([128269%N] ++ lit " Building search index...");;
     vectorstore ← FAISS_from_documents chunks embeddings;
     save_local vectorstore;;
     st_show success ([128190%N] ++ lit " Knowledge base saved successfully!");;
     report_index_size;;
     mret vectorstore)
    (λ e,
       st_show error ([10060%N] ++ lit " Error building vectorstore: " ++ exn_str e);;
       raise e).

(** The body of [load_or_create_vectorstore], without the decorator.
    [Some] is the [return vectorstore] inside the [try]; [None] is
    control reaching the code after the [if]. *)
Definition load_or_create_vectorstore_wrapped (pdf_path : str)
    : M Vec (VectorStore Vec) :=
  index_exists ← index_path_exists;
  loaded ← (if index_exists : bool then
              try_except
                (st_show info ([128218%N] ++ lit " Loading existing knowledge base...");;
                 embeddings ← new_embeddings;
                 vectorstore ← FAISS_load_local embeddings;
                 st_show success ([9989%N] ++ lit " Knowledge base loaded successfully!");;
                 mret (Some vectorstore))
                (λ e,
                   st_show warning ([9888; 65039]%N
                                    ++ lit " Could not load existing index: "
                                    ++ exn_str e);;
                   st_show info ([128260%N] ++ lit " Building new knowledge base...");;
                   mret None)
            else mret None);
  match loaded with
  | Some vectorstore => mret vectorstore
  | None => build_vectorstore pdf_path
  end.

(** [@st.cache_resource(show_spinner=False)] *)
Definition load_or_create_vectorstore (pdf_path : str) : M Vec (VectorStore Vec) :=
  cache_resource (λ w, vectorstore_cache w !! pdf_path)
                 (store_vectorstore pdf_path)
                 (load_or_create_vectorstore_wrapped pdf_path).

(** The chunks of the source document. *)
Definition chunks_of (pages : list Document) : list Document :=
  split_documents text_splitter pages.

(** What the [try] of [load_or_create_vectorstore] attempts, apart from
    the messages. *)
Definition load_attempt : M Vec (VectorStore Vec) :=
  embeddings ← new_embeddings;
  FAISS_load_local embeddings.

(** The messages shown when loading raised [e]. *)
Definition load_failure_notices (e : exn) : M Vec unit :=
  st_show info ([128218%N] ++ lit " Loading existing knowledge base...");;
  st_show warning ([9888; 65039]%N ++ lit " Could not load existing index: " ++ exn_str e);;
  st_show info ([128260%N] ++ lit " Building new knowledge base...").

(** What a rebuild needs from outside: the PDF can be read and has
    text, so that there is a chunk; the secret is there; the embedding
    service answers for every chunk; and the index files can be
    written. *)
Definition rebuild_possible (path : str) (w : World Vec) (pages : list Document)
    (embeddings : OpenAIEmbeddings) (vs : list Vec) : Prop :=
  pdf_files w !! path = Some pages
  ∧ chunks_of pages ≠ []
  ∧ (∃ key, secrets w !! api_key_name = Some key
            ∧ embeddings = {| embeddings_api_key := key |})
  ∧ embed_documents (embed w embeddings) (page_content <$> chunks_of pages) = Ok vs
  ∧ index_write_failure w = None.

(** Two states that differ at most in the messages shown. *)
Definition same_but_for_messages (w w0 : World Vec) : Prop :=
  environ w0 = environ w ∧ dotenv_file w0 = dotenv_file w
  ∧ secrets w0 = secrets w ∧ directories w0 = directories w
  ∧ pdf_files w0 = pdf_files w ∧ faiss_index w0 = faiss_index w
  ∧ index_size_mb w0 = index_size_mb w ∧ embed w0 = embed w
  ∧ secrets_error w0 = secrets_error w
  ∧ index_write_failure w0 = index_write_failure w
  ∧ complete w0 = complete w
  ∧ vectorstore_cache w0 = vectorstore_cache w
  ∧ chatbot_cache w0 = chatbot_cache w.


End effects.

(** *** Searching a store *)

Section search.
Context {Vec : Type}.

(** [vectorstore.similarity_search(query, k=k)], a method of the
    vector-store library, taken as given: it returns documents or
    raises, and may change the state. *)
Variable similarity_search : VectorStore Vec → str → Z → M Vec (list Document).

Definition search_similar_chunks (vectorstore : VectorStore Vec) (query : str) (k : Z)
    : M Vec (list Document) :=
  try_except
    (docs ← similarity_search vectorstore query k;
     mret docs)
    (λ e,
       st_show error (lit "Search failed: " ++ exn_str e);;
       mret []).

End search.

End Vectorstore.

(** ** src/chatbot.py *)

Module Chatbot.
Import Utils Vectorstore.

Definition nl : str := [10%N].
Definition quote : str := [34%N].

(** The string assigned to [system_prompt] in [create_qa_chain]. *)
Definition system_prompt : list Segment :=
  [ Text
    (nl
     ++ lit "You are an expert Islamic historian and scholar specializing in the life of Prophet Muhammad (peace be upon him). "
     ++ nl
     ++ lit "Your knowledge is based exclusively on Martin Lings' biography "
     ++ quote
     ++ lit "Muhammad: His Life Based on the Earliest Sources."
     ++ quote
     ++ nl
     ++ nl
     ++ lit "CRITICAL INSTRUCTIONS:"
     ++ nl
     ++ lit "1. Answer ONLY using information from the provided context below"
     ++ nl
     ++ lit "2. When asked for timelines or chronological events, organize information in proper chronological order"
     ++ nl
     ++ lit "3. For major life events, provide comprehensive details including dates, locations, and circumstances when available"
     ++ nl
     ++ lit "4. Always include page references from the source material when possible"
     ++ nl
     ++ lit "5. If the context contains relevant but incomplete information, synthesize what you can and specify what might be missing"
     ++ nl
     ++ lit "6. Be thorough and detailed when sufficient context is provided"
     ++ nl
     ++ lit "7. Maintain a respectful and scholarly tone appropriate for Islamic history"
     ++ nl
     ++ lit "8. If you cannot find sufficient information in the context, clearly state: "
     ++ quote
     ++ lit "Based on the provided context from Martin Lings' biography, I cannot find sufficient information to fully answer this question."
     ++ quote
     ++ nl
     ++ nl
     ++ lit "Remember: You are answering questions about the most beloved figure in Islamic history. Maintain accuracy, respect, and scholarly precision."
     ++ nl
     ++ nl
     ++ lit "Context from Martin Lings' biography:"
     ++ nl);
  Var "context";
  Text
    (nl
     ++ nl
     ++ lit "Question: ");
  Var "input";
  Text
    (nl
     ++ nl
     ++ lit "Provide a comprehensive and respectful answer based on the context above:") ].

(** The dict a chain invocation returns, as far as [get_response] reads
    it: the values under ["answer"] and ["context"], when present. *)
Record ChainOutput := {
  out_answer : option str;
  out_context : option (list Document)
}.

(** The dict [get_response] returns. *)
Record Response := {
  answer : str;
  sources : list value;
  context_docs : list Document
}.

(** [d.get(key, default)] *)
Definition dict_get (d : gmap str value) (key : str) (default_ : value) : value :=
  default default_ (d !! key).

(** The page numbers that the chunks of a context carry, in context
    order; a chunk without a ["page"] entry, or with [None] there, gives
    none. *)
Definition pages_of (context : list Document) : list value :=
  omap (λ doc, match metadata doc !! lit "page" with
               | Some VNone | None => None
               | Some page => Some page
               end) context.

(** The source document of [initialize_chatbot]. *)
Definition pdf_path : str := lit "docs/muhammad_martin_Lings.pdf".

Section retrieval.
Context `{EmbeddingSpace Vec}.

(** A candidate of a search: its position in the index and the entry
    there. *)
Definition Candidate : Type := nat * (Document * Vec).

Definition relevance (query : Vec) (c : Candidate) : Q := similarity (c.2.2) query.

(** [a] is at least as relevant to the query as [b]. *)
Definition no_less_relevant (query : Vec) (a b : Candidate) : Prop :=
  Qle_bool (relevance query b) (relevance query a) = true.

#[global] Instance no_less_relevant_dec query : RelDecision (no_less_relevant query).
Proof. intros a b. unfold no_less_relevant. apply _. Defined.

(** Modelled from the spec: the candidate pool of the retriever (the
    search belongs to the vector-store library, whose code is not part of
    the repository): "fetch a candidate pool of size [fetch_k] by
    nearest-neighbor distance", the most relevant entry first. *)
Definition candidate_pool (fetch_k : nat) (query : Vec) (index : list (Document * Vec))
    : list Candidate :=
  take fetch_k
    (merge_sort (no_less_relevant query) (imap (λ i e, (i, e)) index)).

(** Modelled from the spec: "max_similarity(candidate, already_selected)",
    taken as 0 while nothing is selected. *)
Definition max_similarity (c : Candidate) (selected : list Candidate) : Q :=
  match selected with
  | [] => 0
  | s :: rest => foldl (λ m s', Qmax m (similarity (c.2.2) (s'.2.2)))
                       (similarity (c.2.2) (s.2.2)) rest
  end.

(** Modelled from the spec: the score that the selection maximises,
    "lambda * relevance(candidate, query) - (1 - lambda) *
    max_similarity(candidate, already_selected)". *)
Definition mmr_score (lambda : Q) (query : Vec) (selected : list Candidate)
    (c : Candidate) : Q :=
  lambda * relevance query c - (1 - lambda) * max_similarity c selected.

(** Modelled from the spec: the remaining candidate with the highest
    score, "ties broken by original relevance rank": of two candidates
    with the same score the one earlier in the pool wins. *)
Fixpoint best (score : Candidate → Q) (remaining : list Candidate) : option Candidate :=
  match remaining with
  | [] => None
  | c :: rest =>
      match best score rest with
      | None => Some c
      | Some b => if Qle_bool (score b) (score c) then Some c else Some b
      end
  end.

(** Modelled from the spec: "iteratively pick the remaining candidate
    maximizing" the score, at most [n] times. *)
Fixpoint mmr_select (lambda : Q) (query : Vec) (n : nat)
    (remaining selected : list Candidate) : list Candidate :=
  match n with
  | 0 => selected
  | S n' =>
      match best (mmr_score lambda query selected) remaining with
      | None => selected
      | Some c =>
          mmr_select lambda query n'
            (filter (λ r, r.1 ≠ c.1) remaining) (selected ++ [c])
      end
  end.

(** Modelled from the spec: the search of the retriever for an embedded
    query, "select [k] from the pool"; a result is a list of entries of
    the index with their positions. *)
Definition mmr_search (r : Retriever Vec) (query : Vec) : list Candidate :=
  mmr_select (lambda_mult r) query (k r)
    (candidate_pool (fetch_k r) query (entries (vectorstore r))) [].

(** Modelled from the spec: "given a query string, return a
    RetrievalResult": the query is embedded by the embeddings client of
    the store, and the chunks of the selected entries are returned in
    the order of selection. *)
Definition retrieve (r : Retriever Vec) (question : str) : M Vec (list Document) :=
  query ← lift (λ w, embed w (embedding_function (vectorstore r)) question);
  mret ((λ c : Candidate, c.2.1) <$> mmr_search r query).

(** Modelled from the spec: the prompt with "the concatenated chunk
    texts as context, and the question" in the places of the template. *)
Definition format_prompt (template : list Segment) (context : list Document)
    (input : str) : str :=
  concat ((λ seg, match seg with
                  | Text t => t
                  | Var name =>
                      if decide (name = "context"%string)
                      then join (nl ++ nl) (page_content <$> context)
                      else if decide (name = "input"%string) then input
                      else []
                  end) <$> template).

(** Something that has an [invoke] method taking the question and
    returning the result dict. *)
Class Runnable (C : Type) := invoke : C → str → M Vec ChainOutput.

(** Modelled from the spec: the chain of [create_retrieval_chain], a
    langchain constructor: retrieve, "invoke the external LLM once" with
    the chunks as context, and return the answer with the chunks. *)
#[global] Instance retrieval_chain_runnable : Runnable (RetrievalChain Vec) :=
  λ chain input,
    docs ← retrieve (retriever chain) input;
    reply ← lift (λ w, complete w (llm chain)
                         (format_prompt (prompt chain) docs input));
    mret {| out_answer := Some reply; out_context := Some docs |}.

End retrieval.

Section effects.
Context {Vec : Type}.

Definition create_qa_chain (vectorstore : VectorStore Vec) : M Vec (RetrievalChain Vec) :=
  let retriever := {| vectorstore := vectorstore;
                      search_type := "mmr";
                      k := 6;
                      fetch_k := 12;
                      lambda_mult := 0.7 |} in
  key ← st_secrets api_key_name;
  let llm := {| model := "gpt-4o-mini";
                temperature := 0;
                openai_api_key := key;
                request_timeout := 60 |} in
  mret {| retriever := retriever;
          llm := llm;
          prompt := system_prompt |}.

(** The body of [initialize_chatbot], without the decorator. *)
Definition initialize_chatbot_wrapped : M Vec (RetrievalChain Vec) :=
  try_except
    (validate_environment;;
     let pdf_path := lit "docs/muhammad_martin_Lings.pdf" in
     vectorstore ← load_or_create_vectorstore pdf_path;
     qa_chain ← create_qa_chain vectorstore;
     mret qa_chain)
    (λ e,
       st_show error (lit "Failed to initialize chatbot: " ++ exn_str e);;
       raise e).

(** [@st.cache_resource(show_spinner=False)] *)
Definition initialize_chatbot : M Vec (RetrievalChain Vec) :=
  cache_resource chatbot_cache store_chatbot initialize_chatbot_wrapped.

Definition get_response `{!Runnable (Vec:=Vec) C} (qa_chain : C) (question : str)
    : M Vec Response :=
  try_except
    (result ← invoke qa_chain (strip question);
     let answer := default (lit "I couldn't generate a response.") (out_answer result) in
     let sources :=
       match out_context result with
       | Some ((_ :: _) as context) =>
           dict_fromkeys
             ((λ doc, dict_get (metadata doc) (lit "page") (VStr (lit "unknown")))
                <$> filter (λ doc, dict_get (metadata doc) (lit "page") VNone ≠ VNone)
                      context)
       | _ => []
       end in
     mret {| answer := answer;
             sources := sources;
             context_docs := default [] (out_context result) |})
    (λ e,
       mret {| answer := lit "I encountered an error while processing your question: "
                         ++ exn_str e
                         ++ lit ". Please try rephrasing your question.";
               sources := [];
               context_docs := [] |}).

End effects.

End Chatbot.

(** ** app.py *)

Module App.
Import Utils Chatbot.

Inductive Role := user | assistant.

Record Message := { role : Role; content : str }.

(** The dict of a message, as the functions of [src/utils.py] read it. *)
Definition role_name (r : Role) : str :=
  match r with
  | user => lit "user"
  | assistant => lit "assistant"
  end.

Definition message_dict (m : Message) : ChatMessage :=
  {| msg_role := role_name (role m); msg_content := content m |}.

(** A question and the assistant message that follows it. *)
Definition exchange (qa : str * str) : list Message :=
  [ {| role := user; content := qa.1 |};
    {| role := assistant; content := qa.2 |} ].

Section script.
Context `{EmbeddingSpace Vec}.

(** [st.session_state]; [None] is a key that is not there.  The value
    under [pending_question] may itself be [None]. *)
Record SessionState := {
  qa_chain : option (RetrievalChain Vec);
  chatbot_initialized : option bool;
  messages : option (list Message);
  pending_question : option (option str)
}.

(** What the user did to cause this run of the script: the sample
    question clicked, if any, and the text entered in the chat box, if
    any. *)
Record Interaction := {
  clicked : option nat;
  chat_input : option str
}.

(** A run of the script ends at its last line or at [st.stop()]. *)
Inductive Run :=
  | Completed (s : SessionState)
  | Stopped (s : SessionState).

Definition greeting : str :=
  lit "Assalamu Alaikum! I'm here to help you learn about the life of Prophet Muhammad (peace be upon him) based on Martin Lings' biography. What would you like to know?".

(** The block "Initialize chatbot": [None] is [st.stop()]. *)
Definition startup (s : SessionState) : M Vec (option SessionState) :=
  match chatbot_initialized s with
  | None =>
      try_except
        (chain ← initialize_chatbot;
         st_show success ([9989%N] ++ lit " Chatbot is ready!");;
         mret (Some {| qa_chain := Some chain;
                       chatbot_initialized := Some true;
                       messages := messages s;
                       pending_question := pending_question s |}))
        (λ e,
           st_show error ([10060%N] ++ lit " Error initializing chatbot: " ++ exn_str e);;
           mret None)
  | Some _ => mret (Some s)
  end.

(** What is shown for a result of [get_response]: the answer, and the
    citation line when [result.get("sources")] is a non-empty list. *)
Definition response_text (result : Response) : str :=
  match sources result with
  | [] => answer result
  | _ :: _ => answer result ++ nl ++ nl ++ format_sources (sources result)
  end.

Definition append_message (m : Message) (s : SessionState) : SessionState :=
  {| qa_chain := qa_chain s;
     chatbot_initialized := chatbot_initialized s;
     messages := Some (default [] (messages s) ++ [m]);
     pending_question := pending_question s |}.

(** The [try] that generates the assistant response, in the handler of a
    sample question ([show_error = false]) and of the chat box
    ([show_error = true], where the error text also goes to [st.error]). *)
Definition respond (show_error : bool) (question : str) (s : SessionState)
    : M Vec SessionState :=
  try_except
    (chain ← match qa_chain s with
             | Some chain => mret chain
             | None => raise (Exn "AttributeError" (lit "qa_chain"))
             end;
     result ← get_response chain question;
     mret (append_message {| role := assistant; content := response_text result |} s))
    (λ e,
       let error_msg := [10060%N] ++ lit " Sorry, I encountered an error: " ++ exn_str e in
       (if show_error then st_show error error_msg else mret tt);;
       mret (append_message {| role := assistant; content := error_msg |} s)).

Definition script (event : Interaction) (s : SessionState) : M Vec Run :=
  started ← startup s;
  match started with
  | None => mret (Stopped s)
  | Some s =>
      (* Initialize chat history *)
      let s := match messages s with
               | None => {| qa_chain := qa_chain s;
                            chatbot_initialized := chatbot_initialized s;
                            messages := Some [ {| role := assistant; content := greeting |} ];
                            pending_question := pending_question s |}
               | Some _ => s
               end in
      (* Pending question mechanism *)
      let s := match pending_question s with
               | None => {| qa_chain := qa_chain s;
                            chatbot_initialized := chatbot_initialized s;
                            messages := messages s;
                            pending_question := Some None |}
               | Some _ => s
               end in
      (* Sidebar: Sample questions *)
      let s := match clicked event ≫= (λ i, load_sample_questions !! i) with
               | Some question => {| qa_chain := qa_chain s;
                                     chatbot_initialized := chatbot_initialized s;
                                     messages := messages s;
                                     pending_question := Some (Some question) |}
               | None => s
               end in
      (* Handle pending sidebar question *)
      s ← match pending_question s with
          | Some (Some ((_ :: _) as question)) =>
              let s := {| qa_chain := qa_chain s;
                          chatbot_initialized := chatbot_initialized s;
                          messages := messages s;
                          pending_question := Some None |} in
              respond false question
                (append_message {| role := user; content := question |} s)
          | _ => mret s
          end;
      (* Chat input *)
      s ← match chat_input event with
          | Some ((_ :: _) as question) =>
              respond true question
                (append_message {| role := user; content := question |} s)
          | _ => mret s
          end;
      mret (Completed s)
  end.

(** What can happen to the process state between two requests: a request
    for the chatbot runs [initialize_chatbot], and anything outside the
    program (the environment, the secrets, the files, the services, the
    messages on screen) may change; the two stores of [st.cache_resource]
    are written by the decorated functions only. *)
Inductive process_step : World Vec → World Vec → Prop :=
  | step_initialize w :
      process_step w (initialize_chatbot w).2
  | step_load_or_create pdf_path w :
      process_step w (Vectorstore.load_or_create_vectorstore pdf_path w).2
  | step_outside w w' :
      vectorstore_cache w' = vectorstore_cache w →
      chatbot_cache w' = chatbot_cache w →
      process_step w w'.

(** The chat history that a run starts from: the list under
    ["messages"], or the greeting that the script puts there. *)
Definition history (s : SessionState) : list Message :=
  default [ {| role := assistant; content := greeting |} ] (messages s).

(** A history as the script builds it: the greeting, then questions,
    each followed by one assistant message. *)
Definition conversation (h : list Message) : Prop :=
  ∃ turns : list (str * str),
    h = {| role := assistant; content := greeting |} :: (turns ≫= exchange).

(** The value under ["pending_question"] when control reaches "Handle
    pending sidebar question": the sample question clicked in this run,
    or else what the session held. *)
Definition pending_at_handler (event : Interaction) (s : SessionState) : option str :=
  match clicked event ≫= (λ i, load_sample_questions !! i) with
  | Some question => Some question
  | None => default None (pending_question s)
  end.

(** The questions that a run answers, in order: the pending one, then
    the text of the chat box; an empty string is falsy and is not
    asked. *)
Definition asked (event : Interaction) (s : SessionState) : list str :=
  match pending_at_handler event s with
  | Some ((_ :: _) as question) => [question]
  | _ => []
  end
  ++ match chat_input event with
     | Some ((_ :: _) as question) => [question]
     | _ => []
     end.

(** The [try] block of [respond] alone, for the chain of the session. *)
Definition answer_with (chain : RetrievalChain Vec) (question : str) (s : SessionState)
    : M Vec SessionState :=
  result ← get_response chain question;
  mret (append_message {| role := assistant; content := response_text result |} s).

(** The chain is in the session whenever the flag is. *)
Definition chain_ready (s : SessionState) : Prop :=
  is_Some (chatbot_initialized s) → is_Some (qa_chain s).

(** A rerun that no click and no input caused. *)
Definition no_interaction : Interaction := {| clicked := None; chat_input := None |}.

End script.

End App.

(** ** Example processes *)

Module Examples.
Import Utils Vectorstore Chatbot App.

(** One-dimensional embeddings: a text is embedded as its length, and
    two embeddings are the more similar the closer they are. *)
#[export] Instance length_space : EmbeddingSpace Z :=
  λ a b, inject_Z (- Z.abs (a - b)).

(** The error for a missing secret: a stand-in for Streamlit's
    [KeyError], whose text depends on its version. *)
Definition missing_secret (key : str) : exn :=
  Exn "KeyError" (lit "'st.secrets has no key " ++ [34%N] ++ key ++ [34%N] ++ lit ".'").

Definition chunk_on_page (page : Z) (t : string) : Document :=
  {| page_content := lit t; metadata := {[ lit "page" := VInt page ]} |}.

Definition book : list Document :=
  [ chunk_on_page 0 "In the name of God. The first page, with a few words.";
    chunk_on_page 1 "The second page, which is a little longer than the first one." ].

(** A process before its first request. *)
Definition process (env : gmap str str) (index : option (IndexDir Z)) : World Z :=
  {| environ := env;
     dotenv_file := ∅;
     secrets := {[ lit "OPENAI_API_KEY" := lit "sk-test" ]};
     directories := ∅;
     pdf_files := {[ lit "docs/muhammad_martin_Lings.pdf" := book ]};
     faiss_index := index;
     index_size_mb := Some (lit "0.1");
     secrets_error := missing_secret;
     index_write_failure := None;
     embed := λ _ t, Ok (Z.of_nat (length t));
     complete := λ _ _, Ok (lit "An answer.");
     shown := [];
     vectorstore_cache := ∅;
     chatbot_cache := None |}.

Definition with_credential : gmap str str := {[ lit "OPENAI_API_KEY" := lit "sk-test" ]}.

Definition fresh_process : World Z := process with_credential None.

Definition corrupt_index : World Z :=
  process with_credential (Some (Unloadable (Exn "RuntimeError" (lit "bad index file")))).


Definition no_credential : World Z := process ∅ None.

(** Everything outside the program goes away: no variables, no
    secrets, no files, and the services are down. *)
Definition outage (w : World Z) : World Z :=
  {| environ := ∅; dotenv_file := ∅; secrets := ∅; directories := ∅;
     pdf_files := ∅; faiss_index := None; index_size_mb := None;
     secrets_error := secrets_error w;
     index_write_failure := index_write_failure w;
     embed := λ _ _, Raise (Exn "APIConnectionError" (lit "Connection error."));
     complete := λ _ _, Raise (Exn "APIConnectionError" (lit "Connection error."));
     shown := shown w;
     vectorstore_cache := vectorstore_cache w;
     chatbot_cache := chatbot_cache w |}.

(** The index and the embedding service work, the chat-completion
    service times out. *)
Definition llm_times_out (w : World Z) : World Z :=
  {| environ := environ w; dotenv_file := dotenv_file w; secrets := secrets w;
     directories := directories w; pdf_files := pdf_files w;
     faiss_index := faiss_index w; index_size_mb := index_size_mb w;
     secrets_error := secrets_error w;
     index_write_failure := index_write_failure w;
     embed := embed w;
     complete := λ _ _, Raise (Exn "APITimeoutError" (lit "Request timed out."));
     shown := shown w;
     vectorstore_cache := vectorstore_cache w;
     chatbot_cache := chatbot_cache w |}.

(** A chain that returns a given dict, and one that raises a given
    exception. *)
#[export] Instance canned_chain : Runnable (Vec:=Z) ChainOutput :=
  λ out _, mret out.

#[export] Instance failing_chain : Runnable (Vec:=Z) exn :=
  λ e _, raise e.

Definition timeout : exn := Exn "APITimeoutError" (lit "Request timed out.").

(** A chain that shows the input it is invoked with and answers with
    it. *)
Inductive Echo := echo.

#[export] Instance echo_chain : Runnable (Vec:=Z) Echo :=
  λ _ input,
    st_show info input;;
    mret {| out_answer := Some input; out_context := None |}.

Definition empty_session : SessionState (Vec:=Z) :=
  {| qa_chain := None; chatbot_initialized := None;
     messages := None; pending_question := None |}.

(** The first initialization of the example process, and the store and
    the chain it builds. *)
Definition first_run : result (RetrievalChain Z) * World Z :=
  initialize_chatbot fresh_process.

Definition built_vectors : list Z :=
  (λ chunk, Z.of_nat (length (page_content chunk))) <$> chunks_of book.

Definition built_store : VectorStore Z :=
  {| embedding_function := {| embeddings_api_key := lit "sk-test" |};
     entries := zip (chunks_of book) built_vectors |}.

Definition built_chain : RetrievalChain Z :=
  {| retriever := {| vectorstore := built_store;
                     search_type := "mmr"; k := 6; fetch_k := 12;
                     lambda_mult := 0.7 |};
     llm := {| model := "gpt-4o-mini"; temperature := 0;
               openai_api_key := lit "sk-test"; request_timeout := 60 |};
     prompt := system_prompt |}.

(** [str.lower] on ASCII text. *)
Definition ascii_lower (s : str) : str :=
  (λ c, if ((65 <=? c) && (c <=? 90))%N then (c + 32)%N else c) <$> s.

(** A history with one question answered. *)
Definition one_exchange : list Message :=
  {| role := assistant; content := greeting |}
  :: exchange (lit "Who was Khadijah?", lit "The Prophet's first wife.").

(** A session after start-up, with a sample question waiting. *)
Definition waiting_session : SessionState (Vec:=Z) :=
  {| qa_chain := Some built_chain; chatbot_initialized := Some true;
     messages := Some one_exchange;
     pending_question := Some (Some (lit "Describe the Pledge of Aqaba")) |}.

(** That session after a run during an outage: the question is in the
    history with the answer that [get_response] gives for the error. *)
Definition answered_session : SessionState (Vec:=Z) :=
  {| qa_chain := Some built_chain; chatbot_initialized := Some true;
     messages :=
       Some (one_exchange
             ++ exchange (lit "Describe the Pledge of Aqaba",
                          lit "I encountered an error while processing your question: Connection error.. Please try rephrasing your question."));
     pending_question := Some None |}.

(** The key is in the environment, the secret is not there. *)
Definition no_secret : World Z :=
  {| environ := with_credential;
     dotenv_file := ∅;
     secrets := ∅;
     directories := ∅;
     pdf_files := {[ lit "docs/muhammad_martin_Lings.pdf" := book ]};
     faiss_index := None;
     index_size_mb := None;
     secrets_error := missing_secret;
     index_write_failure := None;
     embed := λ _ t, Ok (Z.of_nat (length t));
     complete := λ _ _, Ok (lit "An answer.");
     shown := [];
     vectorstore_cache := ∅;
     chatbot_cache := None |}.

(** The index files cannot be written: the write fails after the
    first file, and what is left cannot be loaded. *)
Definition write_error : exn := Exn "OSError" (lit "No space left on device").

Definition half_written : exn := Exn "RuntimeError" (lit "incomplete index").

Definition write_fails : World Z :=
  {| environ := with_credential;
     dotenv_file := ∅;
     secrets := {[ lit "OPENAI_API_KEY" := lit "sk-test" ]};
     directories := ∅;
     pdf_files := {[ lit "docs/muhammad_martin_Lings.pdf" := book ]};
     faiss_index := None;
     index_size_mb := None;
     secrets_error := missing_secret;
     index_write_failure := Some (write_error, Some (Unloadable half_written));
     embed := λ _ t, Ok (Z.of_nat (length t));
     complete := λ _ _, Ok (lit "An answer.");
     shown := [];
     vectorstore_cache := ∅;
     chatbot_cache := None |}.

(** A library search that is down. *)
Definition search_down : VectorStore Z → str → Z → M Z (list Document) :=
  λ _ _ _, raise (Exn "APIConnectionError" (lit "Connection error.")).

End Examples.

(** * Properties *)

Import Utils Vectorstore Chatbot App Examples.

#[local] Opaque lit.

(** ** Strings *)

Section string_order.

Lemma str_leb_refl a : str_leb a a = true.
Proof.
  induction a as [|x a IH]; simpl; [done|].
  rewrite N.ltb_irrefl, N.eqb_refl. done.
Qed.

Lemma str_leb_total a b : str_leb a b = true ∨ str_leb b a = true.
Proof.
  revert b. induction a as [|x a IH]; intros [|y b]; simpl; auto.
  destruct (N.ltb_spec x y), (N.ltb_spec y x), (N.eqb_spec x y), (N.eqb_spec y x);
    auto; lia.
Qed.

Lemma str_leb_antisym a b : str_leb a b = true → str_leb b a = true → a = b.
Proof.
  revert b. induction a as [|x a IH]; intros [|y b]; simpl; try done.
  destruct (N.ltb_spec x y), (N.ltb_spec y x), (N.eqb_spec x y), (N.eqb_spec y x);
    try done; try lia.
  intros. f_equal; auto.
Qed.

Lemma str_leb_trans a b c :
  str_leb a b = true → str_leb b c = true → str_leb a c = true.
Proof.
  revert b c. induction a as [|x a IH]; intros [|y b] [|z c]; simpl; try done.
  destruct (N.ltb_spec x y), (N.ltb_spec y z), (N.ltb_spec x z),
    (N.eqb_spec x y), (N.eqb_spec y z), (N.eqb_spec x z); try done; try lia.
  apply IH.
Qed.

#[global] Instance str_le_po : PartialOrder str_le.
Proof.
  split; [split|].
  - intros a. apply str_leb_refl.
  - intros a b c. apply str_leb_trans.
  - intros a b. apply str_leb_antisym.
Qed.

#[global] Instance str_le_total : Total str_le.
Proof. intros a b. apply str_leb_total. Qed.

#[global] Instance str_lt_trans : Transitive str_lt.
Proof.
  intros a b c [Hab Hne] [Hbc Hne']. split; [by etrans|].
  intros ->. apply Hne. by apply (anti_symm str_le).
Qed.

End string_order.

(** ** Ordered dicts *)

Section ordered_dict.
Context {A : Type} `{EqDecision A}.

Lemma filter_ext_elem {B} (P Q : B → Prop) `{∀ x, Decision (P x)} `{∀ x, Decision (Q x)}
    (l : list B) :
  (∀ x, x ∈ l → (P x ↔ Q x)) → filter P l = filter Q l.
Proof.
  induction l as [|x l IH]; intros Hext; [done|].
  rewrite !filter_cons.
  rewrite IH by (intros; apply Hext; by right).
  pose proof (Hext x (list_elem_of_here _ _)) as Hx.
  destruct (decide (P x)) as [HP|HP], (decide (Q x)) as [HQ|HQ];
    [done|by apply Hx in HP|by apply Hx in HQ|done].
Qed.

Lemma first_occurrences_snoc (xs : list A) (x : A) :
  first_occurrences (xs ++ [x])
  = first_occurrences xs ++ (if decide (x ∈ xs) then [] else [x]).
Proof.
  unfold first_occurrences.
  rewrite imap_app, filter_app, fmap_app. f_equal.
  - f_equal. apply filter_ext_elem. intros [i y] Hin. simpl.
    apply elem_of_lookup_imap in Hin as (i' & y' & [= -> ->] & Hlook).
    rewrite take_app_le; [done|]. apply lookup_lt_Some in Hlook. lia.
  - simpl. rewrite filter_cons, filter_nil. simpl.
    rewrite Nat.add_0_r, take_app_length.
    destruct (decide (x ∉ xs)), (decide (x ∈ xs)); done.
Qed.

Lemma elem_of_first_occurrences (xs : list A) (x : A) :
  x ∈ first_occurrences xs ↔ x ∈ xs.
Proof.
  induction xs as [|y xs IH] using rev_ind.
  { done. }
  rewrite first_occurrences_snoc, !elem_of_app, IH.
  destruct (decide (y ∈ xs)) as [Hy|Hy]; [|done]. split.
  - intros [Hx|Hx]; [by left|by apply elem_of_nil in Hx].
  - intros [Hx|Hx%list_elem_of_singleton]; left; [done|by subst].
Qed.

(** [list(dict.fromkeys(xs))] keeps exactly the first occurrences. *)
Lemma dict_fromkeys_first_occurrences (xs : list A) :
  dict_fromkeys xs = first_occurrences xs.
Proof.
  unfold dict_fromkeys.
  induction xs as [|x xs IH] using rev_ind; [done|].
  rewrite foldl_app, first_occurrences_snoc. simpl. rewrite IH.
  unfold dict_setdefault_key.
  destruct (decide (x ∈ first_occurrences xs)) as [Hin|Hin], (decide (x ∈ xs)) as [Hin'|Hin'].
  - by rewrite app_nil_r.
  - destruct Hin'. by apply elem_of_first_occurrences.
  - destruct Hin. by apply elem_of_first_occurrences.
  - done.
Qed.

Lemma NoDup_first_occurrences (xs : list A) : NoDup (first_occurrences xs).
Proof.
  induction xs as [|x xs IH] using rev_ind.
  { constructor. }
  rewrite first_occurrences_snoc.
  destruct (decide (x ∈ xs)) as [Hin|Hin]; [by rewrite app_nil_r|].
  apply NoDup_app. split_and!; [done| |apply NoDup_singleton].
  intros y Hy ->%list_elem_of_singleton. apply Hin. by apply elem_of_first_occurrences.
Qed.

End ordered_dict.

(** ** Citations: [format_sources] *)

Section citation_line.

Lemma elem_of_unique_sources (sources : list value) (p : str) :
  p ∈ unique_sources sources ↔ ∃ s, s ∈ sources ∧ s ≠ unknown ∧ p = str_of s.
Proof.
  unfold unique_sources, sorted.
  rewrite merge_sort_Permutation, elem_of_elements, elem_of_list_to_set,
    list_elem_of_fmap.
  setoid_rewrite list_elem_of_filter. split.
  - intros (s & -> & Hne & Hin). by exists s.
  - intros (s & Hin & Hne & ->). by exists s.
Qed.

Lemma NoDup_unique_sources (sources : list value) : NoDup (unique_sources sources).
Proof.
  unfold unique_sources, sorted.
  rewrite merge_sort_Permutation. apply NoDup_elements.
Qed.

Lemma unique_sources_ascending (sources : list value) :
  StronglySorted str_lt (unique_sources sources).
Proof.
  pose proof (NoDup_unique_sources sources) as Hnd.
  assert (StronglySorted str_le (unique_sources sources)) as Hs
    by apply (StronglySorted_merge_sort str_le).
  induction Hs as [|p ps Hs IH Hall]; constructor.
  - apply IH. by apply NoDup_cons in Hnd as [_ ?].
  - apply NoDup_cons in Hnd as [Hp _].
    rewrite Forall_forall in Hall |- *. intros q Hq. split; [by apply Hall|].
    by intros ->.
Qed.

(** The result does not depend on the order in which the set is
    listed: any duplicate-free listing of the same strings sorts to it. *)
Lemma unique_sources_canonical (sources : list value) (listing : list str) :
  NoDup listing →
  (∀ p, p ∈ listing ↔ ∃ s, s ∈ sources ∧ s ≠ unknown ∧ p = str_of s) →
  sorted listing = unique_sources sources.
Proof.
  intros Hnd Hin.
  apply (Sorted_unique str_le).
  - apply (Sorted_merge_sort str_le).
  - apply (Sorted_merge_sort str_le).
  - unfold sorted. rewrite merge_sort_Permutation.
    apply NoDup_Permutation; [done|apply NoDup_unique_sources|].
    intros p. by rewrite Hin, elem_of_unique_sources.
Qed.

Lemma pretty_Z_of_nat (n : nat) : pretty (Z.of_nat n) = pretty n.
Proof. by destruct n. Qed.

Lemma str_lt_asym (a b : str) : str_lt a b → str_lt b a → False.
Proof. intros [Hab Hne] [Hba _]. apply Hne. by apply (anti_symm str_le). Qed.

Lemma ascending_before (l : list str) (x y : str) :
  StronglySorted str_lt l → x ∈ l → y ∈ l → str_lt x y →
  ∃ before between after, l = before ++ x :: between ++ y :: after.
Proof.
  intros Hs Hx Hy Hlt.
  apply list_elem_of_split in Hx as (l1 & l2 & ->).
  apply StronglySorted_app in Hs as (Hcross & _ & Hs2).
  apply elem_of_app in Hy as [Hy|Hy].
  { destruct (str_lt_asym x y); [done|]. apply Hcross; [done|by left]. }
  apply elem_of_cons in Hy as [->|Hy].
  { by destruct Hlt as [_ []]. }
  apply list_elem_of_split in Hy as (l3 & l4 & ->). by exists l1, l3, l4.
Qed.

(** With two or more pages left, the line is the plural one. *)
Lemma format_sources_several (sources : list value) :
  let pages := unique_sources sources in
  2 ≤ length pages →
  format_sources sources
  = lit "**Sources:** Pages "
    ++ (if decide (length pages ≤ 5) then join (lit ", ") pages
        else join (lit ", ") (take 5 pages)
             ++ lit " and " ++ lit (pretty (length pages - 5)) ++ lit " more").
Proof.
  intros pages Hlen. unfold format_sources. fold pages.
  destruct sources as [|s sources].
  { by vm_compute in Hlen; lia. }
  destruct pages as [|p pages'] eqn:Hpages; [simpl in Hlen; lia|].
  rewrite <- Hpages in *.
  rewrite decide_False by lia.
  destruct (decide (length pages ≤ 5)); [done|].
  replace (Z.of_nat (length pages) - 5)%Z with (Z.of_nat (length pages - 5)) by lia.
  simpl. by rewrite pretty_Z_of_nat.
Qed.

(** C2, as amended.  The formatter first drops the entries equal to
    ["unknown"], turns the others into strings and collapses duplicates;
    with [pages] the distinct strings left, it returns exactly one of five
    shapes: the "no pages referenced" line for an empty list, the "page
    numbers not available" line for a non-empty list with no page left,
    the singular "Page N" for one page, the comma-joined list for two to
    five pages, and the first five followed by the count of the others for
    more than five. *)
Theorem format_sources_shapes (sources : list value) :
  let pages := unique_sources sources in
  NoDup pages
  ∧ (∀ p, p ∈ pages ↔ ∃ s, s ∈ sources ∧ s ≠ unknown ∧ p = str_of s)
  ∧ ((sources = []
      ∧ format_sources sources = lit "**Sources:** No specific pages referenced")
     ∨ (sources ≠ [] ∧ pages = []
        ∧ format_sources sources = lit "**Sources:** Page numbers not available")
     ∨ (∃ p, pages = [p]
        ∧ format_sources sources = lit "**Source:** Page " ++ p)
     ∨ (2 ≤ length pages ≤ 5
        ∧ format_sources sources = lit "**Sources:** Pages " ++ join (lit ", ") pages)
     ∨ (5 < length pages
        ∧ format_sources sources
          = lit "**Sources:** Pages " ++ join (lit ", ") (take 5 pages)
            ++ lit " and " ++ lit (pretty (length pages - 5)) ++ lit " more")).
Proof.
  intros pages. split; [apply NoDup_unique_sources|].
  split; [apply elem_of_unique_sources|].
  unfold format_sources. fold pages.
  destruct sources as [|s sources]; [by left|].
  right. destruct pages as [|p pages'] eqn:Hpages; [by left|].
  right. rewrite <- Hpages.
  destruct (decide (length pages = 1)) as [Hone|Hone].
  { left. subst pages. rewrite Hpages in Hone |- *.
    destruct pages'; [|done]. by exists p. }
  right. destruct (decide (length pages ≤ 5)) as [Hfive|Hfive].
  { left. split; [|done]. subst pages. rewrite Hpages in Hone, Hfive |- *.
    simpl in *. lia. }
  right. split; [lia|]. simpl.
  replace (Z.of_nat (length pages) - 5)%Z with (Z.of_nat (length pages - 5)) by lia.
  by rewrite pretty_Z_of_nat.
Qed.

(** C2, as stated, fails: a list whose only entry is ["unknown"] has one
    distinct entry, and the result is none of the four shapes. *)
Lemma format_sources_unknown_is_a_fifth_shape :
  let out := format_sources [VStr (lit "unknown")] in
  out = lit "**Sources:** Page numbers not available"
  ∧ out ≠ lit "**Sources:** No specific pages referenced"
  ∧ (∀ p, out ≠ lit "**Source:** Page " ++ p)
  ∧ (∀ listed, out ≠ lit "**Sources:** Pages " ++ listed).
Proof. by vm_compute. Qed.

Example format_sources_none :
  format_sources [] = lit "**Sources:** No specific pages referenced".
Proof. reflexivity. Qed.

Example format_sources_one :
  format_sources [VStr (lit "3")] = lit "**Source:** Page 3".
Proof. by vm_compute. Qed.

Example format_sources_seven :
  format_sources (VStr <$> [lit "1"; lit "2"; lit "3"; lit "4"; lit "5"; lit "6"; lit "7"])
  = lit "**Sources:** Pages 1, 2, 3, 4, 5 and 2 more".
Proof. by vm_compute. Qed.

Example format_sources_duplicates :
  format_sources [VInt 4; VStr (lit "4"); VInt 9; VInt 4]
  = lit "**Sources:** Pages 4, 9".
Proof. by vm_compute. Qed.

(** The line for a list with at least one page left. *)
Lemma format_sources_line (sources : list value) :
  unique_sources sources ≠ [] →
  format_sources sources
  = match unique_sources sources with
    | [p] => lit "**Source:** Page " ++ p
    | pages =>
        lit "**Sources:** Pages " ++ join (lit ", ") (take 5 pages)
        ++ (if decide (length pages ≤ 5) then []
            else lit " and " ++ lit (pretty (length pages - 5)) ++ lit " more")
    end.
Proof.
  intros Hpages.
  destruct (unique_sources sources) as [|p [|q pages]] eqn:Hlisted; [done| |].
  - unfold format_sources. destruct sources as [|s sources]; [by vm_compute in Hlisted|].
    by rewrite Hlisted.
  - rewrite <- Hlisted. rewrite format_sources_several by (rewrite Hlisted; simpl; lia).
    f_equal. destruct (decide _) as [Hfive|Hmore].
    + by rewrite take_ge, app_nil_r by done.
    + done.
Qed.

Lemma length_unique_sources (sources : list value) :
  length (unique_sources sources) ≤ length sources.
Proof.
  unfold unique_sources, sorted. rewrite merge_sort_Permutation.
  etrans; [|apply (length_filter (λ s, s ≠ VStr (lit "unknown")))].
  rewrite <- (length_fmap str_of). apply submseteq_length, NoDup_submseteq.
  - apply NoDup_elements.
  - intros p. by rewrite elem_of_elements, elem_of_list_to_set.
Qed.

Lemma take_keeps_before {A} (l1 l2 : list A) (x : A) (n : nat) :
  NoDup (l1 ++ x :: l2) → x ∈ take n (l1 ++ x :: l2) →
  take n (l1 ++ x :: l2) = l1 ++ x :: take (n - S (length l1)) l2.
Proof.
  intros Hnd Hin. rewrite take_app in Hin |- *.
  apply NoDup_app in Hnd as (_ & Hfresh & _).
  destruct (decide (n ≤ length l1)) as [Hshort|Hlong].
  - replace (n - length l1) with 0 in Hin by lia. rewrite take_0, app_nil_r in Hin.
    apply elem_of_take in Hin as (i & Hin%list_elem_of_lookup_2 & _).
    destruct (Hfresh x Hin). by left.
  - rewrite take_ge by lia. f_equal.
    replace (n - length l1) with (S (n - S (length l1))) by lia. done.
Qed.

(** C9, as amended.  The citation line lists the pages in the order of
    their string forms, compared character by character, not in the order
    of the numbers, and it is cut after five pages.  For two pages of the
    sources of which the first has the smaller string: the line is the
    plural one, made of the first five of the distinct strings in
    ascending order; when the second page is among them, so is the first,
    and it stands before the second; with at most five sources both are
    there.  So ["10"] is listed before ["2"] whenever ["2"] is listed. *)
Theorem format_sources_orders_strings (sources : list value) (a b : value) :
  a ∈ sources → b ∈ sources → a ≠ unknown → b ≠ unknown →
  str_lt (str_of a) (str_of b) →
  ∃ listed : list str,
    StronglySorted str_lt listed
    ∧ (∀ p, p ∈ listed ↔ ∃ s, s ∈ sources ∧ s ≠ unknown ∧ p = str_of s)
    ∧ format_sources sources
      = lit "**Sources:** Pages " ++ join (lit ", ") (take 5 listed)
        ++ (if decide (length listed ≤ 5) then []
            else lit " and " ++ lit (pretty (length listed - 5)) ++ lit " more")
    ∧ (str_of b ∈ take 5 listed →
       ∃ before between after,
         take 5 listed = before ++ str_of a :: between ++ str_of b :: after)
    ∧ (length sources ≤ 5 → str_of b ∈ take 5 listed).
Proof.
  intros Ha Hb Hua Hub Hlt. exists (unique_sources sources).
  assert (∃ before between after,
            unique_sources sources = before ++ str_of a :: between ++ str_of b :: after)
    as (before & between & after & Hsplit).
  { apply ascending_before; [apply unique_sources_ascending| | |done];
      apply elem_of_unique_sources; eauto. }
  split; [apply unique_sources_ascending|]. split; [apply elem_of_unique_sources|].
  split; [|split].
  - rewrite format_sources_line by (rewrite Hsplit; by destruct before).
    rewrite Hsplit. destruct before as [|x [|y before]]; [destruct between| |]; reflexivity.
  - intros Hlisted.
    pose proof (NoDup_unique_sources sources) as Hnd.
    assert (unique_sources sources
            = (before ++ str_of a :: between) ++ str_of b :: after) as Hsplit'
      by (by rewrite Hsplit, <- (assoc_L (++))).
    rewrite Hsplit' in Hlisted, Hnd |- *.
    rewrite (take_keeps_before _ _ _ _ Hnd Hlisted).
    rewrite <- (assoc_L (++)). by eexists _, _, _.
  - intros Hfew. rewrite take_ge.
    + apply elem_of_unique_sources. eauto.
    + pose proof (length_unique_sources sources). lia.
Qed.

Lemma format_sources_orders_strings_witness :
  str_lt (lit "10") (lit "2")
  ∧ format_sources [VInt 2; VInt 10] = lit "**Sources:** Pages 10, 2"
  ∧ ∃ listed before between after,
      take 5 listed = before ++ lit "10" :: between ++ lit "2" :: after
      ∧ format_sources [VInt 2; VInt 10]
        = lit "**Sources:** Pages " ++ join (lit ", ") (take 5 listed)
          ++ (if decide (length listed ≤ 5) then []
              else lit " and " ++ lit (pretty (length listed - 5)) ++ lit " more").
Proof.
  assert (str_lt (lit "10") (lit "2")) as Hlt by (by vm_compute).
  split; [done|]. split; [by vm_compute|].
  destruct (format_sources_orders_strings [VInt 2; VInt 10] (VInt 10) (VInt 2))
    as (listed & _ & _ & Hline & Hbefore & Hfew).
  - apply list_elem_of_further, list_elem_of_here.
  - apply list_elem_of_here.
  - done.
  - done.
  - exact Hlt.
  - destruct (Hbefore (Hfew ltac:(simpl; lia))) as (before & between & after & Hsplit).
    exists listed, before, between, after. split; [exact Hsplit|exact Hline].
Defined.

(** C9, as stated, fails: these sources contain the pages 10 and 2, the
    string of 10 is the smaller one, and the line is cut after five pages,
    so that the 2 is not listed at all. *)
Lemma format_sources_cuts_off_larger_strings :
  let sources := VInt <$> [2; 10; 11; 13; 14; 15]%Z in
  VInt 10 ∈ sources ∧ VInt 2 ∈ sources
  ∧ str_lt (str_of (VInt 10)) (str_of (VInt 2))
  ∧ format_sources sources = lit "**Sources:** Pages 10, 11, 13, 14, 15 and 1 more"
  ∧ str_contains (str_of (VInt 2)) (format_sources sources) = false.
Proof.
  split; [by apply list_elem_of_further, list_elem_of_here|].
  split; [by apply list_elem_of_here|]. by vm_compute.
Qed.

End citation_line.

(** ** Answers: [get_response] *)

Section answers.
Context {Vec : Type} `{!Runnable (Vec:=Vec) C}.
Implicit Types (qa_chain : C) (question : str) (w : World Vec).

Lemma pages_of_comprehension (context : list Document) :
  (λ doc, dict_get (metadata doc) (lit "page") (VStr (lit "unknown")))
    <$> filter (λ doc, dict_get (metadata doc) (lit "page") VNone ≠ VNone) context
  = pages_of context.
Proof.
  unfold pages_of, dict_get.
  generalize (lit "page") (VStr (lit "unknown")). intros key unknown_.
  induction context as [|doc context IH]; [done|].
  rewrite filter_cons. cbn [omap list_omap].
  destruct (metadata doc !! key) as [[| |]|] eqn:Hpage; simpl;
    rewrite ?Hpage; simpl; rewrite <- ?IH; reflexivity.
Qed.

Lemma get_response_ok qa_chain question w out w' :
  invoke qa_chain (strip question) w = (Ok out, w') →
  get_response qa_chain question w
  = (Ok {| answer := default (lit "I couldn't generate a response.") (out_answer out);
           sources := dict_fromkeys (pages_of (default [] (out_context out)));
           context_docs := default [] (out_context out) |}, w').
Proof.
  intros Hinv. unfold get_response, try_except, mbind, M_bind, bind.
  rewrite Hinv. simpl. unfold mret, M_ret, ret. do 3 f_equal.
  destruct (out_context out) as [[|doc context]|]; try done.
  by rewrite pages_of_comprehension.
Qed.

Lemma get_response_raise qa_chain question w e w' :
  invoke qa_chain (strip question) w = (Raise e, w') →
  get_response qa_chain question w
  = (Ok {| answer := lit "I encountered an error while processing your question: "
                     ++ exn_str e ++ lit ". Please try rephrasing your question.";
           sources := [];
           context_docs := [] |}, w').
Proof.
  intros Hinv. unfold get_response, try_except, mbind, M_bind, bind.
  by rewrite Hinv.
Qed.

(** C3.  When the invocation of the chain raises, [get_response] returns
    and the exception goes no further: the answer is a non-empty text that
    contains the text of the exception, and the list of sources is empty.
    Whatever the chain does, [get_response] returns and never raises. *)
Theorem get_response_isolates_failures qa_chain question w e w' :
  invoke qa_chain (strip question) w = (Raise e, w') →
  (∃ r, get_response qa_chain question w = (Ok r, w')
        ∧ answer r ≠ []
        ∧ (∃ before after, answer r = before ++ exn_str e ++ after)
        ∧ sources r = []
        ∧ context_docs r = [])
  ∧ (∀ question0 w0, ∃ r w1, get_response qa_chain question0 w0 = (Ok r, w1)).
Proof.
  intros Hinv. split.
  - eexists. split; [by apply get_response_raise|].
    split_and!; [done| |done|done].
    by exists (lit "I encountered an error while processing your question: "),
              (lit ". Please try rephrasing your question.").
  - intros question0 w0.
    destruct (invoke qa_chain (strip question0) w0) as [[out|e0] w1] eqn:Hinv0.
    + eexists _, _. by apply get_response_ok.
    + eexists _, _. by apply get_response_raise.
Qed.

Lemma lstrip_spaces (pad s : str) :
  Forall (λ c, isspace c = true) pad → lstrip (pad ++ s) = lstrip s.
Proof. induction 1 as [|c pad Hc _ IH]; simpl; [done|]. by rewrite Hc. Qed.

Lemma lstrip_app_kept (s t : str) :
  lstrip s ≠ [] → lstrip (s ++ t) = lstrip s ++ t.
Proof.
  induction s as [|c s IH]; simpl; [done|].
  destruct (isspace c); [apply IH|done].
Qed.

Lemma lstrip_all_space (s : str) :
  lstrip s = [] → Forall (λ c, isspace c = true) s.
Proof.
  induction s as [|c s IH]; simpl; [constructor|].
  destruct (isspace c) eqn:Hc; [|done]. constructor; auto.
Qed.

Lemma rstrip_spaces (s pad : str) :
  Forall (λ c, isspace c = true) pad → rstrip (s ++ pad) = rstrip s.
Proof.
  intros Hpad. unfold rstrip. rewrite reverse_app, lstrip_spaces; [done|].
  by apply Forall_reverse.
Qed.

(** [strip] does not see whitespace added in front or behind. *)
Lemma strip_padding (before after s : str) :
  Forall (λ c, isspace c = true) before →
  Forall (λ c, isspace c = true) after →
  strip (before ++ s ++ after) = strip s.
Proof.
  intros Hb Ha. unfold strip. rewrite lstrip_spaces by done.
  destruct (decide (lstrip s = [])) as [Hs|Hs].
  - rewrite Hs. apply lstrip_all_space in Hs.
    rewrite (lstrip_spaces s after) by done.
    destruct (decide (lstrip after = [])) as [Hl|Hl]; [by rewrite Hl|].
    transitivity (rstrip ([] ++ lstrip after)); [done|].
    assert (Forall (λ c, isspace c = true) (lstrip after)) as Hall.
    { clear -Ha. induction Ha as [|c l Hc _ IH]; simpl; [constructor|]. by rewrite Hc. }
    by rewrite rstrip_spaces.
  - rewrite lstrip_app_kept by done. by apply rstrip_spaces.
Qed.

Lemma lstrip_decompose (s : str) :
  ∃ lead, s = lead ++ lstrip s
          ∧ Forall (λ c, isspace c = true) lead
          ∧ ∀ c rest, lstrip s = c :: rest → isspace c = false.
Proof.
  induction s as [|c s (lead & Hs & Hlead & Hfirst)]; simpl.
  { exists []. by split_and!. }
  destruct (isspace c) eqn:Hc.
  - exists (c :: lead). split_and!; [by rewrite Hs at 1|by constructor|done].
  - exists []. split_and!; [done|constructor|]. by intros c' rest [= <- _].
Qed.

Lemma rstrip_decompose (s : str) :
  ∃ trail, s = rstrip s ++ trail
           ∧ Forall (λ c, isspace c = true) trail
           ∧ ∀ init c, rstrip s = init ++ [c] → isspace c = false.
Proof.
  unfold rstrip. destruct (lstrip_decompose (reverse s)) as (lead & Hs & Hlead & Hfirst).
  exists (reverse lead). split_and!.
  - rewrite <- reverse_app, <- Hs. by rewrite reverse_involutive.
  - by apply Forall_reverse.
  - intros init c Hlast. apply (Hfirst c (reverse init)).
    rewrite <- (reverse_involutive (lstrip (reverse s))), Hlast.
    by rewrite reverse_snoc.
Qed.

(** [strip] takes away the whitespace at both ends, and nothing else. *)
Lemma strip_decompose (s : str) :
  ∃ lead trail,
    s = lead ++ strip s ++ trail
    ∧ Forall (λ c, isspace c = true) lead
    ∧ Forall (λ c, isspace c = true) trail
    ∧ (∀ c rest, strip s = c :: rest → isspace c = false)
    ∧ (∀ init c, strip s = init ++ [c] → isspace c = false).
Proof.
  unfold strip.
  destruct (lstrip_decompose s) as (lead & Hs & Hlead & Hfirst).
  destruct (rstrip_decompose (lstrip s)) as (trail & Ht & Htrail & Hlast).
  exists lead, trail. split_and!; [by rewrite <- Ht| done | done | | done].
  intros c rest Hhead. apply (Hfirst c (rest ++ trail)).
  rewrite Ht at 1. by rewrite Hhead.
Qed.

(** C10.  Whitespace in front of the question and behind it makes no
    difference.  [strip] gives the same for the padded question as for
    the question, namely the question without the whitespace at its two
    ends and otherwise unchanged; [get_response] on the padded question
    is what it is on the question: the outcome of invoking the chain with
    the stripped question, in the state in which that invocation ends,
    turned into an answer with its sources or into the error answer. *)
Theorem get_response_ignores_padding qa_chain question (before after : str) w :
  Forall (λ c, isspace c = true) before →
  Forall (λ c, isspace c = true) after →
  let padded := before ++ question ++ after in
  strip padded = strip question
  ∧ (∃ lead trail,
       question = lead ++ strip question ++ trail
       ∧ Forall (λ c, isspace c = true) lead
       ∧ Forall (λ c, isspace c = true) trail
       ∧ (∀ c rest, strip question = c :: rest → isspace c = false)
       ∧ (∀ init c, strip question = init ++ [c] → isspace c = false))
  ∧ get_response qa_chain padded w = get_response qa_chain question w
  ∧ get_response qa_chain padded w
    = match invoke qa_chain (strip question) w with
      | (Ok out, w') =>
          (Ok {| answer := default (lit "I couldn't generate a response.")
                                   (out_answer out);
                 sources := first_occurrences (pages_of (default [] (out_context out)));
                 context_docs := default [] (out_context out) |}, w')
      | (Raise e, w') =>
          (Ok {| answer := lit "I encountered an error while processing your question: "
                           ++ exn_str e
                           ++ lit ". Please try rephrasing your question.";
                 sources := [];
                 context_docs := [] |}, w')
      end.
Proof.
  intros Hb Ha padded.
  assert (strip padded = strip question) as Hstrip by by apply strip_padding.
  split; [done|]. split; [apply strip_decompose|].
  split; [unfold get_response; by rewrite Hstrip|].
  destruct (invoke qa_chain (strip question) w) as [[out|e] w'] eqn:Hinv.
  - rewrite <- Hstrip in Hinv. rewrite (get_response_ok _ _ _ _ _ Hinv).
    by rewrite dict_fromkeys_first_occurrences.
  - rewrite <- Hstrip in Hinv. by rewrite (get_response_raise _ _ _ _ _ Hinv).
Qed.

End answers.

(** ** The effects of the code on the two [st.cache_resource] stores *)

Section cache_stores.
Context {Vec : Type}.
Implicit Types (w : World Vec).

Lemma bind_ok_inv {A B} (m : M Vec A) (f : A → M Vec B) w b w' :
  bind m f w = (Ok b, w') → ∃ a w1, m w = (Ok a, w1) ∧ f a w1 = (Ok b, w').
Proof. unfold bind. destruct (m w) as [[a|e] w1]; [|done]. by exists a, w1. Qed.

Lemma try_except_ok_inv {A} (body : M Vec A) handler w a w' :
  try_except body handler w = (Ok a, w') →
  body w = (Ok a, w')
  ∨ ∃ e w1, body w = (Raise e, w1) ∧ handler e w1 = (Ok a, w').
Proof.
  unfold try_except. destruct (body w) as [[a'|e] w1]; [by left|].
  right. by exists e, w1.
Qed.

Lemma keeps_ret {A} (a : A) : keeps_caches (ret (Vec:=Vec) a).
Proof. by intros w. Qed.

Lemma keeps_raise {A} e : keeps_caches (raise (Vec:=Vec) (A:=A) e).
Proof. by intros w. Qed.

Lemma keeps_gets {A} (f : World Vec → A) : keeps_caches (gets f).
Proof. by intros w. Qed.

Lemma keeps_lift {A} (r : World Vec → result A) : keeps_caches (lift r).
Proof. by intros w. Qed.

Lemma keeps_bind {A B} (m : M Vec A) (f : A → M Vec B) :
  keeps_caches m → (∀ a, keeps_caches (f a)) → keeps_caches (bind m f).
Proof.
  intros Hm Hf w. unfold bind. specialize (Hm w).
  destruct (m w) as [[a|e] w1]; simpl in *; [|done].
  destruct (Hf a w1) as [-> ->]. done.
Qed.

Lemma keeps_try_except {A} (body : M Vec A) handler :
  keeps_caches body → (∀ e, keeps_caches (handler e)) →
  keeps_caches (try_except body handler).
Proof.
  intros Hm Hf w. unfold try_except. specialize (Hm w).
  destruct (body w) as [[a|e] w1]; simpl in *; [done|].
  destruct (Hf e w1) as [-> ->]. done.
Qed.

Lemma keeps_st_show l t : keeps_caches (st_show (Vec:=Vec) l t).
Proof. by intros w. Qed.

Lemma keeps_load_dotenv : keeps_caches (load_dotenv (Vec:=Vec)).
Proof. by intros w. Qed.

Lemma keeps_os_makedirs path : keeps_caches (os_makedirs (Vec:=Vec) path).
Proof. by intros w. Qed.

Lemma keeps_save_local v : keeps_caches (save_local (Vec:=Vec) v).
Proof. intros w. unfold save_local. by destruct (index_write_failure w) as [[e dir]|]. Qed.

Ltac keeps :=
  repeat first
    [ apply keeps_ret | apply keeps_raise | apply keeps_gets | apply keeps_lift
    | apply keeps_st_show | apply keeps_load_dotenv | apply keeps_os_makedirs
    | apply keeps_save_local
    | apply keeps_bind | apply keeps_try_except
    | intros ? | progress (unfold mbind, M_bind, mret, M_ret) | case_match ].

Lemma keeps_collect_missing required missing :
  keeps_caches (collect_missing (Vec:=Vec) required missing).
Proof.
  revert missing. induction required as [|var rest IH]; intros missing; simpl.
  - apply keeps_ret.
  - unfold mbind, M_bind. apply keeps_bind; [apply keeps_gets|].
    intros v. destruct (negb (truthy v)); apply IH.
Qed.

Lemma keeps_validate_environment : keeps_caches (validate_environment (Vec:=Vec)).
Proof.
  unfold validate_environment. unfold mbind, M_bind.
  apply keeps_bind; [apply keeps_load_dotenv|]. intros _.
  apply keeps_bind; [apply keeps_collect_missing|]. keeps.
Qed.

Lemma keeps_build_vectorstore pdf_path :
  keeps_caches (build_vectorstore (Vec:=Vec) pdf_path).
Proof. unfold build_vectorstore, new_embeddings, report_index_size, st_secrets,
         PyPDFLoader_load, FAISS_from_documents. keeps. Qed.

Lemma keeps_load_or_create_vectorstore_wrapped pdf_path :
  keeps_caches (load_or_create_vectorstore_wrapped (Vec:=Vec) pdf_path).
Proof.
  unfold load_or_create_vectorstore_wrapped, index_path_exists, new_embeddings,
    st_secrets, FAISS_load_local.
  keeps; apply keeps_build_vectorstore.
Qed.

Lemma keeps_create_qa_chain v : keeps_caches (create_qa_chain (Vec:=Vec) v).
Proof. unfold create_qa_chain, st_secrets. keeps. Qed.

End cache_stores.

(** ** Start-up: the environment check *)

Section environment_checks.
Context {Vec : Type}.
Implicit Types (w : World Vec).

Lemma validate_environment_missing w :
  truthy ((environ w ∪ dotenv_file w) !! api_key_name) = false →
  validate_environment w
  = (Raise (Exn "ValueError"
       (lit "Missing required environment variables: " ++ lit "OPENAI_API_KEY"
        ++ lit ". " ++ lit "Please set them in your .env file or Streamlit secrets.")),
     (load_dotenv w).2).
Proof.
  intros Hmiss. unfold validate_environment, collect_missing.
  unfold mbind, M_bind, bind, mret, M_ret, ret. simpl.
  fold api_key_name.
  change (lit "OPENAI_API_KEY") with api_key_name.
  rewrite Hmiss. reflexivity.
Qed.

Lemma validate_environment_present w :
  truthy ((environ w ∪ dotenv_file w) !! api_key_name) = true →
  validate_environment w = (Ok tt, (load_dotenv w).2).
Proof.
  intros Hmiss. unfold validate_environment, collect_missing.
  unfold mbind, M_bind, bind, mret, M_ret, ret. simpl.
  change (lit "OPENAI_API_KEY") with api_key_name.
  rewrite Hmiss. reflexivity.
Qed.

End environment_checks.

(** ** Initialization happens once *)

Section idempotence.
Context `{EmbeddingSpace Vec}.
Implicit Types (w : World Vec).

Lemma cache_resource_hit {A} (lookup : World Vec → option A) store body w a :
  lookup w = Some a → cache_resource lookup store body w = (Ok a, w).
Proof. intros Hhit. unfold cache_resource. by rewrite Hhit. Qed.

Lemma load_or_create_vectorstore_stores path w :
  chatbot_cache (load_or_create_vectorstore path w).2 = chatbot_cache w
  ∧ (∀ p v, vectorstore_cache w !! p = Some v →
            vectorstore_cache (load_or_create_vectorstore path w).2 !! p = Some v)
  ∧ (∀ v, (load_or_create_vectorstore path w).1 = Ok v →
          vectorstore_cache (load_or_create_vectorstore path w).2 !! path = Some v).
Proof.
  unfold load_or_create_vectorstore, cache_resource.
  destruct (vectorstore_cache w !! path) as [v0|] eqn:Hcache; simpl.
  { split_and!; [done|done|]. by intros v [= <-]. }
  destruct (keeps_load_or_create_vectorstore_wrapped path w) as [Hv Hc].
  destruct (load_or_create_vectorstore_wrapped path w) as [[v|e] w1]; simpl in *.
  - split_and!; [done| |].
    + intros p v' Hp. rewrite Hv. rewrite lookup_insert_ne; [done|]. congruence.
    + intros v' [= <-]. by rewrite lookup_insert_eq.
  - split_and!; [done| |done]. intros p v' Hp. by rewrite Hv.
Qed.

Lemma initialize_chatbot_wrapped_ok w chain w1 :
  initialize_chatbot_wrapped w = (Ok chain, w1) →
  chatbot_cache w1 = chatbot_cache w
  ∧ vectorstore_cache w1 !! pdf_path = Some (vectorstore (retriever chain))
  ∧ (∀ p v, vectorstore_cache w !! p = Some v → vectorstore_cache w1 !! p = Some v).
Proof.
  unfold initialize_chatbot_wrapped. intros Hrun.
  apply try_except_ok_inv in Hrun as [Hrun|(e & w' & _ & Hrun)]; last first.
  { unfold mbind, M_bind, bind in Hrun. simpl in Hrun. done. }
  unfold mbind, M_bind in Hrun.
  apply bind_ok_inv in Hrun as ([] & wa & Hval & Hrun).
  apply bind_ok_inv in Hrun as (v & wb & Hload & Hrun).
  apply bind_ok_inv in Hrun as (c & wc & Hcreate & [= <- <-]).
  pose proof (keeps_validate_environment w) as [Hv1 Hc1]. rewrite Hval in Hv1, Hc1.
  pose proof (load_or_create_vectorstore_stores (lit "docs/muhammad_martin_Lings.pdf") wa)
    as (Hc2 & Hv2 & Hv2').
  rewrite Hload in Hc2, Hv2, Hv2'. simpl in *.
  pose proof (keeps_create_qa_chain v wb) as [Hv3 Hc3]. rewrite Hcreate in Hv3, Hc3.
  simpl in *.
  assert (vectorstore (retriever c) = v) as ->.
  { unfold create_qa_chain, mbind, M_bind in Hcreate.
    apply bind_ok_inv in Hcreate as (key & wd & _ & [= <- _]). done. }
  split_and!.
  - congruence.
  - rewrite Hv3. by apply Hv2'.
  - intros p v' Hp. rewrite Hv3. apply Hv2. by rewrite Hv1.
Qed.

Lemma initialize_chatbot_stores w :
  (∀ c, chatbot_cache w = Some c → initialize_chatbot w = (Ok c, w))
  ∧ (∀ p v, vectorstore_cache w !! p = Some v →
            vectorstore_cache (initialize_chatbot w).2 !! p = Some v).
Proof.
  split.
  { intros c Hc. by apply cache_resource_hit. }
  intros p v Hp. unfold initialize_chatbot, cache_resource.
  destruct (chatbot_cache w) as [c|] eqn:Hcache; [done|].
  destruct (initialize_chatbot_wrapped w) as [[c|e] w1] eqn:Hrun; simpl.
  - apply initialize_chatbot_wrapped_ok in Hrun as (_ & _ & Hkeep). by apply Hkeep.
  - unfold initialize_chatbot_wrapped, try_except in Hrun.
    unfold mbind, M_bind in Hrun.
    pose proof (keeps_validate_environment w) as [Hv1 _].
    unfold bind at 1 in Hrun.
    destruct (validate_environment w) as [[[]|e1] wa]; simpl in *.
    2: { injection Hrun as _ <-. simpl. by rewrite Hv1. }
    pose proof (load_or_create_vectorstore_stores (lit "docs/muhammad_martin_Lings.pdf") wa)
      as (_ & Hv2 & _).
    unfold bind at 1 in Hrun.
    destruct (load_or_create_vectorstore _ wa) as [[v2|e2] wb]; simpl in *.
    2: { injection Hrun as _ <-. simpl. apply Hv2. by rewrite Hv1. }
    pose proof (keeps_create_qa_chain v2 wb) as [Hv3 _].
    unfold bind at 1 in Hrun.
    destruct (create_qa_chain v2 wb) as [[c3|e3] wc]; simpl in *; [done|].
    injection Hrun as _ <-. simpl. rewrite Hv3. apply Hv2. by rewrite Hv1.
Qed.

Lemma initialize_chatbot_ok w chain w1 :
  initialize_chatbot w = (Ok chain, w1) →
  chatbot_cache w1 = Some chain
  ∧ (chatbot_cache w = None →
     vectorstore_cache w1 !! pdf_path = Some (vectorstore (retriever chain))).
Proof.
  unfold initialize_chatbot, cache_resource.
  destruct (chatbot_cache w) as [c|] eqn:Hcache.
  { by intros [= <- <-]. }
  destruct (initialize_chatbot_wrapped w) as [[c|e] w'] eqn:Hrun; [|done].
  intros [= <- <-]. split; [done|]. intros _. simpl.
  by apply initialize_chatbot_wrapped_ok in Hrun as (_ & ? & _).
Qed.

(** The two stores only grow along the steps of the process. *)
Lemma process_step_keeps w w' chain :
  process_step w w' →
  (chatbot_cache w = Some chain → chatbot_cache w' = Some chain)
  ∧ (∀ p v, vectorstore_cache w !! p = Some v → vectorstore_cache w' !! p = Some v).
Proof.
  destruct 1 as [w|path w|w w' Hv Hc].
  - split.
    + intros Hc. by rewrite (proj1 (initialize_chatbot_stores w) chain Hc).
    + apply initialize_chatbot_stores.
  - destruct (load_or_create_vectorstore_stores path w) as (Hc & Hv & _).
    split; [by rewrite Hc|done].
  - by rewrite Hv, Hc.
Qed.

Lemma process_steps_keep w w' chain :
  rtc process_step w w' →
  (chatbot_cache w = Some chain → chatbot_cache w' = Some chain)
  ∧ (∀ p v, vectorstore_cache w !! p = Some v → vectorstore_cache w' !! p = Some v).
Proof.
  induction 1 as [w|w w1 w2 Hstep _ IH]; [done|].
  destruct (process_step_keeps w w1 chain Hstep) as [Hc Hv].
  destruct IH as [IHc IHv]. split; auto.
Qed.

(** C8.  After an initialization that succeeded, every later
    initialization request in the process returns the chain built then and
    leaves the process state as it is: the function body does not run, so
    nothing is validated, loaded, built or written again.  The vector
    store of that chain is likewise what [load_or_create_vectorstore]
    returns from then on. *)
Theorem initialize_chatbot_idempotent w w1 w2 chain :
  initialize_chatbot w = (Ok chain, w1) →
  rtc process_step w1 w2 →
  initialize_chatbot w2 = (Ok chain, w2)
  ∧ (chatbot_cache w = None →
     load_or_create_vectorstore pdf_path w2
     = (Ok (vectorstore (retriever chain)), w2)).
Proof.
  intros Hinit Hsteps.
  apply initialize_chatbot_ok in Hinit as [Hc Hv].
  destruct (process_steps_keep w1 w2 chain Hsteps) as [Hc' Hv'].
  split.
  - apply cache_resource_hit. by apply Hc'.
  - intros Hfirst. apply cache_resource_hit. by apply Hv', Hv.
Qed.

End idempotence.

(** ** Start-up without the credential *)

Section startup_abort.
Context `{EmbeddingSpace Vec}.
Implicit Types (w : World Vec).

(** C7.  When [OPENAI_API_KEY] is not set (to a non-empty value) in the
    environment that the validation reads, [validate_environment] raises
    a [ValueError] whose text names the variable, and the first run of the
    script stops at [st.stop()] with the session state as it was: no
    chain, not initialized.  When it is set, the validation raises
    nothing. *)
Theorem missing_credential_aborts_startup w :
  (¬ credential_present w →
     ∃ msg w',
       validate_environment w = (Raise (Exn "ValueError" msg), w')
       ∧ (∃ before after, msg = before ++ lit "OPENAI_API_KEY" ++ after)
       ∧ (chatbot_cache w = None →
          ∃ w1, initialize_chatbot w = (Raise (Exn "ValueError" msg), w1)
                ∧ chatbot_cache w1 = None)
       ∧ (chatbot_cache w = None →
          ∀ event s, chatbot_initialized s = None →
            ∃ w2, script event s w = (Ok (Stopped s), w2)))
  ∧ (credential_present w → ∃ w', validate_environment w = (Ok tt, w')).
Proof.
  unfold credential_present. split.
  - intros Hmiss%not_true_is_false.
    pose proof (validate_environment_missing w Hmiss) as Hval.
    eexists _, _. split; [exact Hval|]. split.
    { by exists (lit "Missing required environment variables: "),
        (lit ". " ++ lit "Please set them in your .env file or Streamlit secrets."). }
    assert (∀ (Hcache : chatbot_cache w = None),
      ∃ w1, initialize_chatbot w
            = (Raise (Exn "ValueError"
                 (lit "Missing required environment variables: " ++ lit "OPENAI_API_KEY"
                  ++ lit ". "
                  ++ lit "Please set them in your .env file or Streamlit secrets.")), w1)
            ∧ chatbot_cache w1 = None) as Hinit.
    { intros Hcache. unfold initialize_chatbot, cache_resource. rewrite Hcache.
      unfold initialize_chatbot_wrapped, try_except, mbind, M_bind.
      unfold bind at 1. rewrite Hval. simpl. eexists. split; [done|]. simpl.
      done. }
    split; [done|].
    intros Hcache event s Hs. destruct (Hinit Hcache) as (w1 & Hrun & _).
    unfold script, startup, mbind, M_bind. unfold bind at 1.
    rewrite Hs. unfold try_except. unfold bind at 1. rewrite Hrun. simpl.
    by eexists.
  - intros Hset. eexists. by apply validate_environment_present.
Qed.

End startup_abort.

(** ** Loading or rebuilding the index *)

Section index_fallback.
Context {Vec : Type}.
Implicit Types (w : World Vec).

Lemma embed_documents_length (f : str → result Vec) texts vs :
  embed_documents f texts = Ok vs → length vs = length texts.
Proof.
  revert vs. induction texts as [|t texts IH]; intros vs; simpl.
  { by intros [= <-]. }
  destruct (f t); [|done]. destruct (embed_documents f texts); [|done].
  intros [= <-]. simpl. f_equal. by apply IH.
Qed.

Lemma load_failure_runs_build path w :
  (faiss_index w = None →
     load_or_create_vectorstore_wrapped path w = build_vectorstore path w)
  ∧ (∀ e, is_Some (faiss_index w) → (load_attempt w).1 = Raise e →
     load_or_create_vectorstore_wrapped path w
     = build_vectorstore path (load_failure_notices e w).2).
Proof.
  unfold load_or_create_vectorstore_wrapped, index_path_exists, load_attempt.
  unfold mbind, M_bind. split.
  - intros Hnone. unfold bind at 1. simpl. rewrite Hnone. simpl.
    unfold bind at 1. done.
  - intros e [dir Hdir] Hraise.
    unfold load_failure_notices, new_embeddings, st_secrets, FAISS_load_local,
      try_except, mbind, M_bind, mret, M_ret, bind, lift, ret, gets in *.
    destruct w. simpl in *. subst. simpl.
    destruct (_ !! api_key_name) as [key|]; simpl in *.
    + destruct dir as [saved|e']; [done|]. injection Hraise as ->. reflexivity.
    + injection Hraise as <-. reflexivity.
Qed.

Lemma embed_documents_some (f : str → result Vec) texts vs :
  embed_documents f texts = Ok vs → texts ≠ [] → vs ≠ [].
Proof.
  intros Hlen%embed_documents_length Htexts ->. by destruct texts.
Qed.

Lemma build_vectorstore_returns path w pages embeddings vs :
  rebuild_possible path w pages embeddings vs →
  ∃ w',
    build_vectorstore path w
    = (Ok {| embedding_function := embeddings;
             entries := zip (chunks_of pages) vs |}, w')
    ∧ faiss_index w' = Some (Persisted (zip (chunks_of pages) vs)).
Proof.
  intros (Hpdf & Hchunks & (key & Hkey & ->) & Hembed & Hwrite).
  assert (vs ≠ []) as Hvs.
  { apply (embed_documents_some _ _ _ Hembed). by destruct (chunks_of pages). }
  unfold build_vectorstore, new_embeddings, st_secrets, PyPDFLoader_load,
    FAISS_from_documents, save_local, report_index_size,
    try_except, mbind, M_bind, mret, M_ret, bind, lift, ret, gets.
  simpl. rewrite Hpdf. simpl. rewrite Hkey. simpl.
  fold (chunks_of pages). rewrite Hembed. destruct vs as [|v0 vs]; [done|].
  simpl. rewrite Hwrite. simpl.
  destruct (index_size_mb w); simpl; eexists; split; reflexivity.
Qed.

Lemma build_vectorstore_ok_inv path w v w' :
  build_vectorstore path w = (Ok v, w') →
  ∃ pages vs, rebuild_possible path w pages (embedding_function v) vs
              ∧ entries v = zip (chunks_of pages) vs.
Proof.
  unfold build_vectorstore, new_embeddings, st_secrets, PyPDFLoader_load,
    FAISS_from_documents, save_local, report_index_size, rebuild_possible,
    try_except, mbind, M_bind, mret, M_ret, bind, lift, ret, gets.
  simpl.
  destruct (pdf_files w !! path) as [pages|] eqn:Hpdf; simpl; [|done].
  destruct (secrets w !! api_key_name) as [key|] eqn:Hkey; simpl; [|done].
  fold (chunks_of pages).
  destruct (embed_documents _ _) as [[|v0 vs]|] eqn:Hembed; simpl; [done| |done].
  destruct (index_write_failure w) as [[e dir]|] eqn:Hwrite; simpl; [done|].
  assert (chunks_of pages ≠ []) as Hchunks.
  { intros Hnone. rewrite Hnone in Hembed. done. }
  destruct (index_size_mb w); simpl; intros [= <- _]; exists pages, (v0 :: vs); simpl;
    eauto 10.
Qed.

Lemma load_failure_notices_same e w :
  same_but_for_messages w (load_failure_notices e w).2.
Proof. by repeat split. Qed.


Lemma same_but_for_messages_refl w : same_but_for_messages w w.
Proof. by repeat split. Qed.


Lemma rebuilt_entries pages (vs : list Vec) (f : str → result Vec) :
  embed_documents f (page_content <$> chunks_of pages) = Ok vs →
  (zip (chunks_of pages) vs).*1 = chunks_of pages.
Proof.
  intros Hlen%embed_documents_length. apply fst_zip.
  rewrite Hlen, length_fmap. done.
Qed.


End index_fallback.

(** ** Retrieval *)

Section retrieval_results.
Context `{EmbeddingSpace Vec}.
Implicit Types (c : Candidate (Vec:=Vec)) (remaining selected : list (Candidate (Vec:=Vec))).

Lemma best_elem_of score remaining c :
  best score remaining = Some c → c ∈ remaining.
Proof.
  revert c. induction remaining as [|c' rest IH]; intros c; simpl; [done|].
  destruct (best score rest) as [b|].
  - destruct (Qle_bool (score b) (score c')); intros [= <-].
    + left.
    + right. by apply IH.
  - intros [= <-]. left.
Qed.

Lemma mmr_select_length lambda query n remaining selected :
  length (mmr_select lambda query n remaining selected) ≤ length selected + n.
Proof.
  revert remaining selected. induction n as [|n IH]; intros remaining selected; simpl.
  { lia. }
  destruct (best _ remaining) as [c|]; [|lia].
  etrans; [apply IH|]. rewrite length_app. simpl. lia.
Qed.

Lemma mmr_select_elem_of lambda query n remaining selected c :
  c ∈ mmr_select lambda query n remaining selected → c ∈ selected ∨ c ∈ remaining.
Proof.
  revert remaining selected. induction n as [|n IH]; intros remaining selected; simpl.
  { auto. }
  destruct (best _ remaining) as [b|] eqn:Hbest; [|auto].
  intros [Hin|Hin]%IH.
  - apply elem_of_app in Hin as [?|Hc%list_elem_of_singleton]; [auto|].
    subst. right. by eapply best_elem_of.
  - right. by apply list_elem_of_filter in Hin as [_ ?].
Qed.

Lemma mmr_select_NoDup lambda query n remaining selected :
  NoDup (selected.*1 ++ remaining.*1) →
  NoDup (mmr_select lambda query n remaining selected).*1.
Proof.
  revert remaining selected. induction n as [|n IH]; intros remaining selected; simpl.
  { by intros [? _]%NoDup_app. }
  destruct (best _ remaining) as [b|] eqn:Hbest; [|by intros [? _]%NoDup_app].
  intros (Hsel & Hdisj & Hrem)%NoDup_app. apply IH.
  apply best_elem_of in Hbest.
  rewrite fmap_app. simpl. rewrite <- (assoc_L (++)). simpl.
  apply NoDup_app. split_and!; [done| |].
  - intros i Hi [->|Hin]%elem_of_cons.
    + apply (Hdisj b.1 Hi). by apply list_elem_of_fmap_2.
    + apply (Hdisj i Hi).
      apply list_elem_of_fmap in Hin as (r & -> & [_ Hr]%list_elem_of_filter).
      by apply list_elem_of_fmap_2.
  - apply NoDup_cons. split.
    + intros (r & Heq & [Hne _]%list_elem_of_filter)%list_elem_of_fmap. by destruct Hne.
    + clear -Hrem. induction remaining as [|r rest IH]; [constructor|].
      rewrite fmap_cons in Hrem. apply NoDup_cons in Hrem as [Hr Hrest].
      rewrite filter_cons. destruct (decide _); [|by apply IH].
      rewrite fmap_cons. apply NoDup_cons. split; [|by apply IH].
      intros (r' & Heq & [_ Hin]%list_elem_of_filter)%list_elem_of_fmap.
      apply Hr. rewrite Heq. by apply list_elem_of_fmap_2.
Qed.

Lemma imap_positions {A} (l : list A) :
  (imap (λ i e, (i, e)) l).*1 = seq 0 (length l).
Proof.
  rewrite fmap_imap. rewrite (imap_ext _ (λ i _, i)) by done.
  by rewrite imap_seq_0, list_fmap_id.
Qed.

Lemma candidate_pool_NoDup fetch_k query (index : list (Document * Vec)) :
  NoDup (candidate_pool fetch_k query index).*1.
Proof.
  unfold candidate_pool. rewrite fmap_take.
  eapply sublist_NoDup; [|apply sublist_take].
  rewrite merge_sort_Permutation, imap_positions. apply NoDup_seq.
Qed.

Lemma candidate_pool_lookup fetch_k query (index : list (Document * Vec)) i e :
  (i, e) ∈ candidate_pool fetch_k query index → index !! i = Some e.
Proof.
  unfold candidate_pool. intros Hin%subseteq_take.
  rewrite merge_sort_Permutation in Hin.
  by apply elem_of_lookup_imap in Hin as (i' & e' & [= -> ->] & ?).
Qed.

Lemma candidate_pool_length fetch_k query (index : list (Document * Vec)) :
  length (candidate_pool fetch_k query index) ≤ fetch_k.
Proof. unfold candidate_pool. rewrite length_take. lia. Qed.

(** What the search of a retriever returns: no more than [k] entries
    of the index, at pairwise different positions. *)
Lemma mmr_search_distinct (r : Retriever Vec) (query : Vec) :
  length (mmr_search r query) ≤ k r
  ∧ NoDup (mmr_search r query).*1
  ∧ ∀ i e, (i, e) ∈ mmr_search r query → entries (vectorstore r) !! i = Some e.
Proof.
  unfold mmr_search. split_and!.
  - etrans; [apply mmr_select_length|]. simpl. lia.
  - apply mmr_select_NoDup. simpl. apply candidate_pool_NoDup.
  - intros i e [Hin|Hin]%mmr_select_elem_of; [by apply elem_of_nil in Hin|].
    by eapply candidate_pool_lookup.
Qed.

(** Chunks at different positions of an index without repeated chunks
    are different chunks. *)
Lemma distinct_positions_distinct_chunks (index : list (Document * Vec))
    (found : list (Candidate (Vec:=Vec))) :
  NoDup index.*1 → NoDup found.*1 →
  (∀ i e, (i, e) ∈ found → index !! i = Some e) →
  NoDup ((λ c : Candidate, c.2.1) <$> found).
Proof.
  intros Hindex Hfound Hlookup.
  induction found as [|[i e] found IH]; [constructor|].
  csimpl in *. apply NoDup_cons in Hfound as [Hi Hfound].
  apply NoDup_cons. split.
  - intros ([j e'] & Heq & Hin)%list_elem_of_fmap. simpl in *.
    apply Hi. apply list_elem_of_fmap. exists (j, e'). split; [|done]. simpl.
    assert (index !! i = Some e) as Hie by (apply Hlookup; left).
    assert (index !! j = Some e') as Hje by (apply Hlookup; by right).
    eapply (NoDup_lookup index.*1); [done| |].
    + by rewrite list_lookup_fmap, Hie.
    + by rewrite list_lookup_fmap, Hje, Heq.
  - apply IH; [done|]. intros j e' Hin. apply Hlookup. by right.
Qed.

(** C4.  The retriever that [create_qa_chain] configures searches by
    maximal marginal relevance with [k = 6], [fetch_k = 12] and
    [lambda_mult = 0.7]; whatever the question and the index, what it
    retrieves is at most six chunks, taken from pairwise different
    positions of the index (so no chunk of the index is returned twice,
    and the chunks differ whenever the chunks of the index do). *)
Theorem retriever_returns_at_most_six_distinct_chunks
    (store : VectorStore Vec) (w w' : World Vec) (chain : RetrievalChain Vec) :
  create_qa_chain store w = (Ok chain, w') →
  let r := retriever chain in
  (search_type r = "mmr"%string ∧ k r = 6 ∧ fetch_k r = 12
   ∧ lambda_mult r = 0.7%Q ∧ vectorstore r = store)
  ∧ ∀ question w1 docs w2,
      retrieve r question w1 = (Ok docs, w2) →
      length docs ≤ 6
      ∧ (∃ positions,
           NoDup positions
           ∧ Forall2 (λ i doc, ∃ vec, entries store !! i = Some (doc, vec))
                     positions docs)
      ∧ (NoDup (entries store).*1 → NoDup docs).
Proof.
  intros Hcreate r.
  assert (search_type r = "mmr"%string ∧ k r = 6 ∧ fetch_k r = 12
          ∧ lambda_mult r = 0.7%Q ∧ vectorstore r = store) as Hconfig.
  { subst r. unfold create_qa_chain, mbind, M_bind in Hcreate.
    apply bind_ok_inv in Hcreate as (key & w0 & _ & [= <- _]). done. }
  split; [done|]. destruct Hconfig as (_ & Hk & _ & _ & Hstore).
  intros question w1 docs w2 Hretrieve.
  unfold retrieve, mbind, M_bind in Hretrieve.
  apply bind_ok_inv in Hretrieve as (query & w0 & _ & [= <- _]).
  destruct (mmr_search_distinct r query) as (Hlen & Hnodup & Hlookup).
  rewrite Hk, Hstore in *. split_and!.
  - by rewrite length_fmap.
  - exists (mmr_search r query).*1. split; [done|].
    apply Forall2_fmap. apply Forall_Forall2_diag, Forall_forall.
    intros [i [doc vec]] Hin. exists vec. by apply Hlookup.
  - intros Hindex. by apply (distinct_positions_distinct_chunks (entries store)).
Qed.

End retrieval_results.

(** ** Chunking *)

Section chunking_bounds.
Variable splitter : RecursiveCharacterTextSplitter.
Abbreviation size := (chunk_size splitter).
Abbreviation within := (λ piece : str, length piece ≤ chunk_size splitter).

Lemma total_app window piece :
  total (window ++ [piece]) = total window + length piece.
Proof. unfold total. rewrite concat_app, length_app. simpl. by rewrite app_nil_r. Qed.

(** The pieces of a text put together give the text back. *)
Lemma split_after_concat sep cur text :
  concat (split_after sep cur text) = cur ++ text.
Proof.
  revert cur. induction text as [|c text IH]; intros cur; simpl.
  { destruct cur; simpl; by rewrite ?app_nil_r. }
  destruct (decide _); simpl; rewrite IH; by rewrite <- ?(assoc_L (++)).
Qed.

(** Cutting at the empty separator gives the single characters. *)
Lemma split_after_characters text :
  split_after [] [] text = (λ c, [c]) <$> text.
Proof.
  induction text as [|c text IH]; simpl; [done|].
  f_equal. exact IH.
Qed.

Lemma keep_overlap_fits window next :
  keep_overlap splitter window next = []
  ∨ total (keep_overlap splitter window next) + next ≤ size.
Proof.
  induction window as [|p window IH]; simpl; [by left|].
  destruct (decide _) as [Hdrop|Hkeep]; [done|]. right.
  assert (¬ size < total (p :: window) + next) by tauto. lia.
Qed.

Lemma keep_overlap_suffix window next :
  keep_overlap splitter window next `suffix_of` window.
Proof.
  induction window as [|p window IH]; simpl; [done|].
  destruct (decide _); [by apply suffix_cons_r|done].
Qed.

(** Packing pieces that are within the budget gives chunks within the
    budget. *)
Lemma merge_splits_within window pieces :
  total window ≤ size → Forall within pieces →
  Forall within (merge_splits splitter window pieces).
Proof.
  intros Hwindow Hpieces. revert window Hwindow.
  induction Hpieces as [|p pieces Hp _ IH]; intros window Hwindow; simpl.
  { destruct window; constructor; done. }
  destruct (decide _) as [Hfit|Hover].
  { apply IH. by rewrite total_app. }
  destruct window as [|p0 window].
  { apply IH. unfold total. simpl. by rewrite app_nil_r. }
  constructor; [done|]. apply IH. rewrite total_app.
  destruct (keep_overlap_fits (p0 :: window) (length p)) as [->|Hfit]; [|done].
  by unfold total.
Qed.

Lemma split_pieces_within lower pieces good :
  (∀ text, Forall within (lower text)) → Forall within good →
  Forall within (split_pieces splitter lower pieces good).
Proof.
  intros Hlower. revert good.
  induction pieces as [|p pieces IH]; intros good Hgood; simpl.
  { apply merge_splits_within; [unfold total; simpl; lia|done]. }
  destruct (decide _) as [Hp|Hp].
  { apply IH. apply Forall_app. split; [done|]. by constructor. }
  rewrite !Forall_app. split_and!.
  - apply merge_splits_within; [unfold total; simpl; lia|done].
  - apply Hlower.
  - apply IH. constructor.
Qed.

Lemma split_text_with_within seps text :
  1 ≤ size → Forall within (split_text_with splitter seps text).
Proof.
  intros Hsize. revert text. induction seps as [|sep lower IH]; intros text; simpl.
  - apply merge_splits_within; [unfold total; simpl; lia|].
    rewrite split_after_characters. apply Forall_fmap, Forall_true. simpl. lia.
  - apply split_pieces_within; [done|constructor].
Qed.

(** While the pieces cut at a separator are within the budget, the
    separators of lower priority are not looked at. *)
Lemma split_pieces_prefers lower pieces good :
  Forall within pieces →
  split_pieces splitter lower pieces good = merge_splits splitter [] (good ++ pieces).
Proof.
  intros Hpieces. revert good.
  induction Hpieces as [|p pieces Hp _ IH]; intros good; simpl.
  { by rewrite app_nil_r. }
  rewrite decide_True by done. rewrite IH. by rewrite <- (assoc_L (++)).
Qed.

Lemma split_documents_within docs :
  1 ≤ size →
  Forall (λ chunk, length (page_content chunk) ≤ size) (split_documents splitter docs).
Proof.
  intros Hsize. unfold split_documents. apply Forall_bind, Forall_true. intros doc.
  apply Forall_fmap. simpl. by apply split_text_with_within.
Qed.

(** A text in which the separator does not occur is one piece. *)
Lemma split_after_absent sep cur text :
  ¬ occurs_in sep (cur ++ text) → cur ++ text ≠ [] →
  split_after sep cur text = [cur ++ text].
Proof.
  revert cur. induction text as [|c text IH]; intros cur Habsent Hne; simpl.
  { rewrite app_nil_r in *. by destruct cur. }
  destruct (decide _) as [[l1 Hsuffix]|_].
  { destruct Habsent. exists l1, text.
    rewrite (assoc_L (++)), <- Hsuffix, <- (assoc_L (++)). done. }
  rewrite IH; rewrite <- (assoc_L (++)); simpl; [done|done|].
  by destruct cur.
Qed.

(** Packing single characters: the chunk that is open is filled up to
    the maximum before it is closed. *)
Lemma merge_splits_characters window (text : str) :
  1 ≤ size → total window ≤ size → size < total window + length text →
  ∃ rest, merge_splits splitter window ((λ c, [c]) <$> text)
          = (concat window ++ take (size - total window) text) :: rest.
Proof.
  intros Hsize. revert window.
  induction text as [|c text IH]; intros window Hwindow Hlong; csimpl in *.
  { lia. }
  destruct (decide _) as [Hfit|Hfull].
  - destruct (IH (window ++ [[c]])) as [rest ->].
    { rewrite total_app. simpl. lia. }
    { rewrite total_app. simpl. lia. }
    exists rest. f_equal. rewrite total_app, concat_app. simpl.
    rewrite <- (assoc_L (++)). f_equal.
    replace (size - total window) with (S (size - (total window + 1))) by lia.
    done.
  - destruct window as [|p window].
    { unfold total in *. simpl in *. lia. }
    eexists. f_equal.
    replace (size - total (p :: window)) with 0 by lia.
    by rewrite take_0, app_nil_r.
Qed.

(** An unbroken span over the maximum is cut at the maximum length. *)
Lemma split_text_with_unbroken seps (text : str) :
  1 ≤ size → size < length text →
  Forall (λ sep, sep = [] ∨ ¬ occurs_in sep text) seps →
  ∃ rest, split_text_with splitter seps text = take size text :: rest.
Proof.
  intros Hsize Hlong Hseps.
  assert (∃ rest, merge_splits splitter [] ((λ c, [c]) <$> text)
                  = take size text :: rest) as Hpacked.
  { destruct (merge_splits_characters [] text) as [rest Hrest];
      [done|unfold total; simpl; lia|unfold total; simpl; lia|].
    exists rest. rewrite Hrest. unfold total. simpl. by rewrite Nat.sub_0_r. }
  induction Hseps as [|sep lower Hsep _ IH]; simpl.
  { by rewrite split_after_characters. }
  destruct Hsep as [->|Habsent].
  - rewrite split_after_characters, split_pieces_prefers; [done|].
    apply Forall_fmap, Forall_true. simpl. lia.
  - rewrite split_after_absent; [|done|by destruct text; simpl in *; [lia|]].
    simpl. rewrite decide_False by lia. simpl.
    destruct IH as [rest ->]. rewrite app_nil_r. by eexists.
Qed.

End chunking_bounds.

(** ** Chunking: where the chunks are cut *)

Section chunking_cuts.
Variable splitter : RecursiveCharacterTextSplitter.
Abbreviation size := (chunk_size splitter).
Abbreviation within := (λ piece : str, length piece ≤ chunk_size splitter).
Abbreviation chunk_of := (λ part : str * str, part.1 ++ part.2).

(** Every chunk that the packing gives is a run of consecutive pieces. *)
Lemma merge_splits_runs (pre window pieces : list str) (chunk : str) :
  chunk ∈ merge_splits splitter window pieces →
  ∃ before run after,
    pre ++ window ++ pieces = before ++ run ++ after ∧ run ≠ [] ∧ chunk = concat run.
Proof.
  revert pre window. induction pieces as [|p rest IH]; intros pre window; simpl.
  { destruct window as [|p0 window]; [by intros ?%elem_of_nil|].
    intros ->%list_elem_of_singleton. by exists pre, (p0 :: window), []. }
  destruct (decide _) as [Hfit|Hover].
  { intros (before & run & after & Hall & Hrun)%(IH pre).
    exists before, run, after. split; [|done].
    rewrite <- Hall, <- !(assoc_L (++)). done. }
  destruct window as [|p0 window].
  { intros (before & run & after & Hall & Hrun)%(IH pre).
    by exists before, run, after. }
  intros [->|Hin]%elem_of_cons.
  { by exists pre, (p0 :: window), (p :: rest). }
  destruct (keep_overlap_suffix splitter (p0 :: window) (length p)) as [dropped Hkept].
  revert Hin Hkept. generalize (keep_overlap splitter (p0 :: window) (length p)).
  intros kept Hin Hkept.
  destruct (IH (pre ++ dropped) _ Hin) as (before & run & after & Hall & Hrun).
  exists before, run, after. split; [|done].
  rewrite <- Hall, Hkept, <- !(assoc_L (++)). done.
Qed.

(** A chunk of the pieces cut at one separator is a run of these pieces,
    or it comes from a piece over the budget. *)
Lemma split_pieces_cut lower (pre good pieces : list str) (chunk : str) :
  chunk ∈ split_pieces splitter lower pieces good →
  (∃ before run after,
     pre ++ good ++ pieces = before ++ run ++ after ∧ run ≠ [] ∧ chunk = concat run)
  ∨ (∃ piece, piece ∈ pieces ∧ size < length piece ∧ chunk ∈ lower piece).
Proof.
  revert pre good. induction pieces as [|p ps IH]; intros pre good; simpl.
  { intros Hin%(merge_splits_runs pre). left. by rewrite app_nil_r. }
  destruct (decide _) as [Hp|Hp].
  { intros [(before & run & after & Hall & Hrun)|(piece & Hin & Hlong)]%(IH pre).
    - left. exists before, run, after. split; [|done].
      rewrite <- Hall, <- !(assoc_L (++)). done.
    - right. exists piece. split; [by right|done]. }
  rewrite !elem_of_app. intros [Hin|[Hin|Hin]].
  - left. apply (merge_splits_runs pre) in Hin as (before & run & after & Hall & Hrun).
    exists before, run, (after ++ p :: ps). split; [|done].
    simpl in Hall. rewrite (assoc_L (++) pre), Hall, <- !(assoc_L (++)). done.
  - right. exists p. split; [by left|]. split; [lia|done].
  - destruct (IH (pre ++ good ++ [p]) [] Hin)
      as [(before & run & after & Hall & Hrun)|(piece & Hin' & Hlong)].
    + left. exists before, run, after. split; [|done].
      rewrite <- Hall, <- !(assoc_L (++)). done.
    + right. exists piece. split; [by right|done].
Qed.

(** The chunks of a text are cut by priority. *)
Lemma split_text_with_cut (seps : list str) (text chunk : str) :
  chunk ∈ split_text_with splitter seps text →
  cut_by_priority splitter seps text chunk.
Proof.
  revert text chunk. induction seps as [|sep lower IH]; intros text chunk; simpl.
  - intros (before & run & after & Hall & _ & ->)%(merge_splits_runs []).
    apply (cut_between_characters _ _ (concat before) _ (concat after)).
    pose proof (split_after_concat [] [] text) as Hconcat.
    simpl in Hall, Hconcat. rewrite Hall, !concat_app in Hconcat. by symmetry.
  - intros [(before & run & after & Hall & Hrun & ->)|(piece & Hin & Hlong & Hchunk)]
      %(split_pieces_cut _ []).
    + by apply (cut_at_separator _ _ _ _ before run after).
    + apply (cut_within_piece _ _ _ _ piece); [done|done|by apply IH].
Qed.

(** The pieces cut at a separator are not empty, and each of them but
    the last ends with the separator. *)
Lemma split_after_nonempty sep cur (text : str) :
  Forall (λ piece, piece ≠ []) (split_after sep cur text).
Proof.
  revert cur. induction text as [|c text IH]; intros cur; simpl.
  { destruct cur; repeat constructor; done. }
  destruct (decide _); [constructor|]; [by destruct cur|apply IH..].
Qed.

Lemma split_after_ends sep cur (text : str) before piece after :
  split_after sep cur text = before ++ piece :: after →
  after ≠ [] → sep `suffix_of` piece.
Proof.
  revert cur before. induction text as [|c text IH]; intros cur before; simpl.
  { intros Heq Hafter. destruct cur; destruct before as [|? [|? ?]]; by simplify_eq/=. }
  destruct (decide _) as [Hsuffix|_]; [|apply IH].
  destruct before as [|p0 before]; simpl.
  - by intros [= <- _] _.
  - intros [= _ Hrest]. exact (IH _ _ Hrest).
Qed.

Lemma keep_overlap_short window next :
  total (keep_overlap splitter window next) ≤ chunk_overlap splitter.
Proof.
  induction window as [|p window IH]; simpl; [unfold total; simpl; lia|].
  destruct (decide _) as [Hdrop|Hkeep]; [done|].
  assert (¬ chunk_overlap splitter < total (p :: window)) by tauto. lia.
Qed.

Lemma suffix_concat (l1 l2 : list str) :
  l1 `suffix_of` l2 → concat l1 `suffix_of` concat l2.
Proof. intros [k ->]. exists (concat k). by rewrite concat_app. Qed.

Lemma overlapping_any (previous : str) parts :
  overlapping splitter [] parts → overlapping splitter previous parts.
Proof.
  destruct parts as [|part rest]; simpl; [done|].
  intros (Hnone%suffix_nil_inv & ? & ? & ?). rewrite Hnone in *.
  split_and!; [apply suffix_nil|done..].
Qed.

Lemma overlapping_app (previous : str) parts1 parts2 :
  overlapping splitter previous parts1 → overlapping splitter [] parts2 →
  overlapping splitter previous (parts1 ++ parts2).
Proof.
  revert previous. induction parts1 as [|part rest IH]; intros previous; simpl.
  { intros _. apply overlapping_any. }
  intros (? & ? & ? & ?) ?. split_and!; [done..|by apply IH].
Qed.

Lemma concat_nonempty (l : list str) :
  l ≠ [] → Forall (λ piece, piece ≠ []) l → concat l ≠ [].
Proof.
  destruct l as [|p l]; [done|]. intros _ [Hp _]%Forall_cons. simpl.
  by destruct p.
Qed.

(** The chunks that the packing gives overlap as configured and leave
    nothing out. *)
Lemma merge_splits_parts (pieces kept fresh : list str) (previous : str) :
  Forall (λ piece, piece ≠ []) pieces → Forall (λ piece, piece ≠ []) fresh →
  fresh ≠ [] →
  concat kept `suffix_of` previous → total kept ≤ chunk_overlap splitter →
  ∃ parts,
    merge_splits splitter (kept ++ fresh) pieces = chunk_of <$> parts
    ∧ concat parts.*2 = concat fresh ++ concat pieces
    ∧ overlapping splitter previous parts.
Proof.
  intros Hpieces. revert kept fresh previous.
  induction Hpieces as [|p rest Hp _ IH]; intros kept fresh previous Hfresh Hne Hkept Hshort.
  - exists [(concat kept, concat fresh)]. simpl.
    destruct (kept ++ fresh) as [|p0 window] eqn:Hwindow.
    { apply app_eq_nil in Hwindow as [_ ->]. done. }
    rewrite <- Hwindow, concat_app, !app_nil_r. split; [done|]. split; [done|].
    cbn [overlapping fst snd]. split_and!; try done. by apply concat_nonempty.
  - simpl. destruct (decide _) as [Hfit|Hover].
    + destruct (IH kept (fresh ++ [p]) previous) as (parts & Hparts & Hall & Hover);
        [by apply Forall_app; split; [|constructor]|by destruct fresh|done|done|].
      exists parts. rewrite <- (assoc_L (++) kept fresh [p]). split_and!; [done| |done].
      rewrite Hall, concat_app. simpl. by rewrite app_nil_r, <- (assoc_L (++)).
    + destruct (kept ++ fresh) as [|p0 window] eqn:Hwindow.
      { apply app_eq_nil in Hwindow as [_ ->]. done. }
      rewrite <- Hwindow.
      destruct (IH (keep_overlap splitter (kept ++ fresh) (length p)) [p]
                  (concat kept ++ concat fresh))
        as (parts & Hparts & Hall & Hoverlap).
      * by repeat constructor.
      * done.
      * rewrite <- concat_app. apply suffix_concat, keep_overlap_suffix.
      * apply keep_overlap_short.
      * exists ((concat kept, concat fresh) :: parts).
        rewrite !fmap_cons, Hparts. cbn [fst snd concat].
        rewrite Hall, concat_app. cbn [concat]. rewrite app_nil_r.
        split; [done|]. split; [done|]. cbn [overlapping fst snd].
        split_and!; try done. by apply concat_nonempty.
Qed.

Lemma merge_splits_start (pieces : list str) :
  Forall (λ piece, piece ≠ []) pieces →
  ∃ parts,
    merge_splits splitter [] pieces = chunk_of <$> parts
    ∧ concat parts.*2 = concat pieces
    ∧ overlapping splitter [] parts.
Proof.
  destruct pieces as [|p rest]; [by exists []|].
  intros [Hp Hrest]%Forall_cons.
  destruct (merge_splits_parts rest [] [p] []) as (parts & Hparts & Hall & Hoverlap);
    [done|by repeat constructor|done|done|unfold total; simpl; lia|].
  exists parts. split_and!; [|by rewrite Hall; simpl; rewrite app_nil_r|done].
  simpl in *. by destruct (decide _).
Qed.

Lemma split_pieces_parts lower (pieces good : list str) :
  (∀ text, ∃ parts, lower text = chunk_of <$> parts
                    ∧ concat parts.*2 = text ∧ overlapping splitter [] parts) →
  Forall (λ piece, piece ≠ []) pieces → Forall (λ piece, piece ≠ []) good →
  ∃ parts,
    split_pieces splitter lower pieces good = chunk_of <$> parts
    ∧ concat parts.*2 = concat good ++ concat pieces
    ∧ overlapping splitter [] parts.
Proof.
  intros Hlower Hpieces. revert good.
  induction Hpieces as [|p ps Hp _ IH]; intros good Hgood; simpl.
  { rewrite app_nil_r. by apply merge_splits_start. }
  destruct (decide _) as [Hfit|Hover].
  - destruct (IH (good ++ [p])) as (parts & Hparts & Hall & Hoverlap).
    { apply Forall_app. split; [done|by constructor]. }
    exists parts. split_and!; [done| |done].
    rewrite Hall, concat_app. simpl. by rewrite app_nil_r, <- (assoc_L (++)).
  - destruct (merge_splits_start good Hgood) as (parts1 & -> & Hall1 & Hoverlap1).
    destruct (Hlower p) as (parts2 & -> & Hall2 & Hoverlap2).
    destruct (IH []) as (parts3 & -> & Hall3 & Hoverlap3); [constructor|].
    exists (parts1 ++ parts2 ++ parts3). split_and!.
    + by rewrite !fmap_app.
    + rewrite !fmap_app, !concat_app, Hall1, Hall2, Hall3. done.
    + apply overlapping_app; [done|]. by apply overlapping_app.
Qed.

Lemma split_text_with_parts (seps : list str) (text : str) :
  ∃ parts,
    split_text_with splitter seps text = chunk_of <$> parts
    ∧ concat parts.*2 = text
    ∧ overlapping splitter [] parts.
Proof.
  revert text. induction seps as [|sep lower IH]; intros text; simpl.
  - destruct (merge_splits_start (split_after [] [] text))
      as (parts & Hparts & Hall & Hoverlap); [apply split_after_nonempty|].
    exists parts. by rewrite Hall, split_after_concat.
  - destruct (split_pieces_parts (split_text_with splitter lower)
                (split_after sep [] text) [])
      as (parts & Hparts & Hall & Hoverlap);
      [done|apply split_after_nonempty|constructor|].
    exists parts. by rewrite Hall, split_after_concat.
Qed.

(** A text within the budget is not cut at all. *)
Lemma merge_splits_fits (window pieces : list str) :
  total window + length (concat pieces) ≤ size → window ++ pieces ≠ [] →
  merge_splits splitter window pieces = [concat window ++ concat pieces].
Proof.
  revert window. induction pieces as [|p rest IH]; intros window; simpl.
  { rewrite !app_nil_r. by destruct window. }
  rewrite length_app. intros Hfit _. rewrite decide_True by lia.
  rewrite IH.
  - by rewrite concat_app, <- (assoc_L (++)); simpl; rewrite app_nil_r.
  - rewrite total_app. lia.
  - by destruct window.
Qed.

Lemma length_piece (pieces : list str) (piece : str) :
  piece ∈ pieces → length piece ≤ length (concat pieces).
Proof.
  intros (l1 & l2 & ->)%list_elem_of_split.
  rewrite concat_app, length_app. simpl. rewrite length_app. lia.
Qed.

Lemma split_text_with_short (seps : list str) (text : str) :
  text ≠ [] → length text ≤ size → split_text_with splitter seps text = [text].
Proof.
  intros Hne Hshort.
  assert (∀ sep, merge_splits splitter [] (split_after sep [] text) = [text]) as Hone.
  { intros sep. rewrite merge_splits_fits.
    - by rewrite split_after_concat.
    - rewrite split_after_concat. unfold total. simpl. lia.
    - simpl. intros Hnone. pose proof (split_after_concat sep [] text) as Hall.
      rewrite Hnone in Hall. done. }
  destruct seps as [|sep lower]; simpl; [apply Hone|].
  rewrite split_pieces_prefers; [apply Hone|].
  apply Forall_forall. intros piece Hin%length_piece.
  rewrite split_after_concat in Hin. simpl in Hin. lia.
Qed.

Lemma elem_of_split_documents (docs : list Document) (chunk : Document) :
  chunk ∈ split_documents splitter docs
  ↔ ∃ page t, page ∈ docs ∧ t ∈ split_text splitter (page_content page)
              ∧ chunk = {| page_content := t; metadata := metadata page |}.
Proof.
  unfold split_documents. rewrite list_elem_of_bind. split.
  - intros (page & (t & -> & Ht)%list_elem_of_fmap & Hpage). by exists page, t.
  - intros (page & t & Hpage & Ht & ->). exists page. split; [|done].
    apply list_elem_of_fmap. by exists t.
Qed.

End chunking_cuts.

(** C5.  The splitter of [build_vectorstore] has maximum 1000 and
    overlap 200, and its separators are, in this order, the paragraph
    break, the line break, the sentence ends, the clause end, the blank
    and the cut between any two characters.  The chunks of a sequence of
    pages are the chunks of the texts of the pages, with the metadata of
    the page, and none is longer than 1000.  Every chunk of a text is cut
    by priority: it is made of whole pieces of the text cut at the first
    separator, or it lies within such a piece that is longer than 1000
    and is cut out of it in the same way with the separators that follow;
    so when no paragraph is over the maximum, every chunk is made of
    whole paragraphs.  The pieces cut at a separator make up the text and
    each but the last ends with the separator.  The chunks leave nothing
    out: each repeats at most 200 characters from the end of the chunk
    before it, and what is new in them, put together, is the text.  A
    text of one to 1000 characters is one chunk, and a span over the
    maximum in which no separator occurs is cut at the maximum length,
    its first 1000 characters being the first chunk. *)
Theorem chunks_within_maximum_boundaries_by_priority :
  (chunk_size text_splitter = 1000 ∧ chunk_overlap text_splitter = 200)
  ∧ (boundary_of <$> separators text_splitter
     = Some <$> [paragraph_break; line_break; sentence_end; sentence_end;
                 sentence_end; clause_end; whitespace; any_character]
     ∧ Sorted le (priority <$> omap boundary_of (separators text_splitter)))
  ∧ (∀ pages chunk,
       chunk ∈ split_documents text_splitter pages
       ↔ ∃ page t, page ∈ pages
                   ∧ t ∈ split_text text_splitter (page_content page)
                   ∧ chunk = {| page_content := t; metadata := metadata page |})
  ∧ (∀ pages,
       Forall (λ chunk, length (page_content chunk) ≤ 1000)
              (split_documents text_splitter pages))
  ∧ (∀ text chunk,
       chunk ∈ split_text text_splitter text →
       length chunk ≤ 1000
       ∧ cut_by_priority text_splitter (separators text_splitter) text chunk)
  ∧ (∀ text chunk,
       Forall (λ piece, length piece ≤ 1000) (split_after [10; 10]%N [] text) →
       chunk ∈ split_text text_splitter text →
       ∃ before window after,
         split_after [10; 10]%N [] text = before ++ window ++ after
         ∧ window ≠ [] ∧ chunk = concat window)
  ∧ (∀ sep text,
       concat (split_after sep [] text) = text
       ∧ Forall (λ piece, piece ≠ []) (split_after sep [] text)
       ∧ ∀ before piece after,
           split_after sep [] text = before ++ piece :: after →
           after ≠ [] → sep `suffix_of` piece)
  ∧ (∀ text,
       ∃ parts : list (str * str),
         split_text text_splitter text = (λ part, part.1 ++ part.2) <$> parts
         ∧ concat parts.*2 = text
         ∧ overlapping text_splitter [] parts)
  ∧ (∀ text,
       text ≠ [] → length text ≤ 1000 → split_text text_splitter text = [text])
  ∧ (∀ text,
       1000 < length text →
       Forall (λ sep, sep = [] ∨ ¬ occurs_in sep text) (separators text_splitter) →
       ∃ rest, split_text text_splitter text = take 1000 text :: rest).
Proof.
  assert (∀ text chunk,
            chunk ∈ split_text text_splitter text →
            length chunk ≤ 1000
            ∧ cut_by_priority text_splitter (separators text_splitter) text chunk)
    as Hcut.
  { intros text chunk Hin. split; [|by apply split_text_with_cut].
    pose proof (split_text_with_within text_splitter (separators text_splitter) text)
      as Hwithin.
    rewrite Forall_forall in Hwithin. apply Hwithin; [simpl; lia|done]. }
  split; [done|]. split.
  { split; [by vm_compute|]. vm_compute. repeat constructor. }
  split; [apply elem_of_split_documents|]. split.
  { intros pages. apply (split_documents_within text_splitter). simpl. lia. }
  split; [exact Hcut|]. split.
  { intros text chunk Hpieces [_ Hchunk]%Hcut. simpl in Hchunk.
    inversion Hchunk as [sep lower text' before window after Hsplit Hwindow
                        |sep lower text' piece chunk' Hpiece Hlong _|]; subst.
    - by exists before, window, after.
    - rewrite Forall_forall in Hpieces. apply Hpieces in Hpiece. simpl in Hlong. lia. }
  split.
  { intros sep text. split; [apply (split_after_concat sep [] text)|].
    split; [apply split_after_nonempty|]. apply split_after_ends. }
  split; [intros text; apply split_text_with_parts|]. split.
  { intros text Hne Hshort. by apply split_text_with_short. }
  intros text Hlong Hseps.
  apply (split_text_with_unbroken text_splitter); [simpl; lia|done|done].
Qed.

(** ** From the retrieved chunks to the citation line *)

Section citation_pipeline.
Context {Vec : Type} `{!Runnable (Vec:=Vec) C}.

(** What is shown for a result, by its sources and the pages listed for
    them. *)
Lemma response_text_shown (r : Response) (listed : list str) :
  listed = unique_sources (sources r) →
  response_text r
  = answer r
    ++ match sources r, listed with
       | [], _ => []
       | _ :: _, [] => nl ++ nl ++ lit "**Sources:** Page numbers not available"
       | _ :: _, [p] => nl ++ nl ++ lit "**Source:** Page " ++ p
       | _ :: _, _ =>
           nl ++ nl ++ lit "**Sources:** Pages " ++ join (lit ", ") (take 5 listed)
           ++ (if decide (length listed ≤ 5) then []
               else lit " and " ++ lit (pretty (length listed - 5)) ++ lit " more")
       end.
Proof.
  intros ->. unfold response_text. destruct (sources r) as [|s rest] eqn:Hsources.
  { by rewrite app_nil_r. }
  do 3 f_equal.
  destruct (unique_sources (s :: rest)) as [|p listed] eqn:Hlisted.
  { unfold format_sources. by rewrite Hlisted. }
  rewrite format_sources_line by by rewrite Hlisted.
  rewrite Hlisted. by destruct listed.
Qed.

(** C1, as amended.  [get_response] collects the page numbers of the
    retrieved chunks, leaving out the chunks that have none, and keeps the
    first occurrence of each, in retrieval order.  What is shown does not
    keep that order: with the string forms of these pages (an ["unknown"]
    entry left out), each once, in ascending order of the strings, the
    text shown is the answer alone when there is no source, and otherwise
    the answer, a blank line and the citation line: the line that names
    the one page, or the line that lists the pages in that ascending
    order, all of them up to five and the first five with the number of
    the others beyond that, or, when no page string is left, the "page
    numbers not available" line. *)
Theorem citations_collected_in_order_shown_sorted (qa_chain : C) (question : str)
    (w w' : World Vec) (out : ChainOutput) :
  invoke qa_chain (strip question) w = (Ok out, w') →
  ∃ r (listed : list str),
    get_response qa_chain question w = (Ok r, w')
    ∧ sources r = first_occurrences (pages_of (default [] (out_context out)))
    ∧ StronglySorted str_lt listed
    ∧ (∀ p, p ∈ listed ↔ ∃ s, s ∈ sources r ∧ s ≠ unknown ∧ p = str_of s)
    ∧ response_text r
      = answer r
        ++ match sources r, listed with
           | [], _ => []
           | _ :: _, [] => nl ++ nl ++ lit "**Sources:** Page numbers not available"
           | _ :: _, [p] => nl ++ nl ++ lit "**Source:** Page " ++ p
           | _ :: _, _ =>
               nl ++ nl ++ lit "**Sources:** Pages "
               ++ join (lit ", ") (take 5 listed)
               ++ (if decide (length listed ≤ 5) then []
                   else lit " and " ++ lit (pretty (length listed - 5)) ++ lit " more")
           end.
Proof.
  intros Hinv. eexists. eexists (unique_sources _).
  split; [by apply get_response_ok|].
  split; [apply dict_fromkeys_first_occurrences|].
  split; [apply unique_sources_ascending|].
  split; [apply elem_of_unique_sources|].
  by apply response_text_shown.
Qed.

End citation_pipeline.

(** C1, as stated, fails: with a chunk of page 2 retrieved before a
    chunk of page 1 the sources are 2, 1 in this order, and the citation
    line shows 1 before 2. *)
Lemma citation_line_not_in_retrieval_order :
  let retrieved := {| out_answer := Some (lit "An answer.");
                      out_context := Some [chunk_on_page 2 "Later in the book.";
                                           chunk_on_page 1 "Earlier in the book."] |} in
  ∃ r w',
    get_response retrieved (lit "When?") fresh_process = (Ok r, w')
    ∧ sources r = [VInt 2; VInt 1]
    ∧ unique_sources (sources r) = [lit "1"; lit "2"]
    ∧ format_sources (sources r) = lit "**Sources:** Pages 1, 2"
    ∧ format_sources (sources r) ≠ lit "**Sources:** Pages 2, 1"
    ∧ unique_sources (sources r) ≠ str_of <$> sources r.
Proof.
  eexists _, _. split; [by vm_compute|]. by vm_compute.
Qed.

Lemma citations_collected_in_order_shown_sorted_witness :
  let retrieved := {| out_answer := Some (lit "An answer.");
                      out_context := Some [chunk_on_page 2 "Later in the book.";
                                           chunk_on_page 1 "Earlier in the book.";
                                           chunk_on_page 2 "Also later."] |} in
  ∃ r,
    get_response retrieved (lit "When?") fresh_process = (Ok r, fresh_process)
    ∧ sources r = first_occurrences [VInt 2; VInt 1; VInt 2]
    ∧ response_text r = lit "An answer." ++ nl ++ nl ++ lit "**Sources:** Pages 1, 2".
Proof.
  intros retrieved.
  destruct (citations_collected_in_order_shown_sorted
              retrieved (lit "When?") fresh_process fresh_process retrieved)
    as (r & listed & Hrun & Hsources & _).
  { reflexivity. }
  exists r. split; [exact Hrun|]. split; [exact Hsources|].
  assert (get_response retrieved (lit "When?") fresh_process
          = (Ok {| answer := lit "An answer."; sources := [VInt 2; VInt 1];
                   context_docs := [chunk_on_page 2 "Later in the book.";
                                    chunk_on_page 1 "Earlier in the book.";
                                    chunk_on_page 2 "Also later."] |},
             fresh_process)) as Hvalue by by vm_compute.
  rewrite Hvalue in Hrun. injection Hrun as <-. by vm_compute.
Defined.

(** ** The properties on the example processes *)

Lemma get_response_isolates_failures_witness :
  ∃ r, get_response timeout (lit " Who was Khadijah? ") fresh_process
       = (Ok r, fresh_process)
       ∧ answer r
         = lit "I encountered an error while processing your question: Request timed out.. Please try rephrasing your question."
       ∧ sources r = [].
Proof.
  destruct (get_response_isolates_failures
              timeout (lit " Who was Khadijah? ") fresh_process timeout fresh_process)
    as [(r & Hrun & _ & _ & Hsources & _) _].
  { reflexivity. }
  exists r. split; [exact Hrun|]. split; [|exact Hsources].
  assert (get_response timeout (lit " Who was Khadijah? ") fresh_process
          = (Ok {| answer := lit "I encountered an error while processing your question: Request timed out.. Please try rephrasing your question.";
                   sources := []; context_docs := [] |}, fresh_process)) as Hvalue
    by (by vm_compute).
  rewrite Hvalue in Hrun. by injection Hrun as <-.
Defined.

(** The chain of [create_qa_chain] when the model call fails after the
    chunks were retrieved: the failure is the answer, and nothing is
    cited. *)
Example llm_timeout_is_answered :
  get_response built_chain (lit "Who was Khadijah?") (llm_times_out first_run.2)
  = (Ok {| answer := lit "I encountered an error while processing your question: Request timed out.. Please try rephrasing your question.";
           sources := [];
           context_docs := [] |},
     llm_times_out first_run.2).
Proof. by vm_compute. Qed.

Lemma get_response_ignores_padding_witness :
  get_response echo (lit "  " ++ lit "Who was Abu Bakr?" ++ [32; 10]%N) fresh_process
  = (Ok {| answer := lit "Who was Abu Bakr?"; sources := []; context_docs := [] |},
     (st_show info (lit "Who was Abu Bakr?") fresh_process).2)
  ∧ get_response echo (lit "  " ++ lit "Who was Abu Bakr?" ++ [32; 10]%N) fresh_process
    = get_response echo (lit "Who was Abu Bakr?") fresh_process.
Proof.
  destruct (get_response_ignores_padding echo (lit "Who was Abu Bakr?")
              (lit "  ") [32; 10]%N fresh_process)
    as (_ & _ & Hsame & Hinvoked).
  - vm_compute. by repeat constructor.
  - by repeat constructor.
  - split; [|exact Hsame]. rewrite Hinvoked. by vm_compute.
Defined.

Lemma retriever_returns_at_most_six_distinct_chunks_witness :
  create_qa_chain built_store fresh_process = (Ok built_chain, fresh_process)
  ∧ k (retriever built_chain) = 6 ∧ fetch_k (retriever built_chain) = 12
  ∧ lambda_mult (retriever built_chain) = 0.7%Q
  ∧ ∀ question w1 docs w2,
      retrieve (retriever built_chain) question w1 = (Ok docs, w2) → length docs ≤ 6.
Proof.
  destruct (retriever_returns_at_most_six_distinct_chunks
              built_store fresh_process fresh_process built_chain)
    as [(_ & Hk & Hfetch & Hlambda & _) Hsearch].
  { reflexivity. }
  split; [reflexivity|]. split; [exact Hk|]. split; [exact Hfetch|].
  split; [exact Hlambda|].
  intros question w1 docs w2 Hretrieve.
  by destruct (Hsearch question w1 docs w2 Hretrieve) as [Hlen _].
Defined.

Lemma missing_credential_aborts_startup_witness :
  (∃ msg w', validate_environment no_credential = (Raise (Exn "ValueError" msg), w')
             ∧ ∃ w2, script {| clicked := None; chat_input := Some (lit "Hello") |}
                       empty_session no_credential
                     = (Ok (Stopped empty_session), w2))
  ∧ ∃ w', validate_environment fresh_process = (Ok tt, w').
Proof.
  destruct (missing_credential_aborts_startup no_credential) as [Habsent _].
  destruct (missing_credential_aborts_startup fresh_process) as [_ Hpresent].
  split.
  - destruct Habsent as (msg & w' & Hval & _ & _ & Hstop).
    { intros Hset. vm_compute in Hset. discriminate. }
    exists msg, w'. split; [exact Hval|].
    apply Hstop; reflexivity.
  - apply Hpresent. by vm_compute.
Defined.

Lemma outage_is_outside (w : World Z) : process_step w (outage w).
Proof. by apply step_outside. Qed.

Lemma initialize_chatbot_idempotent_witness :
  first_run.1 = Ok built_chain
  ∧ initialize_chatbot (outage first_run.2) = (Ok built_chain, outage first_run.2)
  ∧ load_or_create_vectorstore pdf_path (outage first_run.2)
    = (Ok built_store, outage first_run.2).
Proof.
  split; [by vm_compute|].
  destruct (initialize_chatbot_idempotent
              fresh_process first_run.2 (outage first_run.2) built_chain)
    as [Hchain Hstore].
  - by vm_compute.
  - apply rtc_once, outage_is_outside.
  - split; [exact Hchain|]. apply Hstore. reflexivity.
Defined.


(** * Further properties of the helper functions, the index and the script *)

(** ** Question suggestions *)

Section question_suggestions.

(** [sub in s] holds exactly when [sub] occurs in [s]. *)
Lemma str_contains_occurs_in (sub s : str) :
  str_contains sub s = true ↔ occurs_in sub s.
Proof.
  induction s as [|c s IH]; simpl.
  - rewrite orb_false_r, bool_decide_eq_true. split.
    + intros [tl Htl]. destruct sub; [|done]. by exists [], [].
    + intros (l1 & l2 & Heq). destruct l1, sub; done.
  - rewrite orb_true_iff, bool_decide_eq_true, IH. split.
    + intros [[tl Htl]|(l1 & l2 & ->)].
      * by exists [], tl.
      * by exists (c :: l1), l2.
    + intros ([|a l1] & l2 & Heq).
      * left. by exists l2.
      * right. injection Heq as -> ->. by exists l1, l2.
Qed.

Lemma first_suggestions_found before keyword suggestions after current_lower :
  occurs_in keyword current_lower →
  Forall (λ item, ¬ occurs_in item.1 current_lower) before →
  first_suggestions (before ++ (keyword, suggestions) :: after) current_lower
  = take 3 suggestions.
Proof.
  intros Hocc. induction 1 as [|[kw sg] before Hkw _ IH]; simpl.
  - apply str_contains_occurs_in in Hocc. by rewrite Hocc.
  - destruct (str_contains kw current_lower) eqn:Hc; [|done].
    apply str_contains_occurs_in in Hc. by destruct Hkw.
Qed.

Lemma first_suggestions_none items current_lower :
  Forall (λ item, item.2 ≠ []) items →
  first_suggestions items current_lower = []
  ↔ Forall (λ item, ¬ occurs_in item.1 current_lower) items.
Proof.
  induction 1 as [|[kw sg] items Hsg _ IH]; simpl; [done|].
  rewrite Forall_cons, <-IH, <-str_contains_occurs_in. simpl in *.
  destruct (str_contains kw current_lower).
  - split; [|by intros [[] _]]. by destruct sg.
  - split; [done|by intros [_ ?]].
Qed.

Lemma suggestions_map_three :
  Forall (λ item, length item.2 = 3) suggestions_map.
Proof. by repeat constructor. Qed.

Variable lower : str → str.

(** X13.  The suggestions are those of the first keyword of the table, in the
    table's order, that occurs in the lower-cased question, always three
    of them; the result is empty exactly when none of the four keywords
    occurs. *)
Theorem suggestions_of_first_keyword (current_question : str) :
  (∀ before keyword suggestions after,
     suggestions_map = before ++ (keyword, suggestions) :: after →
     occurs_in keyword (lower current_question) →
     Forall (λ item, ¬ occurs_in item.1 (lower current_question)) before →
     get_question_suggestions lower current_question = suggestions
     ∧ length suggestions = 3)
  ∧ (get_question_suggestions lower current_question = []
     ↔ Forall (λ item, ¬ occurs_in item.1 (lower current_question)) suggestions_map).
Proof.
  split.
  - intros before keyword suggestions after Hmap Hocc Hbefore.
    assert (length suggestions = 3) as Hlen.
    { pose proof suggestions_map_three as Hthree. rewrite Hmap in Hthree.
      by apply Forall_app in Hthree as [_ [? _]%Forall_cons]. }
    split; [|done]. unfold get_question_suggestions. rewrite Hmap.
    rewrite first_suggestions_found by done. apply take_ge. lia.
  - apply first_suggestions_none.
    eapply Forall_impl; [apply suggestions_map_three|].
    intros [kw sg] Hlen. simpl in *. by destruct sg.
Qed.

End question_suggestions.

Lemma suggestions_of_first_keyword_witness :
  get_question_suggestions ascii_lower (lit "Tell me about KHADIJAH and the Revelation")
  = [ lit "How did the Prophet become a merchant?";
      lit "What was Khadijah's role in early Islam?";
      lit "Tell me about the Prophet's marriage" ].
Proof.
  refine (proj1 (proj1 (suggestions_of_first_keyword ascii_lower
            (lit "Tell me about KHADIJAH and the Revelation"))
          [(lit "birth", _)] (lit "khadijah") _ _ eq_refl _ _)).
  - apply str_contains_occurs_in. by vm_compute.
  - constructor; [|constructor]. rewrite <-str_contains_occurs_in. by vm_compute.
Defined.

(** ** Chat history helpers *)

Section chat_history.

Lemma export_fold (init : str) (messages : list ChatMessage) :
  foldl (λ export_text message, export_text ++ export_section message) init messages
  = init ++ concat (export_section <$> messages).
Proof.
  revert init. induction messages as [|m ms IH]; intros init; simpl.
  - by rewrite app_nil_r.
  - by rewrite IH, (assoc_L (++)).
Qed.

Lemma export_chat_history_sections (messages : list ChatMessage) :
  messages ≠ [] →
  export_chat_history messages
  = lit "# Islamic History Chatbot - Chat History" ++ [10; 10]%N
    ++ concat (export_section <$> messages).
Proof.
  destruct messages as [|m ms]; [done|]. intros _. unfold export_chat_history.
  by rewrite export_fold, <-(assoc_L (++)).
Qed.

(** X12.  The export of a history that is not empty starts with the title
    and is extended, never rewritten, when messages are added: the
    export of a longer history is the export of the shorter one followed
    by one section per added message, and every message's text is in it.
    The empty history gives a text that no other export starts with. *)
Theorem export_chat_history_extends (messages added : list ChatMessage) :
  messages ≠ [] →
  export_chat_history (messages ++ added)
  = export_chat_history messages ++ concat (export_section <$> added)
  ∧ (∀ message, message ∈ messages →
       occurs_in (msg_content message) (export_chat_history messages))
  ∧ ¬ export_chat_history [] `prefix_of` export_chat_history messages.
Proof.
  intros Hne. split; [|split].
  - rewrite !export_chat_history_sections; [|done|by destruct messages].
    by rewrite fmap_app, concat_app, <-!(assoc_L (++)).
  - intros message [l1 [l2 ->]]%list_elem_of_split.
    rewrite export_chat_history_sections by by destruct l1.
    rewrite fmap_app, fmap_cons, concat_app.
    change (concat (?x :: ?l)) with (x ++ concat l).
    set (before := concat (export_section <$> l1)).
    set (after := concat (export_section <$> l2)).
    unfold export_section.
    set (heading := if decide (msg_role message = lit "assistant")
                    then [129302%N] ++ lit " Assistant" else [128100%N] ++ lit " User").
    exists (lit "# Islamic History Chatbot - Chat History" ++ [10; 10]%N
            ++ before ++ lit "## " ++ heading ++ [10; 10]%N),
           ([10; 10]%N ++ lit "---" ++ [10; 10]%N ++ after).
    by rewrite <-!(assoc_L (++)).
  - rewrite (export_chat_history_sections messages) by done.
    intros [tl Htl]. by vm_compute in Htl.
Qed.

Lemma role_name_user (r : Role) : role_name r = lit "user" ↔ r = user.
Proof. destruct r; split; try done; intros Heq; by vm_compute in Heq. Qed.

Lemma role_name_assistant (r : Role) : role_name r = lit "assistant" ↔ r = assistant.
Proof. destruct r; split; try done; intros Heq; by vm_compute in Heq. Qed.

Ltac decide_roles :=
  repeat first
    [ rewrite decide_True by done
    | rewrite decide_False by (intros Heq; by vm_compute in Heq) ].

Lemma count_roles (h : list Message) :
  length (filter (λ msg, msg_role msg = lit "user") (message_dict <$> h))
  + length (filter (λ msg, msg_role msg = lit "assistant") (message_dict <$> h))
  = length h.
Proof.
  induction h as [|[[] c] h IH]; [done|..]; rewrite fmap_cons, !filter_cons; simpl;
    decide_roles; simpl; lia.
Qed.

Lemma count_turns (turns : list (str * str)) :
  length (filter (λ msg, msg_role msg = lit "user")
            (message_dict <$> (turns ≫= exchange))) = length turns
  ∧ length (filter (λ msg, msg_role msg = lit "assistant")
              (message_dict <$> (turns ≫= exchange))) = length turns.
Proof.
  induction turns as [|[q a] turns [IHq IHa]]; [done|].
  rewrite bind_cons, fmap_app, !filter_app, !length_app, IHq, IHa.
  unfold exchange. rewrite !fmap_cons, !filter_cons. simpl.
  by decide_roles.
Qed.

(** X11.  For a history of the app, whose messages are the user's or the
    assistant's, the two metrics add up to the number of messages; for a
    conversation the responses are one more than the questions, the
    greeting; and nothing is displayed for an empty history. *)
Theorem display_chat_stats_counts (h : list Message) :
  h ≠ [] →
  ∃ questions responses,
    display_chat_stats (message_dict <$> h)
    = [ sidebar_markdown (lit "### " ++ [128202%N] ++ lit " Chat Stats");
        sidebar_metric (lit "Questions Asked") questions;
        sidebar_metric (lit "Responses Given") responses ]
    ∧ questions + responses = length h
    ∧ (conversation h → responses = S questions)
    ∧ display_chat_stats [] = [].
Proof.
  intros Hne. destruct h as [|m h]; [done|].
  eexists _, _. split; [reflexivity|]. split; [apply count_roles|]. split; [|done].
  intros [turns Hturns]. injection Hturns as -> ->.
  rewrite fmap_cons, !filter_cons. simpl. decide_roles. simpl.
  by destruct (count_turns turns) as [-> ->].
Qed.

End chat_history.

Lemma display_chat_stats_counts_witness :
  ∃ questions responses,
    display_chat_stats (message_dict <$> one_exchange)
    = [ sidebar_markdown (lit "### " ++ [128202%N] ++ lit " Chat Stats");
        sidebar_metric (lit "Questions Asked") questions;
        sidebar_metric (lit "Responses Given") responses ]
    ∧ questions + responses = 3.
Proof.
  destruct (display_chat_stats_counts one_exchange ltac:(done))
    as (questions & responses & Hshown & Hsum & _).
  by exists questions, responses.
Defined.

Lemma export_chat_history_extends_witness :
  let asked := [ {| msg_role := lit "user"; msg_content := lit "Who was Khadijah?" |} ] in
  let answered := [ {| msg_role := lit "assistant"; msg_content := lit "His first wife." |} ] in
  export_chat_history (asked ++ answered)
  = export_chat_history asked ++ concat (export_section <$> answered).
Proof.
  intros asked answered.
  apply (export_chat_history_extends asked answered). done.
Defined.

(** ** The citation line as a function of the set of pages *)

Section citation_sets.

Lemma unique_sources_same_pages (l l' : list value) :
  (∀ p, (∃ s, s ∈ l ∧ s ≠ unknown ∧ p = str_of s)
        ↔ (∃ s, s ∈ l' ∧ s ≠ unknown ∧ p = str_of s)) →
  unique_sources l = unique_sources l'.
Proof.
  intros Hsame.
  rewrite <-(unique_sources_canonical l (unique_sources l')).
  - apply unique_sources_canonical.
    + apply NoDup_unique_sources.
    + apply elem_of_unique_sources.
  - apply NoDup_unique_sources.
  - intros p. by rewrite elem_of_unique_sources, Hsame.
Qed.

(** X1.  The citation line depends only on the set of string forms of the
    sources other than "unknown" (and on whether the list is empty): the
    order of the sources, their repetitions, and whether a page is an
    [int] or its string make no difference. *)
Theorem format_sources_depends_on_page_set (l l' : list value) :
  (l = [] ↔ l' = []) →
  (∀ p, (∃ s, s ∈ l ∧ s ≠ unknown ∧ p = str_of s)
        ↔ (∃ s, s ∈ l' ∧ s ≠ unknown ∧ p = str_of s)) →
  format_sources l = format_sources l'.
Proof.
  intros Hnil Hsame. apply unique_sources_same_pages in Hsame.
  destruct Hnil as [Hnil Hnil'].
  destruct l as [|s l], l' as [|s' l'];
    [done|by specialize (Hnil eq_refl)|by specialize (Hnil' eq_refl)|].
  unfold format_sources. by rewrite Hsame.
Qed.

End citation_sets.

Lemma format_sources_depends_on_page_set_witness :
  format_sources [VInt 2; VInt 10; VInt 2]
  = format_sources [VStr (lit "10"); VStr (lit "unknown"); VInt 2].
Proof.
  apply format_sources_depends_on_page_set; [done|].
  intros p. rewrite <-!elem_of_unique_sources.
  by replace (unique_sources [VInt 2; VInt 10; VInt 2])
    with (unique_sources [VStr (lit "10"); VStr (lit "unknown"); VInt 2])
    by by vm_compute.
Defined.

(** ** Page numbers of the same width *)

Section numeric_order.

#[local] Transparent lit.

Lemma lit_String (c : ascii) (s : string) :
  lit (String c s) = N_of_ascii c :: lit s.
Proof. reflexivity. Qed.

Lemma lit_empty : lit "" = [].
Proof. reflexivity. Qed.

#[local] Opaque lit.

Lemma lit_pretty_N_go (x : N) (s : string) :
  lit (pretty_N_go x s) = lit (pretty_N_go x "") ++ lit s.
Proof.
  revert s. induction (N.lt_wf_0 x) as [x _ IH]. intros s.
  destruct (decide (x = 0)%N) as [->|Hx].
  - by rewrite !pretty_N_go_0, lit_empty.
  - assert (x `div` 10 < x)%N as Hdiv by (apply N.div_lt; lia).
    rewrite !(pretty_N_go_step x) by lia.
    rewrite (IH _ Hdiv (String _ s)), (IH _ Hdiv (String _ "")).
    by rewrite !lit_String, lit_empty, <-(assoc_L (++)).
Qed.

Lemma pretty_N_char_code (d : N) :
  (d < 10)%N → N_of_ascii (pretty_N_char d) = (48 + d)%N.
Proof.
  intros Hd.
  assert (d = 0 ∨ d = 1 ∨ d = 2 ∨ d = 3 ∨ d = 4 ∨ d = 5 ∨ d = 6 ∨ d = 7 ∨ d = 8 ∨ d = 9)%N
    as Hcases by lia.
  repeat destruct Hcases as [->|Hcases]; try subst d; by vm_compute.
Qed.

(** The decimal form of a number below ten is its digit; a longer one is
    the form of the tens followed by the last digit. *)
Lemma lit_pretty_digit (x : N) : (x < 10)%N → lit (pretty x) = [(48 + x)%N].
Proof.
  intros Hx.
  assert (x = 0 ∨ x = 1 ∨ x = 2 ∨ x = 3 ∨ x = 4 ∨ x = 5 ∨ x = 6 ∨ x = 7 ∨ x = 8 ∨ x = 9)%N
    as Hcases by lia.
  repeat destruct Hcases as [->|Hcases]; try subst x; by vm_compute.
Qed.

Lemma lit_pretty_tens (x : N) :
  (10 ≤ x)%N →
  lit (pretty x) = lit (pretty (x `div` 10)%N) ++ [(48 + x `mod` 10)%N].
Proof.
  intros Hx. unfold pretty, pretty_N.
  assert (0 < x `div` 10)%N as Hdiv by (apply N.div_str_pos; lia).
  rewrite !decide_False by lia.
  rewrite pretty_N_go_step by lia.
  rewrite lit_pretty_N_go, lit_String, lit_empty.
  rewrite pretty_N_char_code; [done|]. by apply N.mod_lt.
Qed.

Lemma lit_pretty_nonempty (x : N) : lit (pretty x) ≠ [].
Proof.
  destruct (decide (x < 10)%N).
  - by rewrite lit_pretty_digit.
  - rewrite lit_pretty_tens by lia. by destruct (lit _).
Qed.

Lemma length_lit_pretty (x : N) : length (lit (pretty x)) = 1 ↔ (x < 10)%N.
Proof.
  split.
  - intros Hlen. destruct (decide (x < 10)%N) as [|Hx]; [done|].
    rewrite lit_pretty_tens, length_app in Hlen by lia.
    pose proof (lit_pretty_nonempty (x `div` 10)%N) as Hne.
    destruct (lit (pretty (x `div` 10)%N)); [done|simpl in Hlen; lia].
  - intros Hx. by rewrite lit_pretty_digit.
Qed.

Lemma str_leb_snoc (a b : str) (c d : N) :
  length a = length b →
  str_leb (a ++ [c]) (b ++ [d])
  = if decide (a = b) then (c <=? d)%N else str_leb a b.
Proof.
  revert b. induction a as [|x a IH]; intros [|y b] Hlen; try done.
  - simpl. destruct (N.ltb_spec c d), (N.eqb_spec c d), (N.leb_spec c d);
      try done; lia.
  - injection Hlen as Hlen. simpl. rewrite IH by done.
    destruct (N.ltb_spec x y), (N.eqb_spec x y); subst.
    + lia.
    + rewrite decide_False; [done|]. intros [= ? _]. lia.
    + destruct (decide (a = b)) as [->|Hne].
      * by rewrite decide_True.
      * rewrite decide_False; [done|]. by intros [= ?].
    + rewrite decide_False; [done|]. by intros [= ? _].
Qed.

Lemma str_lt_snoc (a b : str) (c d : N) :
  length a = length b →
  str_lt (a ++ [c]) (b ++ [d]) ↔ str_lt a b ∨ (a = b ∧ (c < d)%N).
Proof.
  intros Hlen. unfold str_lt, str_le. rewrite str_leb_snoc by done.
  destruct (decide (a = b)) as [->|Hne].
  - rewrite N.leb_le. split.
    + intros [Hle Hneq]. right. split; [done|].
      destruct (decide (c = d)) as [->|]; [done|lia].
    + intros [[_ []]|[_ Hlt]]; [done|]. split; [lia|].
      intros Heq%app_inj_tail. destruct Heq as [_ ->]. lia.
  - split.
    + intros [Hle _]. by left.
    + intros [[Hle _]|[]]; [|done]. split; [done|].
      intros Heq%app_inj_tail. by destruct Heq.
Qed.

Lemma str_lt_digit (c d : N) : str_lt [c] [d] ↔ (c < d)%N.
Proof.
  rewrite (str_lt_snoc [] [] c d) by done. split.
  - intros [[_ []]|[_ ?]]; done.
  - intros. by right.
Qed.

Lemma tens_order (x y : N) :
  ((x < y)%N
   ↔ (x `div` 10 < y `div` 10)%N
     ∨ (x `div` 10)%N = (y `div` 10)%N ∧ (48 + x `mod` 10 < 48 + y `mod` 10)%N)
  ∧ (x = y ↔ (x `div` 10)%N = (y `div` 10)%N ∧ (x `mod` 10)%N = (y `mod` 10)%N).
Proof.
  pose proof (N.div_mod x 10 ltac:(lia)) as Hdx.
  pose proof (N.div_mod y 10 ltac:(lia)) as Hdy.
  pose proof (N.mod_lt x 10 ltac:(lia)) as Hmx.
  pose proof (N.mod_lt y 10 ltac:(lia)) as Hmy.
  generalize dependent (x `div` 10)%N. intros a.
  generalize dependent (y `div` 10)%N. intros b.
  generalize dependent (x `mod` 10)%N. intros dx.
  generalize dependent (y `mod` 10)%N. intros dy. intros. lia.
Qed.

Lemma decimal_order (x y : N) :
  length (lit (pretty x)) = length (lit (pretty y)) →
  ((x < y)%N ↔ str_lt (lit (pretty x)) (lit (pretty y)))
  ∧ (x = y ↔ lit (pretty x) = lit (pretty y)).
Proof.
  revert y. induction (N.lt_wf_0 x) as [x _ IH]. intros y Hlen.
  destruct (decide (x < 10)%N) as [Hx|Hx].
  - assert (y < 10)%N as Hy.
    { apply length_lit_pretty. rewrite <-Hlen. by apply length_lit_pretty. }
    rewrite !lit_pretty_digit by done. rewrite str_lt_digit. split; [lia|].
    split; [by intros ->|]. intros [= ?]. lia.
  - assert (¬ (y < 10)%N) as Hy.
    { intros Hy%length_lit_pretty. rewrite <-Hlen in Hy.
      by apply length_lit_pretty in Hy. }
    rewrite (lit_pretty_tens x), (lit_pretty_tens y) in Hlen |- * by lia.
    rewrite !length_app in Hlen. simpl in Hlen.
    assert (length (lit (pretty (x `div` 10)%N)) = length (lit (pretty (y `div` 10)%N)))
      as Hlen' by lia.
    destruct (IH (x `div` 10)%N ltac:(apply N.div_lt; lia) (y `div` 10)%N Hlen')
      as [Hlt Heq].
    destruct (tens_order x y) as [Hlt' Heq'].
    rewrite str_lt_snoc by done. rewrite <-Hlt, <-Heq. split; [done|].
    rewrite Heq'. split.
    + by intros [-> ->].
    + intros [Hdiv Hmod]%app_inj_tail. apply Heq in Hdiv.
      split; [done|lia].
Qed.

Lemma str_of_page_number (a : Z) :
  (0 ≤ a)%Z → str_of (VInt a) = lit (pretty (Z.to_N a)).
Proof. intros Ha. by destruct a. Qed.

(** X2.  Page numbers with the same number of digits are cited in numeric
    order.  For two page numbers that are not negative and whose decimal
    forms are equally long, the order of the strings, by which the
    citation line is sorted, is the order of the numbers: the smaller page
    comes first in the list of cited pages. *)
Theorem pages_of_equal_width_in_numeric_order (sources : list value) (a b : Z) :
  (0 ≤ a)%Z → (0 ≤ b)%Z →
  length (str_of (VInt a)) = length (str_of (VInt b)) →
  (str_lt (str_of (VInt a)) (str_of (VInt b)) ↔ (a < b)%Z)
  ∧ (VInt a ∈ sources → VInt b ∈ sources → (a < b)%Z →
     ∃ before between after,
       unique_sources sources
       = before ++ str_of (VInt a) :: between ++ str_of (VInt b) :: after).
Proof.
  intros Ha Hb Hlen.
  assert (str_lt (str_of (VInt a)) (str_of (VInt b)) ↔ (a < b)%Z) as Horder.
  { rewrite !str_of_page_number in Hlen |- * by done.
    destruct (decimal_order _ _ Hlen) as [<- _]. lia. }
  split; [done|]. intros Hina Hinb Hlt.
  apply ascending_before.
  - apply unique_sources_ascending.
  - apply elem_of_unique_sources. by exists (VInt a).
  - apply elem_of_unique_sources. by exists (VInt b).
  - by apply Horder.
Qed.

End numeric_order.

Lemma pages_of_equal_width_in_numeric_order_witness :
  (str_lt (str_of (VInt 27)) (str_of (VInt 31)) ↔ (27 < 31)%Z)
  ∧ ∃ before between after,
      unique_sources [VInt 31; VInt 27; VInt 103]
      = before ++ str_of (VInt 27) :: between ++ str_of (VInt 31) :: after.
Proof.
  destruct (pages_of_equal_width_in_numeric_order [VInt 31; VInt 27; VInt 103] 27 31
              ltac:(lia) ltac:(lia) ltac:(by vm_compute)) as [Horder Hlisted].
  split; [done|]. apply Hlisted; [| |lia].
  - apply list_elem_of_In. simpl. tauto.
  - apply list_elem_of_In. simpl. tauto.
Defined.

(** ** The sources of an answer *)

Section answer_sources.
Context {Vec : Type} `{!Runnable (Vec:=Vec) C}.

Lemma elem_of_pages_of (context : list Document) (p : value) :
  p ∈ pages_of context
  ↔ p ≠ VNone ∧ ∃ doc, doc ∈ context ∧ metadata doc !! lit "page" = Some p.
Proof.
  unfold pages_of. rewrite list_elem_of_omap. split.
  - intros (doc & Hdoc & Hpage).
    destruct (metadata doc !! lit "page") as [[]|] eqn:Hlookup; try done;
      injection Hpage as <-; (split; [done|by exists doc]).
  - intros (Hp & doc & Hdoc & Hpage). exists doc. split; [done|].
    rewrite Hpage. by destruct p.
Qed.

Lemma length_first_occurrences {A} `{EqDecision A} (xs : list A) :
  length (first_occurrences xs) ≤ length xs.
Proof.
  unfold first_occurrences. rewrite length_fmap.
  etransitivity; [apply length_filter|]. by rewrite length_imap.
Qed.

Lemma length_pages_of (context : list Document) :
  length (pages_of context) ≤ length context.
Proof.
  unfold pages_of. induction context as [|doc context IH]; [done|].
  change (doc :: context) with ([doc] ++ context). rewrite omap_app, !length_app.
  simpl. destruct (metadata doc !! lit "page") as [[]|]; simpl in *; lia.
Qed.

(** X3.  When the chain returns, the sources of the answer are the page
    numbers of the chunks it returns in the context, each once: no
    source is [None], no source occurs twice, every source is the page of
    a returned chunk and every page of a returned chunk is a source; so
    there are never more sources than chunks. *)
Theorem get_response_sources_are_the_pages (qa_chain : C) (question : str)
    (w w' : World Vec) (out : ChainOutput) :
  invoke qa_chain (strip question) w = (Ok out, w') →
  ∃ r,
    get_response qa_chain question w = (Ok r, w')
    ∧ context_docs r = default [] (out_context out)
    ∧ NoDup (sources r)
    ∧ (∀ p, p ∈ sources r
            ↔ p ≠ VNone
              ∧ ∃ doc, doc ∈ context_docs r ∧ metadata doc !! lit "page" = Some p)
    ∧ length (sources r) ≤ length (context_docs r).
Proof.
  intros Hinvoke. eexists. split; [by apply get_response_ok|]. simpl.
  rewrite dict_fromkeys_first_occurrences. split_and!.
  - done.
  - apply NoDup_first_occurrences.
  - intros p. by rewrite elem_of_first_occurrences, elem_of_pages_of.
  - etransitivity; [apply length_first_occurrences|apply length_pages_of].
Qed.

End answer_sources.

Lemma get_response_sources_are_the_pages_witness :
  let retrieved := {| out_answer := Some (lit "An answer.");
                      out_context := Some [chunk_on_page 2 "Later in the book.";
                                           chunk_on_page 1 "Earlier in the book.";
                                           chunk_on_page 2 "Also later."] |} in
  ∃ r, get_response retrieved (lit "When?") fresh_process = (Ok r, fresh_process)
       ∧ NoDup (sources r)
       ∧ length (sources r) ≤ 3.
Proof.
  intros retrieved.
  destruct (get_response_sources_are_the_pages retrieved (lit "When?")
              fresh_process fresh_process retrieved eq_refl)
    as (r & Hr & Hdocs & Hnodup & _ & Hlen).
  exists r. rewrite Hdocs in Hlen. done.
Defined.

(** ** Building and loading: what reaches the index directory *)

Section index_directory.
Context {Vec : Type}.

Lemma build_vectorstore_raise path (w : World Vec) e w' :
  build_vectorstore path w = (Raise e, w') →
  (faiss_index w' = faiss_index w
   ∨ ∃ remains, index_write_failure w = Some (e, remains) ∧ faiss_index w' = remains)
  ∧ last (shown w')
    = Some {| level := error;
              text := [10060%N] ++ lit " Error building vectorstore: " ++ exn_str e |}
  ∧ vectorstore_cache w' = vectorstore_cache w
  ∧ chatbot_cache w' = chatbot_cache w.
Proof.
  unfold build_vectorstore, new_embeddings, st_secrets, PyPDFLoader_load,
    FAISS_from_documents, save_local, report_index_size,
    try_except, mbind, M_bind, mret, M_ret, bind, lift, ret, gets, raise.
  simpl.
  destruct (pdf_files w !! path) as [pages|] eqn:Hpdf; simpl.
  2: { intros [= <- <-]. simpl. rewrite last_snoc. split_and!; by try left. }
  destruct (secrets w !! api_key_name) as [key|] eqn:Hkey; simpl.
  2: { intros [= <- <-]. simpl. rewrite last_snoc. split_and!; by try left. }
  destruct (embed_documents _ _) as [[|v0 vs]|e'] eqn:Hembed; simpl.
  1, 3: intros [= <- <-]; simpl; rewrite last_snoc; split_and!; by try left.
  destruct (index_write_failure w) as [[e' remains]|] eqn:Hwrite; simpl.
  - intros [= <- <-]. simpl. rewrite last_snoc. split_and!; try done.
    right. by exists remains.
  - destruct (index_size_mb w); simpl; done.
Qed.

Lemma build_vectorstore_ok path (w : World Vec) v w' :
  build_vectorstore path w = (Ok v, w') →
  faiss_index w' = Some (Persisted (entries v))
  ∧ entries v ≠ []
  ∧ ∃ pages, pdf_files w !! path = Some pages ∧ (entries v).*1 = chunks_of pages.
Proof.
  intros Hbuild.
  destruct (build_vectorstore_ok_inv _ _ _ _ Hbuild) as (pages & vs & Hpossible & Hentries).
  destruct (build_vectorstore_returns _ _ _ _ _ Hpossible) as (w1 & Hrun & Hindex).
  rewrite Hbuild in Hrun. injection Hrun as _ <-. rewrite Hentries. split; [done|].
  destruct Hpossible as (Hpdf & Hchunks & _ & Hembed & _).
  assert ((zip (chunks_of pages) vs).*1 = chunks_of pages) as Hfull
    by by eapply rebuilt_entries.
  split.
  - intros Hnone. rewrite Hnone in Hfull. by destruct (chunks_of pages).
  - by exists pages.
Qed.

(** X4.  [build_vectorstore] leaves in the index directory the store that it
    returns.  When it returns a store, the directory holds exactly the
    entries of that store, one per chunk of the document and at least
    one.  When it raises, the last message shown is the error message
    with the text of the exception, and the same exception is what the
    caller gets; the directory is then as it was, unless the exception is
    the one of a failed write of the index files, which leaves what that
    write left.  Neither outcome touches the two resource caches. *)
Theorem build_vectorstore_saves_what_it_returns (path : str) (w : World Vec) :
  ∃ outcome w',
    build_vectorstore path w = (outcome, w')
    ∧ vectorstore_cache w' = vectorstore_cache w
    ∧ chatbot_cache w' = chatbot_cache w
    ∧ match outcome with
      | Ok v =>
          faiss_index w' = Some (Persisted (entries v))
          ∧ entries v ≠ []
          ∧ ∃ pages, pdf_files w !! path = Some pages
                     ∧ (entries v).*1 = chunks_of pages
      | Raise e =>
          last (shown w')
          = Some {| level := error;
                    text := [10060%N] ++ lit " Error building vectorstore: "
                            ++ exn_str e |}
          ∧ (faiss_index w' = faiss_index w
             ∨ ∃ remains, index_write_failure w = Some (e, remains)
                          ∧ faiss_index w' = remains)
      end.
Proof.
  destruct (build_vectorstore path w) as [[v|e] w'] eqn:Hbuild;
    eexists _, _; (split; [reflexivity|]).
  - pose proof (keeps_build_vectorstore path w) as [Hv Hc].
    rewrite Hbuild in Hv, Hc. simpl in *. split; [done|]. split; [done|].
    by apply build_vectorstore_ok in Hbuild.
  - by apply build_vectorstore_raise in Hbuild as (? & ? & ? & ?).
Qed.

Lemma load_attempt_outcome (w : World Vec) :
  (∃ key saved, secrets w !! api_key_name = Some key
                ∧ faiss_index w = Some (Persisted saved)
                ∧ load_attempt w
                  = (Ok {| embedding_function := {| embeddings_api_key := key |};
                           entries := saved |}, w))
  ∨ ∃ e, (load_attempt w).1 = Raise e.
Proof.
  unfold load_attempt, new_embeddings, st_secrets, FAISS_load_local,
    mbind, M_bind, mret, M_ret, bind, lift, ret.
  destruct (secrets w !! api_key_name) as [key|]; simpl; [|by right; eexists].
  destruct (faiss_index w) as [[saved|e]|]; simpl; [|by right; eexists..].
  left. by exists key, saved.
Qed.

Lemma load_success path (w : World Vec) key saved :
  secrets w !! api_key_name = Some key →
  faiss_index w = Some (Persisted saved) →
  ∃ w', load_or_create_vectorstore_wrapped path w
        = (Ok {| embedding_function := {| embeddings_api_key := key |};
                 entries := saved |}, w')
        ∧ same_but_for_messages w w'.
Proof.
  intros Hkey Hindex.
  unfold load_or_create_vectorstore_wrapped, index_path_exists, new_embeddings,
    st_secrets, FAISS_load_local,
    try_except, mbind, M_bind, mret, M_ret, bind, lift, ret, gets.
  destruct w. simpl in *. subst. simpl. rewrite Hkey. simpl.
  eexists. split; [reflexivity|]. by repeat split.
Qed.

(** What the body of [load_or_create_vectorstore] leaves in the index
    directory. *)
Lemma load_or_create_vectorstore_wrapped_index path (w : World Vec) :
  match load_or_create_vectorstore_wrapped path w with
  | (Ok v, w') => faiss_index w' = Some (Persisted (entries v))
  | (Raise e, w') =>
      faiss_index w' = faiss_index w
      ∨ ∃ remains, index_write_failure w = Some (e, remains) ∧ faiss_index w' = remains
  end.
Proof.
  destruct (faiss_index w) as [dir|] eqn:Hindex.
  - destruct (load_attempt_outcome w) as [(key & saved & Hkey & Hsaved & _)|[e He]].
    + destruct (load_success path w key saved Hkey Hsaved) as (w' & -> & Hsame).
      destruct Hsame as (_ & _ & _ & _ & _ & -> & _). done.
    + destruct (load_failure_runs_build path w) as [_ Hbuild].
      rewrite (Hbuild e) by done.
      pose proof (load_failure_notices_same e w)
        as (_ & _ & _ & _ & _ & Hsame & _ & _ & _ & Hwrite & _).
      destruct (build_vectorstore path _) as [[v|e'] w'] eqn:Hrun.
      * by apply build_vectorstore_ok in Hrun as [? _].
      * apply build_vectorstore_raise in Hrun as [Hdir _].
        rewrite Hsame, Hwrite, Hindex in Hdir. done.
  - destruct (load_failure_runs_build path w) as [Hbuild _]. rewrite Hbuild by done.
    destruct (build_vectorstore path w) as [[v|e'] w'] eqn:Hrun.
    + by apply build_vectorstore_ok in Hrun as [? _].
    + apply build_vectorstore_raise in Hrun as [Hdir _]. by rewrite Hindex in Hdir.
Qed.

(** X5.  The store that a first call of [load_or_create_vectorstore] returns
    is the one in the index directory: loaded from it, or just saved to
    it.  A call that raises leaves the directory as it was, unless what it
    raises is the exception of a failed write of the index files, which
    leaves what that write left; and a call answered from the cache does
    not change the state at all. *)
Theorem load_or_create_vectorstore_agrees_with_directory (path : str) (w : World Vec) :
  (vectorstore_cache w !! path = None →
     match load_or_create_vectorstore path w with
     | (Ok v, w') => faiss_index w' = Some (Persisted (entries v))
     | (Raise e, w') =>
         faiss_index w' = faiss_index w
         ∨ ∃ remains, index_write_failure w = Some (e, remains)
                      ∧ faiss_index w' = remains
     end)
  ∧ (∀ v, vectorstore_cache w !! path = Some v →
          load_or_create_vectorstore path w = (Ok v, w)).
Proof.
  split.
  - intros Hmiss. unfold load_or_create_vectorstore, cache_resource. rewrite Hmiss.
    pose proof (load_or_create_vectorstore_wrapped_index path w) as Hindex.
    by destruct (load_or_create_vectorstore_wrapped path w) as [[v|e] w'].
  - intros v Hhit. unfold load_or_create_vectorstore. by apply cache_resource_hit.
Qed.

End index_directory.

(** ** What the app shows under an answer *)

Section shown_citations.
Context {Vec : Type} `{!Runnable (Vec:=Vec) C}.

Lemma format_sources_names_a_page (sources : list value) :
  unique_sources sources ≠ [] →
  format_sources sources ≠ lit "**Sources:** No specific pages referenced"
  ∧ format_sources sources ≠ lit "**Sources:** Page numbers not available".
Proof.
  intros Hpages. unfold format_sources.
  destruct sources as [|s sources].
  { by vm_compute in Hpages. }
  destruct (unique_sources (s :: sources)) as [|p pages]; [done|].
  destruct (decide (length (p :: pages) = 1)); [|destruct (decide (length (p :: pages) ≤ 5))];
    split; intros Heq; by vm_compute in Heq.
Qed.

(** X17.  The two fallback lines of [format_sources] are not shown by the
    app for an answer of [get_response], unless a chunk carries the
    string "unknown" as its page: when no returned chunk does, the text
    shown is either the answer alone (no chunk had a page), or the answer,
    a blank line and a citation line that names at least one page. *)
Theorem shown_citation_names_a_page (qa_chain : C) (question : str)
    (w w' : World Vec) (out : ChainOutput) :
  invoke qa_chain (strip question) w = (Ok out, w') →
  (∀ doc, doc ∈ default [] (out_context out) →
          metadata doc !! lit "page" ≠ Some unknown) →
  ∃ r,
    get_response qa_chain question w = (Ok r, w')
    ∧ ((sources r = [] ∧ response_text r = answer r)
       ∨ (unique_sources (sources r) ≠ []
          ∧ response_text r = answer r ++ nl ++ nl ++ format_sources (sources r)
          ∧ format_sources (sources r)
            ≠ lit "**Sources:** No specific pages referenced"
          ∧ format_sources (sources r)
            ≠ lit "**Sources:** Page numbers not available")).
Proof.
  intros Hinvoke Hpages. eexists. split; [by apply get_response_ok|].
  unfold response_text. simpl.
  rewrite dict_fromkeys_first_occurrences.
  destruct (first_occurrences (pages_of (default [] (out_context out))))
    as [|s rest] eqn:Hsources; [by left|right].
  assert (unique_sources (s :: rest) ≠ []) as Hcited.
  { assert (s ∈ pages_of (default [] (out_context out))) as Hs.
    { apply elem_of_first_occurrences. rewrite Hsources. by left. }
    apply elem_of_pages_of in Hs as (_ & doc & Hdoc & Hpage).
    assert (str_of s ∈ unique_sources (s :: rest)) as Hin.
    { apply elem_of_unique_sources. exists s. split; [by left|]. split; [|done].
      intros ->. by apply (Hpages doc). }
    intros Hnil. rewrite Hnil in Hin. by apply elem_of_nil in Hin. }
  split; [done|]. split; [done|]. by apply format_sources_names_a_page.
Qed.

End shown_citations.

Lemma shown_citation_names_a_page_witness :
  let retrieved := {| out_answer := Some (lit "An answer.");
                      out_context := Some [chunk_on_page 2 "Later in the book.";
                                           chunk_on_page 1 "Earlier in the book."] |} in
  ∃ r, get_response retrieved (lit "When?") fresh_process = (Ok r, fresh_process)
       ∧ response_text r = lit "An answer." ++ nl ++ nl ++ lit "**Sources:** Pages 1, 2".
Proof.
  intros retrieved.
  destruct (shown_citation_names_a_page retrieved (lit "When?")
              fresh_process fresh_process retrieved eq_refl)
    as (r & Hr & Hshown).
  - intros doc Hdoc. simpl in Hdoc.
    apply elem_of_cons in Hdoc as [->|Hdoc];
      [|apply elem_of_cons in Hdoc as [->|Hdoc]; [|by apply elem_of_nil in Hdoc]];
      by vm_compute.
  - exists r. split; [done|].
    assert (get_response retrieved (lit "When?") fresh_process
            = (Ok {| answer := lit "An answer."; sources := [VInt 2; VInt 1];
                     context_docs := [chunk_on_page 2 "Later in the book.";
                                      chunk_on_page 1 "Earlier in the book."] |},
               fresh_process)) as Hrun by by vm_compute.
    rewrite Hrun in Hr. injection Hr as <-. by vm_compute.
Defined.

(** ** Start-up needs the secret *)

Section secret_needed.
Context `{EmbeddingSpace Vec}.
Implicit Types (w : World Vec).

Lemma build_vectorstore_without_secret path w :
  secrets w !! api_key_name = None →
  ∃ e w', build_vectorstore path w = (Raise e, w')
          ∧ (is_Some (pdf_files w !! path) → e = secrets_error w api_key_name).
Proof.
  intros Hkey.
  unfold build_vectorstore, new_embeddings, st_secrets, PyPDFLoader_load,
    try_except, mbind, M_bind, mret, M_ret, bind, lift, ret, gets, raise.
  simpl.
  destruct (pdf_files w !! path) as [pages|] eqn:Hpdf; simpl.
  - rewrite Hkey. simpl. by eexists _, _.
  - eexists _, _. split; [done|]. by intros [? ?].
Qed.

Lemma create_qa_chain_without_secret (v : VectorStore Vec) w :
  secrets w !! api_key_name = None →
  create_qa_chain v w = (Raise (secrets_error w api_key_name), w).
Proof.
  intros Hkey. unfold create_qa_chain, st_secrets, mbind, M_bind, bind, lift.
  by rewrite Hkey.
Qed.

Lemma load_or_create_vectorstore_without_secret path w :
  secrets w !! api_key_name = None →
  (∃ v, load_or_create_vectorstore path w = (Ok v, w))
  ∨ ∃ e w', load_or_create_vectorstore path w = (Raise e, w')
            ∧ (is_Some (pdf_files w !! path) → e = secrets_error w api_key_name).
Proof.
  intros Hkey. unfold load_or_create_vectorstore, cache_resource.
  destruct (vectorstore_cache w !! path) as [v|]; [left; by exists v|]. right.
  assert (∃ w0, same_but_for_messages w w0
                ∧ load_or_create_vectorstore_wrapped path w = build_vectorstore path w0)
    as (w0 & Hsame & ->).
  { destruct (faiss_index w) as [dir|] eqn:Hindex.
    - destruct (load_attempt_outcome w) as [(key & _ & Hkey' & _)|[e He]]; [congruence|].
      exists (load_failure_notices e w).2. split; [apply load_failure_notices_same|].
      destruct (load_failure_runs_build path w) as [_ Hbuild]. by apply Hbuild.
    - exists w. split; [apply same_but_for_messages_refl|].
      destruct (load_failure_runs_build path w) as [Hbuild _]. by apply Hbuild. }
  destruct Hsame as (_ & _ & Hsecrets & _ & Hpdf & _ & _ & _ & Herror & _).
  destruct (build_vectorstore_without_secret path w0) as (e & w' & -> & He).
  { by rewrite Hsecrets. }
  exists e, w'. split; [done|]. intros Hreadable. rewrite <- Herror.
  apply He. by rewrite Hpdf.
Qed.

Lemma initialize_chatbot_wrapped_chatbot_cache w :
  chatbot_cache (initialize_chatbot_wrapped w).2 = chatbot_cache w.
Proof.
  unfold initialize_chatbot_wrapped, try_except, mbind, M_bind.
  pose proof (keeps_validate_environment w) as [_ Hc1].
  unfold bind at 1.
  destruct (validate_environment w) as [[[]|e1] wa]; simpl in *; [|done].
  pose proof (load_or_create_vectorstore_stores (lit "docs/muhammad_martin_Lings.pdf") wa)
    as (Hc2 & _ & _).
  unfold bind at 1.
  destruct (load_or_create_vectorstore _ wa) as [[v2|e2] wb]; simpl in *; [|congruence].
  pose proof (keeps_create_qa_chain v2 wb) as [_ Hc3].
  unfold bind at 1.
  destruct (create_qa_chain v2 wb) as [[c3|e3] wc]; simpl in *; congruence.
Qed.

Lemma startup_stops event (s : SessionState) w e w1 :
  chatbot_initialized s = None →
  initialize_chatbot w = (Raise e, w1) →
  ∃ w2, script event s w = (Ok (Stopped s), w2).
Proof.
  intros Hs Hrun. unfold script, startup, mbind, M_bind. unfold bind at 1.
  rewrite Hs. unfold try_except. unfold bind at 1. rewrite Hrun. simpl.
  by eexists.
Qed.

(** X6.  The chain cannot be built without the secret.  The validation
    reads the key from the environment, but the embeddings client and the
    model client take it from [st.secrets]; when the secret is missing,
    the first initialization raises whatever the environment holds,
    nothing is cached, and the script stops with the session as it was.
    When the validation passes and the document can be read, what is
    raised is the error of [st.secrets] for the name of the secret. *)
Theorem initialization_needs_the_secret w :
  secrets w !! api_key_name = None →
  chatbot_cache w = None →
  ∃ e w',
    initialize_chatbot w = (Raise e, w')
    ∧ chatbot_cache w' = None
    ∧ (credential_present w → is_Some (pdf_files w !! pdf_path) →
       e = secrets_error w api_key_name)
    ∧ ∀ event (s : SessionState), chatbot_initialized s = None →
        ∃ w2, script event s w = (Ok (Stopped s), w2).
Proof.
  intros Hkey Hcache.
  assert (∃ e w', initialize_chatbot_wrapped w = (Raise e, w')
                  ∧ (credential_present w → is_Some (pdf_files w !! pdf_path) →
                     e = secrets_error w api_key_name)) as (e & w' & Hrun & He).
  { unfold initialize_chatbot_wrapped, try_except, mbind, M_bind.
    unfold bind at 1.
    destruct (truthy ((environ w ∪ dotenv_file w) !! api_key_name)) eqn:Hcred.
    2: { rewrite (validate_environment_missing w Hcred). simpl.
         eexists _, _. split; [reflexivity|]. unfold credential_present.
         intros Hpresent. fold api_key_name in Hpresent. congruence. }
    rewrite (validate_environment_present w Hcred). cbv beta iota.
    set (wa := (load_dotenv w).2).
    assert (secrets wa !! api_key_name = None) as Hkeya by done.
    unfold bind at 1.
    destruct (load_or_create_vectorstore_without_secret
                (lit "docs/muhammad_martin_Lings.pdf") wa Hkeya)
      as [[v ->]|(e & wb & -> & He)]; simpl.
    - unfold bind at 1. rewrite create_qa_chain_without_secret by done. simpl.
      by eexists _, _.
    - eexists _, _. split; [reflexivity|]. intros _ Hreadable. by apply He. }
  assert (initialize_chatbot w = (Raise e, w')) as Hinit.
  { unfold initialize_chatbot, cache_resource. by rewrite Hcache, Hrun. }
  exists e, w'. split_and!; [done| |done|].
  - pose proof (initialize_chatbot_wrapped_chatbot_cache w) as Hc.
    rewrite Hrun in Hc. simpl in Hc. congruence.
  - intros event s Hs. by eapply startup_stops.
Qed.

End secret_needed.

(** ** Runs of the script *)

Section session_runs.
Context `{EmbeddingSpace Vec}.
Implicit Types (w : World Vec) (s : SessionState (Vec:=Vec)).

Lemma get_response_returns (chain : RetrievalChain Vec) question w :
  ∃ r w', get_response chain question w = (Ok r, w').
Proof.
  destruct (invoke chain (strip question) w) as [[out|e] w'] eqn:Hinvoke;
    eexists _, _; [by apply get_response_ok|by apply get_response_raise].
Qed.

Lemma respond_with_chain show_error question s chain w :
  qa_chain s = Some chain →
  respond show_error question s w = answer_with chain question s w.
Proof.
  intros Hchain. unfold respond, answer_with, try_except, mbind, M_bind, mret, M_ret.
  rewrite Hchain. unfold bind, ret.
  by destruct (get_response_returns chain question w) as (r & w' & ->).
Qed.

Lemma respond_appends show_error question s w :
  ∃ a w', respond show_error question s w
          = (Ok (append_message {| role := assistant; content := a |} s), w').
Proof.
  destruct (qa_chain s) as [chain|] eqn:Hchain.
  - rewrite (respond_with_chain _ _ _ chain) by done.
    unfold answer_with, mbind, M_bind, mret, M_ret, bind, ret.
    destruct (get_response_returns chain question w) as (r & w' & ->).
    by eexists _, _.
  - unfold respond, try_except, mbind, M_bind, mret, M_ret, bind, raise, ret.
    rewrite Hchain. destruct show_error; simpl; by eexists _, _.
Qed.

Lemma startup_outcome s w :
  (∃ w', startup s w = (Ok None, w') ∧ chatbot_initialized s = None)
  ∨ (∃ s1 w', startup s w = (Ok (Some s1), w')
       ∧ messages s1 = messages s
       ∧ pending_question s1 = pending_question s
       ∧ is_Some (chatbot_initialized s1)
       ∧ (chain_ready s → is_Some (qa_chain s1))).
Proof.
  unfold startup. destruct (chatbot_initialized s) as [b|] eqn:Hinit.
  - right. exists s, w. rewrite Hinit. split_and!; eauto.
  - unfold try_except, mbind, M_bind, mret, M_ret, bind, ret.
    destruct (initialize_chatbot w) as [[chain|e] w1]; simpl.
    + right. eexists _, _. split; [reflexivity|]. simpl. split_and!; eauto.
    + left. by eexists.
Qed.

(** What a run of the script does to the session. *)
Lemma script_outcome event s w :
  ∃ run w',
    script event s w = (Ok run, w')
    ∧ match run with
      | Stopped s' => s' = s ∧ chatbot_initialized s = None
      | Completed s' =>
          (∃ answers,
             length answers = length (asked event s)
             ∧ messages s'
               = Some (history s ++ (zip (asked event s) answers ≫= exchange)))
          ∧ is_Some (chatbot_initialized s')
          ∧ (pending_question s' = Some None ∨ pending_question s' = Some (Some []))
          ∧ (chain_ready s → is_Some (qa_chain s'))
      end.
Proof.
  destruct (startup_outcome s w)
    as [(w1 & Hstart & Hinit)|(s1 & w1 & Hstart & Hmsgs & Hpend & Hinit & Hchain)].
  { exists (Stopped s), w1. split; [|done].
    unfold script, mbind, M_bind. unfold bind at 1. by rewrite Hstart. }
  unfold asked, pending_at_handler, history. rewrite <-Hmsgs, <-Hpend.
  unfold script.
  set (click := clicked event ≫= (λ i, load_sample_questions !! i)).
  unfold mbind, M_bind. unfold bind at 1. rewrite Hstart.
  clear Hstart Hmsgs Hpend.
  destruct s1 as [chain initialized msgs pending]. simpl in *.
  destruct msgs as [h|], pending as [[[|c q]|]|], click as [[|c' q']|],
    (chat_input event) as [[|c'' q'']|];
    simpl; unfold mret, M_ret, bind, ret; simpl;
    repeat match goal with
      | |- context [respond ?b ?question ?s0 ?w0] =>
          let a := fresh "a" in
          destruct (respond_appends b question s0 w0) as (a & ? & ->); simpl
      end;
    eexists _, _; (split; [reflexivity|]); simpl;
    (split; [|by eauto]);
    first [ exists [a; a0]; split; [done|]; simpl; by rewrite <-?(assoc_L (++))
          | exists [a]; split; [done|]; simpl; by rewrite <-?(assoc_L (++))
          | exists []; split; [done|]; simpl; by rewrite ?app_nil_r ].
Qed.

(** X7.  A run of the script never raises.  It stops only when the chatbot
    is not yet initialized, and then leaves the session as it was.
    Otherwise every question asked in the run (the pending sample
    question, then the text of the chat box) is added to the history as
    it was entered, each followed by exactly one assistant message,
    whether the chain answered or failed; the messages that were there
    stay, in their order, and no question is left pending. *)
Theorem script_answers_each_question event s w :
  ∃ run w',
    script event s w = (Ok run, w')
    ∧ match run with
      | Stopped s' => s' = s ∧ chatbot_initialized s = None
      | Completed s' =>
          (∃ answers,
             length answers = length (asked event s)
             ∧ messages s'
               = Some (history s ++ (zip (asked event s) answers ≫= exchange)))
          ∧ is_Some (chatbot_initialized s')
          ∧ (pending_question s' = Some None ∨ pending_question s' = Some (Some []))
      end.
Proof.
  destruct (script_outcome event s w) as (run & w' & Hrun & Hout).
  exists run, w'. split; [done|]. destruct run; [|done].
  by destruct Hout as (? & ? & ? & _).
Qed.

Lemma conversation_extends (h : list Message) (turns : list (str * str)) :
  conversation h → conversation (h ++ (turns ≫= exchange)).
Proof.
  intros [turns0 ->]. exists (turns0 ++ turns). by rewrite bind_app.
Qed.

(** X8.  The history stays a conversation.  If the history of the session
    is missing or is the greeting followed by questions each with its
    answer, then so is the history after a completed run: no run leaves a
    question without an answer or an answer without a question. *)
Theorem script_keeps_conversation event s w s' w' :
  (∀ h, messages s = Some h → conversation h) →
  script event s w = (Ok (Completed s'), w') →
  ∃ h', messages s' = Some h' ∧ conversation h' ∧ history s `prefix_of` h'.
Proof.
  intros Hconv Hrun.
  destruct (script_outcome event s w) as (run & w1 & Hrun' & Hout).
  rewrite Hrun in Hrun'. injection Hrun' as <- <-.
  destruct Hout as ((answers & _ & Hmsgs) & _).
  eexists. split; [done|]. split; [|by eexists].
  apply conversation_extends. unfold history.
  destruct (messages s) as [h|]; simpl; [by apply Hconv|]. by exists [].
Qed.

(** X9.  A rerun that no click and no input caused changes nothing: after a
    completed run, running the script again without interaction, in
    whatever state the process is by then, completes with the same
    session and leaves the process state as it is.  In particular the
    question that was pending is not asked a second time. *)
Theorem rerun_without_interaction_changes_nothing event s w s' w' :
  script event s w = (Ok (Completed s'), w') →
  ∀ w'', script no_interaction s' w'' = (Ok (Completed s'), w'').
Proof.
  intros Hrun w''.
  destruct (script_outcome event s w) as (run & w1 & Hrun' & Hout).
  rewrite Hrun in Hrun'. injection Hrun' as <- <-.
  destruct Hout as ((answers & _ & Hmsgs) & [b Hinit] & Hpend & _).
  unfold script, startup, mbind, M_bind, mret, M_ret, ret, bind.
  destruct s' as [chain initialized msgs pending]. simpl in *. subst.
  by destruct Hpend as [-> | ->].
Qed.

(** X10.  The error branch of the two response handlers is dead code in the
    sessions the script makes.  With a chain in the session, [respond] is
    its [try] block alone: [get_response] never raises, so the
    "Sorry, I encountered an error" text is never produced and
    [st.error] is never called by the handler.  The script keeps the
    chain in the session: it is there after every completed run that
    starts from a session in which the flag implies the chain. *)
Theorem respond_error_branch_is_unreachable :
  (∀ show_error question s chain w,
     qa_chain s = Some chain →
     respond show_error question s w = answer_with chain question s w)
  ∧ (∀ event s w s' w',
       chain_ready s →
       script event s w = (Ok (Completed s'), w') →
       is_Some (qa_chain s') ∧ chain_ready s').
Proof.
  split; [intros; by apply respond_with_chain|].
  intros event s w s' w' Hready Hrun.
  destruct (script_outcome event s w) as (run & w1 & Hrun' & Hout).
  rewrite Hrun in Hrun'. injection Hrun' as <- <-.
  destruct Hout as (_ & _ & _ & Hchain). split; [by apply Hchain|].
  intros _. by apply Hchain.
Qed.

End session_runs.

(** ** Sample questions and failed start-ups *)

Section sidebar_and_stop.
Context `{EmbeddingSpace Vec}.
Implicit Types (w : World Vec) (s : SessionState (Vec:=Vec)).

Lemma sample_questions_not_empty (i : nat) :
  i < 15 → ∃ c question, load_sample_questions !! i = Some (c :: question).
Proof.
  intros Hi. do 15 (destruct i as [|i]; [by vm_compute; eexists _, _|]). lia.
Qed.

(** X18.  A click on a sample question is always answered in the same
    run.  Each of the fifteen buttons carries a question that is not
    empty; when the run completes, that question is the first message
    added to the history, followed by one assistant message, whatever was
    pending in the session before and whatever is typed in the chat
    box. *)
Theorem sample_click_is_asked event s w s' w' (i : nat) :
  clicked event = Some i → i < 15 →
  script event s w = (Ok (Completed s'), w') →
  ∃ question a rest,
    load_sample_questions !! i = Some question
    ∧ question ≠ []
    ∧ messages s' = Some (history s ++ exchange (question, a) ++ rest).
Proof.
  intros Hclick Hi Hrun.
  destruct (sample_questions_not_empty i Hi) as (c & question & Hsample).
  destruct (script_outcome event s w) as (run & w1 & Hrun' & Hout).
  rewrite Hrun in Hrun'. injection Hrun' as <- <-.
  destruct Hout as ((answers & Hlen & Hmsgs) & _).
  unfold asked, pending_at_handler in Hlen, Hmsgs.
  rewrite Hclick in Hlen, Hmsgs. simpl in Hlen, Hmsgs. rewrite Hsample in Hlen, Hmsgs.
  destruct answers as [|a answers]; [done|].
  exists (c :: question), a. eexists. split; [done|]. split; [done|].
  rewrite Hmsgs. simpl. reflexivity.
Qed.

Lemma try_except_raise_inv {A} (body : M Vec A) handler w e w' :
  try_except body handler w = (Raise e, w') →
  ∃ e0 w0, body w = (Raise e0, w0) ∧ handler e0 w0 = (Raise e, w').
Proof.
  unfold try_except. destruct (body w) as [[a|e0] w0]; [done|]. by exists e0, w0.
Qed.

Lemma initialize_chatbot_raise w e w1 :
  initialize_chatbot w = (Raise e, w1) →
  ∃ w0, shown w1 = shown w0 ++ [ {| level := error;
                                    text := lit "Failed to initialize chatbot: "
                                            ++ exn_str e |} ]
        ∧ chatbot_cache w1 = None.
Proof.
  unfold initialize_chatbot, cache_resource.
  destruct (chatbot_cache w) as [c|] eqn:Hcache; [done|].
  pose proof (initialize_chatbot_wrapped_chatbot_cache w) as Hkept.
  destruct (initialize_chatbot_wrapped w) as [[c|e'] w'] eqn:Hrun; [done|].
  intros [= -> ->]. simpl in Hkept.
  unfold initialize_chatbot_wrapped in Hrun.
  apply try_except_raise_inv in Hrun as (e0 & w0 & _ & Hrun).
  unfold mbind, M_bind, bind, st_show, modify, raise in Hrun. simpl in Hrun.
  injection Hrun as <- <-. exists w0. split; [done|]. simpl in *. congruence.
Qed.

(** X19.  A start-up that fails is reported and not remembered.  When
    [initialize_chatbot] raises in a session that is not initialized, the
    script stops with the session as it was, the last two messages shown
    are the error line of [initialize_chatbot] and the error line of the
    app, both with the text of that exception, and the chatbot cache is
    still empty, so that the next run tries again. *)
Theorem startup_failure_is_reported event s w e w1 :
  chatbot_initialized s = None →
  initialize_chatbot w = (Raise e, w1) →
  ∃ earlier w2,
    script event s w = (Ok (Stopped s), w2)
    ∧ shown w2
      = earlier
        ++ [ {| level := error;
                text := lit "Failed to initialize chatbot: " ++ exn_str e |};
             {| level := error;
                text := [10060%N] ++ lit " Error initializing chatbot: " ++ exn_str e |} ]
    ∧ chatbot_cache w2 = None.
Proof.
  intros Hs Hrun.
  destruct (initialize_chatbot_raise w e w1 Hrun) as (w0 & Hshown & Hcache).
  exists (shown w0). eexists. split; [|split].
  - unfold script, startup, mbind, M_bind. unfold bind at 1.
    rewrite Hs. unfold try_except. unfold bind at 1. rewrite Hrun. simpl.
    reflexivity.
  - simpl. rewrite Hshown. by rewrite <-(assoc_L (++)).
  - done.
Qed.

End sidebar_and_stop.

Lemma sample_click_is_asked_witness :
  ∃ a rest,
    messages answered_session
    = Some (history waiting_session
            ++ exchange (lit "Describe the Pledge of Aqaba", a) ++ rest).
Proof.
  assert (script {| clicked := Some 9; chat_input := None |} waiting_session
            (outage fresh_process)
          = (Ok (Completed answered_session), outage fresh_process)) as Hrun
    by by vm_compute.
  destruct (sample_click_is_asked {| clicked := Some 9; chat_input := None |}
              waiting_session (outage fresh_process) answered_session
              (outage fresh_process) 9 eq_refl ltac:(lia) Hrun)
    as (question & a & rest & Hsample & _ & Hmsgs).
  injection Hsample as <-. by exists a, rest.
Defined.

Lemma startup_failure_is_reported_witness :
  ∃ earlier w2,
    script no_interaction empty_session no_credential = (Ok (Stopped empty_session), w2)
    ∧ shown w2
      = earlier
        ++ [ {| level := error;
                text := lit "Failed to initialize chatbot: "
                        ++ lit "Missing required environment variables: OPENAI_API_KEY. Please set them in your .env file or Streamlit secrets." |};
             {| level := error;
                text := [10060%N] ++ lit " Error initializing chatbot: "
                        ++ lit "Missing required environment variables: OPENAI_API_KEY. Please set them in your .env file or Streamlit secrets." |} ].
Proof.
  destruct (startup_failure_is_reported no_interaction empty_session no_credential
              (Exn "ValueError" (lit "Missing required environment variables: OPENAI_API_KEY. Please set them in your .env file or Streamlit secrets."))
              (initialize_chatbot no_credential).2 eq_refl ltac:(by vm_compute))
    as (earlier & w2 & Hrun & Hshown & _).
  by exists earlier, w2.
Defined.

(** ** Cleaning a text *)

Section text_cleaning.

Lemma lit_space : lit " " = [32%N].
Proof. by vm_compute. Qed.

Lemma lit_dots : lit ".." = [46; 46]%N.
Proof. by vm_compute. Qed.

Lemma lit_dot : lit "." = [46%N].
Proof. by vm_compute. Qed.

Lemma lit_dot_space : lit ". " = [46; 32]%N.
Proof. by vm_compute. Qed.

Lemma join_cons (sep p : str) (rest : list str) :
  rest ≠ [] → join sep (p :: rest) = p ++ sep ++ join sep rest.
Proof. by destruct rest. Qed.

Lemma split_runs_words cur s :
  Forall (λ c, isspace c = false) cur → Forall is_word (split_runs cur s).
Proof.
  revert cur. induction s as [|c s IH]; intros cur Hcur; simpl.
  - destruct cur; [constructor|]. constructor; [by split|constructor].
  - destruct (isspace c) eqn:Hc.
    + destruct cur; [by apply IH|].
      constructor; [by split|]. by apply IH.
    + apply IH. apply Forall_app. split; [done|]. by constructor.
Qed.

Lemma replace_from_drop old new n s :
  replace_from old new n s = replace_from old new 0 (drop n s).
Proof.
  revert n. induction s as [|c s IH]; intros [|n]; simpl; done.
Qed.

(** Replacing a string by itself changes nothing. *)
Lemma replace_from_same old s : old ≠ [] → replace_from old old 0 s = s.
Proof.
  intros Hold. remember (length s) as n eqn:Hn.
  revert s Hn. induction (lt_wf n) as [n _ IH]. intros s ->.
  destruct s as [|c rest]; [done|]. simpl.
  destruct (decide (old `prefix_of` c :: rest)) as [[tl Htl]|_].
  - destruct old as [|o old']; [done|]. simpl in Htl. injection Htl as -> ->.
    rewrite replace_from_drop. simpl. rewrite Nat.sub_0_r, drop_app_length.
    rewrite (IH (length tl)) with (s := tl); [done| |done].
    simpl. rewrite length_app. lia.
  - f_equal. apply (IH (length rest)); [simpl; lia|done].
Qed.

(** A character that is not in [old] ends every occurrence of [old]. *)
Lemma prefix_of_before (old w : str) c rest :
  c ∉ old → old `prefix_of` w ++ c :: rest ↔ old `prefix_of` w.
Proof.
  intros Hc. split; [|apply prefix_app_r].
  intros [tl Htl].
  destruct (decide (length old ≤ length w)) as [Hle|Hgt].
  - exists (drop (length old) w).
    rewrite <-(take_drop (length old) w) at 1. f_equal.
    apply (f_equal (take (length old))) in Htl.
    rewrite take_app_le in Htl by done.
    by rewrite take_app_length in Htl.
  - exfalso. apply Hc.
    apply (f_equal (λ l, l !! length w)) in Htl. simpl in Htl.
    rewrite list_lookup_middle in Htl by done.
    rewrite lookup_app_l in Htl by lia.
    by eapply list_elem_of_lookup_2.
Qed.

Lemma replace_from_app_sep old new (w : str) c rest n :
  old ≠ [] → c ∉ old → n ≤ length w →
  replace_from old new n (w ++ c :: rest)
  = replace_from old new n w ++ c :: replace_from old new 0 rest.
Proof.
  intros Hold Hc. revert n. induction w as [|a w IH]; intros n Hn.
  - destruct n; [|simpl in Hn; lia]. simpl.
    destruct (decide (old `prefix_of` c :: rest)) as [[tl Htl]|_]; [|done].
    destruct old as [|o old']; [done|]. injection Htl as -> _.
    exfalso. apply Hc. by left.
  - destruct n as [|n]; simpl.
    + destruct (decide (old `prefix_of` a :: w ++ c :: rest)) as [Hp|Hp];
        destruct (decide (old `prefix_of` a :: w)) as [Hp'|Hp'].
      * rewrite IH; [by rewrite (assoc_L (++))|].
        apply prefix_length in Hp'. simpl in Hp'. lia.
      * exfalso. apply Hp'. by apply (prefix_of_before old (a :: w) c rest).
      * exfalso. apply Hp. by apply (prefix_of_before old (a :: w) c rest).
      * by rewrite IH by lia.
    + apply IH. simpl in Hn. lia.
Qed.

Lemma replace_from_nonempty old new (s : str) :
  new ≠ [] → s ≠ [] → replace_from old new 0 s ≠ [].
Proof.
  intros Hnew Hs. destruct s as [|c rest]; [done|]. simpl.
  destruct (decide _); [|done]. by destruct new.
Qed.

Lemma replace_from_Forall (P : N → Prop) old new n (s : str) :
  Forall P new → Forall P s → Forall P (replace_from old new n s).
Proof.
  intros Hnew. revert n. induction s as [|c rest IH]; intros n Hs; [done|].
  apply Forall_cons in Hs as [Hc Hrest]. destruct n as [|n]; simpl.
  - destruct (decide _).
    + apply Forall_app. split; [done|by apply IH].
    + constructor; [done|by apply IH].
  - by apply IH.
Qed.

(** What a replacement leaves of the characters that are neither in
    [old] nor in [new]. *)
Lemma replace_from_filter (P : N → Prop) `{∀ c, Decision (P c)} old new n (s : str) :
  old ≠ [] → Forall (λ c, ¬ P c) old → Forall (λ c, ¬ P c) new →
  Forall (λ c, ¬ P c) (take n s) →
  filter P (replace_from old new n s) = filter P s.
Proof.
  intros Hne Hold Hnew. revert n. induction s as [|c rest IH]; intros n Hn; [done|].
  destruct n as [|n]; simpl.
  - destruct (decide (old `prefix_of` c :: rest)) as [[tl Htl]|_].
    + rewrite filter_app.
      assert (filter P new = []) as ->.
      { clear -Hnew. induction Hnew; [done|]. by rewrite filter_cons_False. }
      destruct old as [|o old']; [done|]. simpl.
      injection Htl as -> ->. apply Forall_cons in Hold as [Ho Hold'].
      rewrite filter_cons_False by done. rewrite Nat.sub_0_r. apply IH.
      by rewrite take_app_length.
    + rewrite !filter_cons. destruct (decide (P c)); [f_equal|]; by apply IH.
  - simpl in Hn. apply Forall_cons in Hn as [Hc Hn].
    rewrite filter_cons_False by done. by apply IH.
Qed.

Lemma replace_from_length old new n (s : str) :
  length new ≤ length old → n ≤ length s →
  length (replace_from old new n s) + n ≤ length s.
Proof.
  intros Hlen. revert n. induction s as [|c rest IH]; intros n Hn.
  - simpl in *. lia.
  - destruct n as [|n]; simpl.
    + destruct (decide (old `prefix_of` c :: rest)) as [Hp|_].
      * apply prefix_length in Hp. simpl in Hp.
        rewrite length_app.
        specialize (IH (length old - 1) ltac:(lia)). lia.
      * specialize (IH 0). simpl. lia.
    + simpl in Hn. specialize (IH n). lia.
Qed.

(** Replacing inside a line of words is replacing inside each word, when
    a blank is not part of what is replaced. *)
Lemma str_replace_join old new (ws : list str) :
  old ≠ [] → 32%N ∉ old →
  str_replace old new (join [32%N] ws) = join [32%N] (str_replace old new <$> ws).
Proof.
  intros Hold Hsp. destruct old as [|o old']; [done|]. unfold str_replace.
  induction ws as [|w ws IH]; [done|].
  destruct ws as [|w' ws]; [done|].
  rewrite join_cons by done.
  rewrite fmap_cons, (join_cons _ (replace_from (o :: old') new 0 w)) by done.
  change ([32%N] ++ ?r) with (32%N :: r).
  rewrite replace_from_app_sep by (done || lia).
  by rewrite IH.
Qed.

Lemma lstrip_id (s : str) :
  (∀ c, head s = Some c → isspace c = false) → lstrip s = s.
Proof.
  destruct s as [|c s]; [done|]. intros Hc. simpl. by rewrite (Hc c).
Qed.

Lemma rstrip_id (s : str) :
  (∀ c, last s = Some c → isspace c = false) → rstrip s = s.
Proof.
  intros Hc. unfold rstrip. rewrite lstrip_id; [by rewrite reverse_involutive|].
  intros c Hhead. apply Hc. by rewrite <-head_reverse.
Qed.

Lemma join_words_nonempty (sep : str) ws : Forall is_word ws → ws ≠ [] → join sep ws ≠ [].
Proof.
  intros Hws Hne. destruct ws as [|w ws]; [done|].
  apply Forall_cons in Hws as [[Hw _] _].
  destruct ws; simpl; [done|]. by destruct w.
Qed.

Lemma join_words_head ws c :
  Forall is_word ws → head (join [32%N] ws) = Some c → isspace c = false.
Proof.
  intros Hws. destruct ws as [|w ws]; [done|].
  apply Forall_cons in Hws as [[Hne Hw] _].
  destruct w as [|a w]; [done|]. apply Forall_cons in Hw as [Ha _].
  destruct ws; simpl; by intros [= <-].
Qed.

Lemma join_words_last ws c :
  Forall is_word ws → last (join [32%N] ws) = Some c → isspace c = false.
Proof.
  induction 1 as [|w ws [Hne Hw] Hws IH]; [done|].
  destruct ws as [|w' ws].
  - simpl. intros Hlast. rewrite Forall_forall in Hw. apply Hw.
    apply last_Some in Hlast as [l' ->]. apply elem_of_app. right. by left.
  - rewrite join_cons by done. rewrite (assoc_L (++)), last_app.
    destruct (last (join [32%N] (w' :: ws))) as [c'|] eqn:Hlast.
    + intros [= <-]. by apply IH.
    + apply last_None in Hlast. by apply join_words_nonempty in Hlast.
Qed.

Lemma strip_join_words ws :
  Forall is_word ws → strip (join [32%N] ws) = join [32%N] ws.
Proof.
  intros Hws. unfold strip.
  rewrite lstrip_id by (intros c; by apply join_words_head).
  apply rstrip_id. intros c. by apply join_words_last.
Qed.

Lemma str_replace_word old new (w : str) :
  old ≠ [] → new ≠ [] → Forall (λ c, isspace c = false) new →
  is_word w → is_word (str_replace old new w).
Proof.
  intros Hold Hnew Hsp [Hne Hw]. destruct old as [|o old']; [done|].
  split; [by apply replace_from_nonempty|by apply replace_from_Forall].
Qed.

Lemma filter_join (P : N → Prop) `{∀ c, Decision (P c)} (sep : str) (ws : list str) :
  Forall (λ c, ¬ P c) sep → filter P (join sep ws) = filter P (concat ws).
Proof.
  intros Hsep.
  assert (filter P sep = []) as Hnil.
  { clear -Hsep. induction Hsep; [done|]. by rewrite filter_cons_False. }
  induction ws as [|w ws IH]; [done|].
  destruct ws as [|w' ws]; [simpl; by rewrite app_nil_r|].
  rewrite join_cons by done. rewrite !filter_app, Hnil, IH.
  change (concat (w :: w' :: ws)) with (w ++ concat (w' :: ws)).
  by rewrite filter_app.
Qed.

Lemma filter_split_runs (P : N → Prop) `{∀ c, Decision (P c)} cur s :
  (∀ c, isspace c = true → ¬ P c) →
  filter P (concat (split_runs cur s)) = filter P (cur ++ s).
Proof.
  intros Hsp. revert cur. induction s as [|c s IH]; intros cur; simpl.
  - destruct cur; simpl; by rewrite ?app_nil_r.
  - destruct (isspace c) eqn:Hc.
    + rewrite filter_app, filter_cons_False by by apply Hsp.
      destruct cur as [|a cur].
      * by rewrite IH.
      * change (concat (?x :: ?l)) with (x ++ concat l).
        by rewrite filter_app, IH.
    + by rewrite IH, <-(assoc_L (++)).
Qed.

Lemma length_join_split_runs cur s :
  length (join [32%N] (split_runs cur s)) ≤ length cur + length s.
Proof.
  revert cur. induction s as [|c s IH]; intros cur; simpl.
  - destruct cur; simpl; lia.
  - destruct (isspace c).
    + destruct cur as [|a cur]; [specialize (IH []); simpl in *; lia|].
      destruct (split_runs [] s) as [|w ws] eqn:Hruns.
      * simpl. lia.
      * rewrite join_cons by done. rewrite <-Hruns, !length_app.
        specialize (IH []). simpl in *. lia.
    + specialize (IH (cur ++ [c])). rewrite length_app in IH. simpl in *. lia.
Qed.

Lemma length_join_le (sep : str) (ws ws' : list str) :
  Forall2 (λ w w', length w ≤ length w') ws ws' →
  length (join sep ws) ≤ length (join sep ws').
Proof.
  induction 1 as [|w w' ws ws' Hw Hws IH]; [done|].
  destruct Hws as [|v v' vs vs' Hv Hvs]; [done|].
  rewrite (join_cons sep w), (join_cons sep w') by done.
  rewrite !length_app. lia.
Qed.

Lemma split_runs_word cur (w : str) :
  Forall (λ c, isspace c = false) w → cur ++ w ≠ [] →
  split_runs cur w = [cur ++ w].
Proof.
  revert cur. induction w as [|c w IH]; intros cur Hw Hne; simpl.
  - rewrite app_nil_r in *. by destruct cur.
  - apply Forall_cons in Hw as [-> Hw].
    rewrite IH, <-(assoc_L (++)); [done..|].
    rewrite <-(assoc_L (++)). by destruct cur.
Qed.

Lemma replace_dots_run (n : nat) :
  replace_from [46; 46]%N [46]%N 0 (replicate n 46%N) = replicate (Nat.div2 (S n)) 46%N
  ∧ replace_from [46; 46]%N [46]%N 0 (replicate (S n) 46%N)
    = replicate (Nat.div2 (S (S n))) 46%N.
Proof.
  induction n as [|n [IH1 IH2]]; [done|]. split; [done|].
  change (replicate (S (S n)) 46%N) with (46 :: 46 :: replicate n 46)%N.
  change (Nat.div2 (S (S (S n)))) with (S (Nat.div2 (S n))).
  cbn [replace_from]. rewrite decide_True by (by exists (replicate n 46%N)).
  cbn [replace_from length Nat.sub app replicate]. by rewrite IH1.
Qed.

(** X14.  [clean_text] works word by word: the result is the words of the
    text, each with its pairs of dots replaced, put together with single
    blanks; the first [replace] and the final [strip] change nothing.
    Nothing but whitespace and dots is taken out, and the result is never
    longer than the text. *)
Theorem clean_text_word_by_word (text : str) :
  let words := str_replace (lit "..") (lit ".") <$> str_split text in
  clean_text text = join (lit " ") words
  ∧ Forall is_word words
  ∧ filter (λ c, isspace c = false ∧ c ≠ 46%N) (clean_text text)
    = filter (λ c, isspace c = false ∧ c ≠ 46%N) text
  ∧ length (clean_text text) ≤ length text.
Proof.
  intros words.
  assert (Forall is_word (str_split text)) as Hsplit by by apply split_runs_words.
  assert (Forall is_word words) as Hwords.
  { unfold words. rewrite Forall_fmap. eapply Forall_impl; [done|].
    intros w Hw. apply str_replace_word; try done; rewrite ?lit_dots, ?lit_dot; try done.
    by repeat constructor. }
  assert (clean_text text = join (lit " ") words) as Hclean.
  { unfold clean_text, words.
    rewrite (lit_dot_space), lit_space, lit_dots, lit_dot.
    change (str_replace [46; 32]%N [46; 32]%N ?s) with (replace_from [46; 32]%N [46; 32]%N 0 s).
    rewrite replace_from_same by done.
    rewrite str_replace_join; [|done|].
    - apply strip_join_words. by rewrite <-lit_dots, <-lit_dot.
    - rewrite !elem_of_cons, elem_of_nil. intros [|[|]]; done. }
  split; [done|]. split; [done|]. rewrite Hclean. split.
  - rewrite filter_join by (rewrite lit_space; repeat constructor; by intros [? _]).
    transitivity (filter (λ c, isspace c = false ∧ c ≠ 46%N) (concat (str_split text))).
    + unfold words. generalize (str_split text). intros ws.
      induction ws as [|w ws IH]; [done|].
      rewrite fmap_cons. simpl concat. rewrite !filter_app, IH. f_equal.
      rewrite lit_dots, lit_dot.
      apply (replace_from_filter _ [46; 46]%N [46]%N 0 w);
        [done|repeat constructor; by intros [_ ?]..].
    + unfold str_split. rewrite filter_split_runs; [done|].
      intros c Hc [Hc' _]. congruence.
  - transitivity (length (join (lit " ") (str_split text))).
    + apply length_join_le. unfold words. apply Forall2_fmap_l, Forall_Forall2_diag.
      apply Forall_true. intros w. rewrite lit_dots, lit_dot.
      pose proof (replace_from_length [46; 46]%N [46]%N 0 w) as Hlen.
      simpl in *. unfold str_replace. lia.
    + rewrite lit_space. apply (length_join_split_runs [] text).
Qed.

(** X15.  A run of dots is not collapsed but halved: [n] dots become [n / 2]
    rounded up, since the occurrences of [..] are replaced from left to
    right in one pass.  An ellipsis comes out as two dots, and cleaning a
    text twice need not give the same as cleaning it once. *)
Theorem clean_text_halves_dots (n : nat) :
  clean_text (replicate n 46%N) = replicate (Nat.div2 (S n)) 46%N
  ∧ clean_text (lit "...") = lit ".."
  ∧ clean_text (clean_text (lit "...")) ≠ clean_text (lit "...").
Proof.
  split; [|split; by vm_compute].
  destruct n as [|n]; [by vm_compute|].
  unfold clean_text, str_split.
  rewrite split_runs_word; [|apply Forall_replicate; by vm_compute|done].
  rewrite lit_dot_space, lit_dots, lit_dot. simpl join.
  change (str_replace [46; 32]%N [46; 32]%N ?s) with (replace_from [46; 32]%N [46; 32]%N 0 s).
  rewrite replace_from_same by done.
  change (str_replace [46; 46]%N [46]%N ?s) with (replace_from [46; 46]%N [46]%N 0 s).
  change (46%N :: replicate n 46%N) with (replicate (S n) 46%N).
  rewrite (proj1 (replace_dots_run (S n))).
  change (replicate (Nat.div2 (S (S n))) 46%N) with (join [32%N] [replicate (Nat.div2 (S (S n))) 46%N]).
  apply strip_join_words. constructor; [|constructor].
  split; [by destruct n|]. apply Forall_replicate. by vm_compute.
Qed.

End text_cleaning.

(** ** Searching a store *)

Section search_failures.
Context {Vec : Type}.
Variable similarity_search : VectorStore Vec → str → Z → M Vec (list Document).

(** X16.  [search_similar_chunks] never raises, whatever the search of the
    library does.  When the search returns, its documents are returned
    and nothing else happens; when it raises, the result is the empty
    list, and the only further change to the state is one error message
    with the text of the exception. *)
Theorem search_similar_chunks_never_raises (vectorstore : VectorStore Vec)
    (query : str) (k : Z) (w : World Vec) :
  ∃ docs w',
    search_similar_chunks similarity_search vectorstore query k w = (Ok docs, w')
    ∧ match similarity_search vectorstore query k w with
      | (Ok found, w1) => docs = found ∧ w' = w1
      | (Raise e, w1) =>
          docs = []
          ∧ shown w' = shown w1 ++ [ {| level := error;
                                        text := lit "Search failed: " ++ exn_str e |} ]
          ∧ same_but_for_messages w1 w'
      end.
Proof.
  unfold search_similar_chunks, try_except, mbind, M_bind, mret, M_ret, bind, ret.
  destruct (similarity_search vectorstore query k w) as [[found|e] w1]; simpl.
  - by eexists _, _.
  - eexists _, _. split; [reflexivity|]. simpl. by repeat split.
Qed.

End search_failures.

Example search_failure_is_an_empty_result :
  search_similar_chunks search_down built_store (lit "Hijra") 5 fresh_process
  = (Ok [], {| environ := environ fresh_process;
               dotenv_file := dotenv_file fresh_process;
               secrets := secrets fresh_process;
               directories := directories fresh_process;
               pdf_files := pdf_files fresh_process;
               faiss_index := faiss_index fresh_process;
               index_size_mb := index_size_mb fresh_process;
               secrets_error := secrets_error fresh_process;
               index_write_failure := index_write_failure fresh_process;
               embed := embed fresh_process;
               complete := complete fresh_process;
               shown := [ {| level := error;
                             text := lit "Search failed: Connection error." |} ];
               vectorstore_cache := vectorstore_cache fresh_process;
               chatbot_cache := chatbot_cache fresh_process |}).
Proof. by vm_compute. Qed.

(** ** The properties on the example processes, continued *)

Lemma load_or_create_vectorstore_agrees_with_directory_witness :
  ∃ w', load_or_create_vectorstore pdf_path corrupt_index = (Ok built_store, w')
        ∧ faiss_index w' = Some (Persisted (entries built_store)).
Proof.
  pose proof (proj1 (load_or_create_vectorstore_agrees_with_directory
                       pdf_path corrupt_index) eq_refl) as Hdir.
  assert ((load_or_create_vectorstore pdf_path corrupt_index).1 = Ok built_store)
    as Hstore by by vm_compute.
  destruct (load_or_create_vectorstore pdf_path corrupt_index) as [[v|e] w'];
    simpl in Hstore; [|discriminate].
  injection Hstore as ->. by exists w'.
Defined.

Example failed_write_leaves_part_of_the_index :
  ∃ w', build_vectorstore pdf_path write_fails = (Raise write_error, w')
        ∧ faiss_index w' = Some (Unloadable half_written).
Proof. eexists. split; by vm_compute. Qed.

Lemma initialization_needs_the_secret_witness :
  ∃ w', initialize_chatbot no_secret = (Raise (missing_secret api_key_name), w')
        ∧ chatbot_cache w' = None
        ∧ ∃ w2, script no_interaction empty_session no_secret
                = (Ok (Stopped empty_session), w2).
Proof.
  destruct (initialization_needs_the_secret no_secret
              ltac:(by vm_compute) ltac:(by vm_compute))
    as (e & w' & Hrun & Hcache & He & Hstop).
  rewrite He in Hrun.
  - exists w'. split; [exact Hrun|]. split; [exact Hcache|]. by apply Hstop.
  - by vm_compute.
  - eexists. by vm_compute.
Defined.

Example waiting_question_is_answered :
  script no_interaction waiting_session (outage fresh_process)
  = (Ok (Completed answered_session), outage fresh_process).
Proof. by vm_compute. Qed.

Lemma script_keeps_conversation_witness :
  ∃ h', messages answered_session = Some h'
        ∧ conversation h'
        ∧ history waiting_session `prefix_of` h'.
Proof.
  apply (script_keeps_conversation no_interaction waiting_session (outage fresh_process)
           answered_session (outage fresh_process)).
  - intros h [= <-]. by exists [(lit "Who was Khadijah?", lit "The Prophet's first wife.")].
  - apply waiting_question_is_answered.
Defined.

Lemma rerun_without_interaction_changes_nothing_witness :
  script no_interaction answered_session fresh_process
  = (Ok (Completed answered_session), fresh_process).
Proof.
  apply (rerun_without_interaction_changes_nothing no_interaction waiting_session
           (outage fresh_process) answered_session (outage fresh_process)).
  apply waiting_question_is_answered.
Defined.

Lemma respond_error_branch_is_unreachable_witness :
  respond true (lit "Who was Abu Bakr?") waiting_session fresh_process
  = answer_with built_chain (lit "Who was Abu Bakr?") waiting_session fresh_process
  ∧ is_Some (qa_chain answered_session).
Proof.
  destruct (respond_error_branch_is_unreachable (Vec:=Z)) as [Hrespond Hscript].
  split.
  - by apply Hrespond.
  - destruct (Hscript no_interaction waiting_session (outage fresh_process)
                answered_session (outage fresh_process)) as [Hchain _].
    + intros _. by eexists.
    + apply waiting_question_is_answered.
    + exact Hchain.
Defined.
